(** * MoaMosaic: a shallow embedding of [moamosaic/mosaic.py]

    The planner (tile list, per-tile inputs, reading list, partition), the
    reader's clip-and-pad step, the writer loop with its block cache, the
    merge kernel and the block queue, as Rocq functions over [Z], lists and
    finite maps, with the properties of the engine's specification proved
    (or refuted) against them; then the catalogue, the output grid, the
    analysis step of [doMosaic], the opening of the output file and the
    job list of the timing script [timingtests/runmoatiming.py], with the
    properties the code itself shows. *)

From Stdlib Require Import ZArith List Lia Ascii String.
From stdpp Require Import base option list gmap strings sorting.

Local Open Scope Z_scope.

(** * Part I: the program *)

(** ** Data model *)

(** Modelled from the spec: [structures.BlockSpec] is not among the source
    files.  [BlockSpec(top, left, xsize, ysize)] is a rectangle in pixel
    coordinates, a value type whose equality and hash are structural, so a
    block is a key of [filesForBlock] and of the block cache. *)
Record BlockSpec := mkBlockSpec {
  top : Z;
  left : Z;
  xsize : Z;
  ysize : Z
}.

#[global] Instance BlockSpec_eq_dec : EqDecision BlockSpec.
Proof. solve_decision. Defined.

#[global] Instance BlockSpec_countable : Countable BlockSpec.
Proof.
  refine (inj_countable'
            (λ b, (top b, left b, xsize b, ysize b))
            (λ t, mkBlockSpec t.1.1.1 t.1.1.2 t.1.2 t.2) _).
  by intros [].
Defined.

(** Modelled from the spec: [structures.ImageInfo] is not among the source
    files.  This is its integer part: pixel dimensions, band count, GDAL
    data type code and null value.  The projection string and the
    floating-point transform and bounds are used only by the projection of
    a tile into a file's pixel grid, which the planner takes as a
    parameter below. *)
Record ImageInfo := mkImageInfo {
  ncols : Z;
  nrows : Z;
  numBands : Z;
  dataType : Z;
  nullVal : Z
}.

(** ** Exceptions and arrays *)

(** The exceptions the engine can end with.  [ValueError_BlockMismatch]
    is the [ValueError] of [getInputsForBlock]; its three format arguments
    and the file list of its message are kept as fields. *)
Inductive PyExc :=
  | RasterError (code : Z)
  | NumpyValueError
  | KeyError
  | IndexError
  | ValueError_BlockMismatch (blockSpec : BlockSpec) (arr_shape shp : Z * Z)
      (files : list string).

(** Result of a call that may raise. *)
Inductive Result (X : Type) :=
  | Ok (x : X)
  | Raise (e : PyExc).
Arguments Ok {X} x.
Arguments Raise {X} e.

Definition Result_bind {X Y : Type} (m : Result X) (f : X → Result Y)
    : Result Y :=
  match m with
  | Ok x => f x
  | Raise e => Raise e
  end.

Notation "x ←R m ; k" := (Result_bind m (λ x, k))
  (at level 20, m at level 100, k at level 200, right associativity,
   format "x  ←R  m ;  '/' k").

(** A two-dimensional numpy array: its [shape] is [(rows, columns)], its
    [dtype] the type code of the pixels, its [data] the rows.  Pixel values
    are integers; casts between pixel types are not modelled. *)
Record ndarray := mkArray {
  shape : Z * Z;
  dtype : Z;
  data : list (list Z)
}.

#[global] Instance ndarray_eq_dec : EqDecision ndarray.
Proof. solve_decision. Defined.

(** [arr[r, c]] for an index inside the array. *)
Definition pixel (arr : ndarray) (r c : nat) : option Z :=
  row ← data arr !! r; row !! c.

(** The data of an array agree with its shape. *)
Definition ndarray_wf (arr : ndarray) : Prop :=
  0 ≤ (shape arr).1 ∧ 0 ≤ (shape arr).2 ∧
  length (data arr) = Z.to_nat (shape arr).1 ∧
  Forall (λ row, length row = Z.to_nat (shape arr).2) (data arr).

(** [numpy.zeros((ysize, xsize), dtype=dt)]; negative dimensions raise. *)
Definition numpy_zeros (ysize_ xsize_ : Z) (dt : Z) : Result ndarray :=
  if bool_decide (0 ≤ ysize_ ∧ 0 ≤ xsize_) then
    Ok (mkArray (ysize_, xsize_) dt
          (replicate (Z.to_nat ysize_) (replicate (Z.to_nat xsize_) 0)))
  else Raise NumpyValueError.

(** [arr.fill(v)], in place. *)
Definition ndarray_fill (arr : ndarray) (v : Z) : ndarray :=
  mkArray (shape arr) (dtype arr)
    ((λ row : list Z, (λ _ : Z, v) <$> row) <$> data arr).

(** One row of a slice assignment: columns [c0 .. c0 + length src) of
    [row] are replaced by [src]. *)
Definition paste_row (row : list Z) (c0 : nat) (src : list Z) : list Z :=
  take c0 row ++ src ++ drop (c0 + length src) row.

Definition paste_rows (rows : list (list Z)) (r0 c0 : nat)
    (src : list (list Z)) : list (list Z) :=
  take r0 rows ++
  zip_with (λ row srow, paste_row row c0 srow)
    (take (length src) (drop r0 rows)) src ++
  drop (r0 + length src) rows.

(** [outArr[r0:r1, c0:c1] = src] for a slice that lies inside [outArr]
    and has the shape of [src].  (For other slices numpy clips the slice
    and broadcasts or raises; [readFunc] never gets there, see
    [readFunc_pads_to_inblock_shape] below, and the model raises.) *)
Definition ndarray_set_slice (outArr : ndarray) (r0 r1 c0 c1 : Z)
    (src : ndarray) : Result ndarray :=
  if bool_decide (0 ≤ r0 ≤ r1 ∧ r1 ≤ (shape outArr).1 ∧
                  0 ≤ c0 ≤ c1 ∧ c1 ≤ (shape outArr).2 ∧
                  shape src = (r1 - r0, c1 - c0)) then
    Ok (mkArray (shape outArr) (dtype outArr)
          (paste_rows (data outArr) (Z.to_nat r0) (Z.to_nat c0) (data src)))
  else Raise NumpyValueError.

(** ** The input file list ([makeFilelist]) *)

(** The list file is read as text: a sequence of characters, here ASCII.
    [open(infilelist)] is in universal-newlines mode, iteration yields the
    lines with their terminator, and [str.strip()] removes the whitespace
    at both ends. *)
Definition LF : ascii := ascii_of_nat 10.
Definition CR : ascii := ascii_of_nat 13.

(** Universal newlines: ["\r\n"] and a lone ["\r"] are read as ["\n"]. *)
Fixpoint universal_newlines (text : list ascii) : list ascii :=
  match text with
  | [] => []
  | c :: text' =>
      if decide (c = CR) then
        LF :: match text' with
              | c' :: text'' =>
                  if decide (c' = LF) then universal_newlines text''
                  else universal_newlines text'
              | [] => []
              end
      else c :: universal_newlines text'
  end.

(** The lines of a text, each with its terminating newline if it has
    one, as iteration over a file object yields them. *)
Fixpoint readlines (text : list ascii) : list (list ascii) :=
  match text with
  | [] => []
  | c :: text' =>
      if decide (c = LF) then [c] :: readlines text'
      else match readlines text' with
           | [] => [[c]]
           | line :: lines => (c :: line) :: lines
           end
  end.

(** [str.isspace] on ASCII: tab, newline, vertical tab, form feed,
    carriage return, the separators 28 to 31, and space. *)
Definition isspace (c : ascii) : bool :=
  let n := nat_of_ascii c in
  ((9 <=? n) && (n <=? 13) || (28 <=? n) && (n <=? 32))%nat.

Fixpoint lstrip (s : list ascii) : list ascii :=
  match s with
  | [] => []
  | c :: s' => if isspace c then lstrip s' else s
  end.

Fixpoint rstrip (s : list ascii) : list ascii :=
  match s with
  | [] => []
  | c :: s' =>
      match rstrip s' with
      | [] => if isspace c then [] else [c]
      | r => c :: r
      end
  end.

(** [line.strip()]. *)
Definition strip (s : list ascii) : list ascii := rstrip (lstrip s).

(** [makeFilelist], on the characters of the list file. *)
Definition makeFilelist (content : list ascii) : list string :=
  (λ line, string_of_list_ascii (strip line))
    <$> readlines (universal_newlines content).

(** ** Planner: the tile list ([makeOutputBlockList]) *)

(** The inner [while left < ncols] loop.  The loop condition is tested
    before fuel is consumed, so a loop that has finished returns whatever
    fuel is left; [None] means the fuel ran out with the condition still
    true. *)
Fixpoint loop_left (fuel : nat) (ncols_ blocksize top_ ysize_ left_ : Z)
    (blockList : list BlockSpec) : option (list BlockSpec) :=
  if bool_decide (left_ < ncols_) then
    match fuel with
    | O => None
    | S fuel' =>
        let xsize_ := Z.min blocksize (ncols_ - left_) in
        let block := mkBlockSpec top_ left_ xsize_ ysize_ in
        loop_left fuel' ncols_ blocksize top_ ysize_ (left_ + xsize_)
          (blockList ++ [block])
    end
  else Some blockList.

(** The outer [while top < nrows] loop; every run of the inner loop gets
    the same fuel [inner]. *)
Fixpoint loop_top (inner fuel : nat) (nrows_ ncols_ blocksize top_ : Z)
    (blockList : list BlockSpec) : option (list BlockSpec) :=
  if bool_decide (top_ < nrows_) then
    match fuel with
    | O => None
    | S fuel' =>
        let ysize_ := Z.min blocksize (nrows_ - top_) in
        match loop_left inner ncols_ blocksize top_ ysize_ 0 blockList with
        | None => None
        | Some blockList' =>
            loop_top inner fuel' nrows_ ncols_ blocksize (top_ + ysize_)
              blockList'
        end
    end
  else Some blockList.

Definition makeOutputBlockList (fuel : nat) (outImgInfo : ImageInfo)
    (blocksize : Z) : option (list BlockSpec) :=
  loop_top fuel fuel (nrows outImgInfo) (ncols outImgInfo) blocksize 0 [].

(** ** Planner: per-tile inputs ([findInputsPerBlock]) *)

(** Modelled from the spec: [structures.BlockSpecWithInputs] is not among
    the source files.  Its fields are the ones [mosaic.py] reads
    ([outblock], [infilelist], [inblocklist]); [add(filename, inblock)]
    appends to the two lists, which is what the per-tile inputs of the
    planner and the tile-major reading list require. *)
Record BlockSpecWithInputs := mkBlockSpecWithInputs {
  bwi_outblock : BlockSpec;
  infilelist : list string;
  inblocklist : list BlockSpec
}.

Definition BlockSpecWithInputs_new (block : BlockSpec) : BlockSpecWithInputs :=
  mkBlockSpecWithInputs block [] [].

Definition BlockSpecWithInputs_add (b : BlockSpecWithInputs)
    (filename : string) (inblock : BlockSpec) : BlockSpecWithInputs :=
  mkBlockSpecWithInputs (bwi_outblock b) (infilelist b ++ [filename])
    (inblocklist b ++ [inblock]).

(** Modelled from the spec: [structures.BlockReadingSpec] is not among the
    source files.  [BlockReadingSpec(outblock, filename, inblock)] is a
    read unit: the output tile, the input file, and the tile's rectangle
    in the file's pixel coordinates. *)
Record BlockReadingSpec := mkBlockReadingSpec {
  outblock : BlockSpec;
  filename : string;
  inblock : BlockSpec
}.

(** A left fold whose step may raise: the first failure ends the loop. *)
Fixpoint foldlM {S X : Type} (f : S → X → option S) (s : S) (l : list X)
    : option S :=
  match l with
  | [] => Some s
  | x :: l' => s' ← f s x; foldlM f s' l'
  end.

(** The intersection test of [findInputsPerBlock], on the tile's rectangle
    in the file's pixel coordinates. *)
Definition intersects (fileLeft fileTop fileRight fileBottom : Z)
    (imginfo : ImageInfo) : bool :=
  bool_decide (fileRight + 1 >= 0) && bool_decide (fileBottom + 1 >= 0) &&
  bool_decide (fileLeft ≤ ncols imginfo) &&
  bool_decide (fileTop ≤ nrows imginfo).

(** [if block not in filesForBlock: filesForBlock[block] = []] followed by
    [filesForBlock[block].append(filename)]. *)
Definition filesForBlock_append (block : BlockSpec) (fn : string)
    (filesForBlock : gmap BlockSpec (list string))
    : gmap BlockSpec (list string) :=
  let filesForBlock' :=
    match filesForBlock !! block with
    | None => <[block := []]> filesForBlock
    | Some _ => filesForBlock
    end in
  alter (λ l, l ++ [fn]) block filesForBlock'.

Section FindInputs.
(** The output geotransform and [BlockSpec.transformToFilePixelCoords]
    (the projection of a tile into a file's pixel grid, in the
    [structures] module, which is not among the source files) are
    parameters of the planner.  The result is
    [(fileLeft, fileTop, fileRight, fileBottom)]; its differences become
    array sizes, so it is integral. *)
Context {GeoTransform : Type}.
Variable transformToFilePixelCoords :
  BlockSpec → GeoTransform → ImageInfo → Z * Z * Z * Z.

(** Body of [for filename in filelist]; [None] is the [KeyError] of
    [imgInfoDict[filename]]. *)
Definition findInputs_file (outGeoTransform : GeoTransform)
    (imgInfoDict : gmap string ImageInfo) (block : BlockSpec)
    (st : BlockSpecWithInputs * gmap BlockSpec (list string)) (fn : string)
    : option (BlockSpecWithInputs * gmap BlockSpec (list string)) :=
  let '(blockWithInputs, filesForBlock) := st in
  imginfo ← imgInfoDict !! fn;
  let '(fileLeft, fileTop, fileRight, fileBottom) :=
    transformToFilePixelCoords block outGeoTransform imginfo in
  if intersects fileLeft fileTop fileRight fileBottom imginfo then
    let xs := fileRight - fileLeft in
    let ys := fileBottom - fileTop in
    let inblock_ := mkBlockSpec fileTop fileLeft xs ys in
    Some (BlockSpecWithInputs_add blockWithInputs fn inblock_,
          filesForBlock_append block fn filesForBlock)
  else Some (blockWithInputs, filesForBlock).

(** Body of [for block in blockList]. *)
Definition findInputs_block (outGeoTransform : GeoTransform)
    (filelist : list string) (imgInfoDict : gmap string ImageInfo)
    (st : list BlockSpecWithInputs * gmap BlockSpec (list string))
    (block : BlockSpec)
    : option (list BlockSpecWithInputs * gmap BlockSpec (list string)) :=
  let '(blockListWithInputs, filesForBlock) := st in
  '(blockWithInputs, filesForBlock') ←
    foldlM (findInputs_file outGeoTransform imgInfoDict block)
      (BlockSpecWithInputs_new block, filesForBlock) filelist;
  if bool_decide (0 < length (infilelist blockWithInputs))%nat then
    Some (blockListWithInputs ++ [blockWithInputs], filesForBlock')
  else Some (blockListWithInputs, filesForBlock').

Definition findInputsPerBlock (blockList : list BlockSpec)
    (outGeoTransform : GeoTransform) (filelist : list string)
    (imgInfoDict : gmap string ImageInfo)
    : option (list BlockSpecWithInputs * gmap BlockSpec (list string)) :=
  foldlM (findInputs_block outGeoTransform filelist imgInfoDict)
    ([], ∅) blockList.

(** Whether the file [fn] passes the intersection test for [block]. *)
Definition fileIntersects (outGeoTransform : GeoTransform)
    (imgInfoDict : gmap string ImageInfo) (block : BlockSpec) (fn : string)
    : bool :=
  match imgInfoDict !! fn with
  | Some imginfo =>
      let '(fileLeft, fileTop, fileRight, fileBottom) :=
        transformToFilePixelCoords block outGeoTransform imginfo in
      intersects fileLeft fileTop fileRight fileBottom imginfo
  | None => false
  end.

End FindInputs.

(** [makeBlockReadingList]: one [BlockReadingSpec] per (tile, input),
    in tile-major order. *)
Definition makeBlockReadingList (blockListWithInputs : list BlockSpecWithInputs)
    : list BlockReadingSpec :=
  blockWithInputs ← blockListWithInputs;
  (λ p, mkBlockReadingSpec (bwi_outblock blockWithInputs) p.1 p.2)
    <$> zip (infilelist blockWithInputs) (inblocklist blockWithInputs).

(** ** Planner: partition of the reading list ([divideBlocksByThread]) *)

(** Python's extended slice [l[skip::step]] for [step >= 1]: drop [skip]
    items, keep one, drop [step - 1], keep one, and so on. *)
Fixpoint every_nth {A : Type} (skip step : nat) (l : list A) : list A :=
  match l with
  | [] => []
  | x :: l' =>
      match skip with
      | O => x :: every_nth (step - 1)%nat step l'
      | S skip' => every_nth skip' step l'
      end
  end.

(** [numthreads] is a natural number: [range(numthreads)] is empty for a
    negative one. *)
Definition divideBlocksByThread {A : Type} (blockReadingList : list A)
    (numthreads : nat) : list (list A) :=
  (λ i, every_nth i numthreads blockReadingList) <$> seq 0 numthreads.

(** ** Reader: clip, read and pad ([readFunc]) *)

(** An opened band of an input file, as the raster driver gives it:
    the raster's size and [band.ReadAsArray(xoff, yoff, xsize, ysize)]. *)
Record Dataset := mkDataset {
  RasterXSize : Z;
  RasterYSize : Z;
  ReadAsArray : Z → Z → Z → Z → Result ndarray
}.

(** The raster driver behind [gdalObjCache.openBand(filename, bandNum)]. *)
Definition RasterDriver := string → Z → Result Dataset.

(** What the engine requires of a read that succeeds: a well-formed array
    of the shape that was asked for. *)
Definition driver_reads_shape (drv : RasterDriver) : Prop :=
  ∀ fn bandNum ds xoff yoff xs ys arr,
    drv fn bandNum = Ok ds →
    ReadAsArray ds xoff yoff xs ys = Ok arr →
    ndarray_wf arr ∧ shape arr = (ys, xs).

(** The body of the read loop up to [blockQ.put]: the padded array that is
    enqueued with [blockInfo], or the exception that ends the worker.  The
    reader's handle cache and remaining-work counters only decide when a
    file is closed and are left out. *)
Definition readFunc_body (drv : RasterDriver) (bandNum outNullVal : Z)
    (blockInfo : BlockReadingSpec) : Result ndarray :=
  ds ←R drv (filename blockInfo) bandNum;
  let inblock_ := inblock blockInfo in
  let '(left_, top_, xsize_, ysize_) :=
    (left inblock_, top inblock_, xsize inblock_, ysize inblock_) in
  let left1 := Z.max left_ 0 in
  let top1 := Z.max top_ 0 in
  let right1 := Z.min (left_ + xsize_) (RasterXSize ds) in
  let xsize1 := right1 - left1 in
  let bottom1 := Z.min (top_ + ysize_) (RasterYSize ds) in
  let ysize1 := bottom1 - top1 in
  arr ←R ReadAsArray ds left1 top1 xsize1 ysize1;
  outArr ←R numpy_zeros ysize_ xsize_ (dtype arr);
  let outArr := ndarray_fill outArr outNullVal in
  let coloffset := Z.max 0 (- left_) in
  let rowoffset := Z.max 0 (- top_) in
  ndarray_set_slice outArr rowoffset (rowoffset + ysize1)
    coloffset (coloffset + xsize1) arr.

(** ** Writer: block cache and assembly ([getInputsForBlock]) *)

(** Modelled from the spec: [structures.BlockCache] is not among the source
    files.  It is the writer's mapping from [(filename, output tile)] to a
    pixel array with insert, membership, retrieval, remove and size;
    [mosaic.py] reads an entry as the pair [(blockSpec, arr)], so [add]
    stores the tile with the array. *)
Abbreviation BlockCache := (gmap (string * BlockSpec) (BlockSpec * ndarray)).

Definition makeKey (fn : string) (outblock_ : BlockSpec)
    : string * BlockSpec := (fn, outblock_).

Definition BlockCache_add (blockCache : BlockCache) (fn : string)
    (outblock_ : BlockSpec) (arr : ndarray) : BlockCache :=
  <[makeKey fn outblock_ := (outblock_, arr)]> blockCache.

Definition BlockCache_remove (blockCache : BlockCache) (fn : string)
    (outblock_ : BlockSpec) : BlockCache :=
  delete (makeKey fn outblock_) blockCache.

(** Every entry carries the tile it is filed under: true of the empty
    cache and kept by [add] and [remove]. *)
Definition BlockCache_wf (blockCache : BlockCache) : Prop :=
  ∀ fn b blockSpec arr,
    blockCache !! makeKey fn b = Some (blockSpec, arr) → blockSpec = b.

(** The [while i < numFiles and not missing] loop over the files that
    are still to be looked up; [shp] is the shape of the first array found
    and [allInputsForBlock] the arrays collected so far.  [Ok None] is the
    [None] returned when an input is missing. *)
Fixpoint getInputs_loop (blockCache : BlockCache) (outblock_ : BlockSpec)
    (filelist : list string) (files : list string) (shp : option (Z * Z))
    (allInputsForBlock : list ndarray) : Result (option (list ndarray)) :=
  match files with
  | [] => Ok (Some allInputsForBlock)
  | fn :: files' =>
      let k := makeKey fn outblock_ in
      match blockCache !! k with
      | Some (blockSpec, arr) =>
          let shp' := default (shape arr) shp in
          if decide (shape arr ≠ shp') then
            Raise (ValueError_BlockMismatch blockSpec (shape arr) shp' filelist)
          else
            getInputs_loop blockCache outblock_ filelist files' (Some shp')
              (allInputsForBlock ++ [arr])
      | None => Ok None
      end
  end.

Definition getInputsForBlock (blockCache : BlockCache)
    (outblock_ : BlockSpec) (filesForBlock : gmap BlockSpec (list string))
    : Result (option (list ndarray)) :=
  match filesForBlock !! outblock_ with
  | None => Raise KeyError
  | Some filelist =>
      getInputs_loop blockCache outblock_ filelist filelist None []
  end.

(** ** Writer: the merge kernel ([mergeInputs]) *)

(** [nonNull = (arr != outNullVal); outArr[nonNull] = arr[nonNull]]: a
    boolean mask of another shape than [outArr] raises [IndexError]. *)
Definition ndarray_overlay (outNullVal : Z) (outArr arr : ndarray)
    : Result ndarray :=
  if decide (shape arr = shape outArr) then
    Ok (mkArray (shape outArr) (dtype outArr)
          (zip_with (zip_with (λ o a, if decide (a ≠ outNullVal) then a else o))
             (data outArr) (data arr)))
  else Raise IndexError.

(** A left fold whose step may raise. *)
Fixpoint foldlR {S X : Type} (f : S → X → Result S) (s : S) (l : list X)
    : Result S :=
  match l with
  | [] => Ok s
  | x :: l' => s' ←R f s x; foldlR f s' l'
  end.

Definition mergeInputs (allInputsForBlock : list ndarray) (outNullVal : Z)
    : Result ndarray :=
  match allInputsForBlock with
  | [] => Raise IndexError
  | outArr :: rest => foldlR (ndarray_overlay outNullVal) outArr rest
  end.

(** ** The merge kernel on array objects *)

(** [mergeInputs] updates its first input in place and returns that same
    object.  Here arrays are objects of a store, named by their
    identities; a list may name one object more than once. *)
Abbreviation ArrayStore := (gmap nat ndarray).

(** [outArr[nonNull] = arr[nonNull]] on the objects [out] and [r]. *)
Definition overlay_inplace (outNullVal : Z) (out : nat) (store : ArrayStore)
    (r : nat) : Result ArrayStore :=
  match store !! out, store !! r with
  | Some outArr, Some arr =>
      res ←R ndarray_overlay outNullVal outArr arr;
      Ok (<[out := res]> store)
  | _, _ => Raise KeyError
  end.

(** The store after the call, with the identity of the returned array. *)
Definition mergeInputs_inplace (store : ArrayStore)
    (allInputsForBlock : list nat) (outNullVal : Z)
    : Result (nat * ArrayStore) :=
  match allInputsForBlock with
  | [] => Raise IndexError
  | out :: rest =>
      store' ←R foldlR (overlay_inplace outNullVal out) store rest;
      Ok (out, store')
  end.

(** ** Block queue, reader pool and writer loop *)

(** The block queue: the oldest item is at the head, [put] appends.  In
    Python's [queue.Queue(maxsize)] a [put] blocks exactly when
    [0 < maxsize <= qsize]; [doMosaic] creates the queue as
    [queue.Queue()], whose [maxsize] is 0. *)
Abbreviation Queue := (list (BlockReadingSpec * ndarray)).

Definition Queue_full (maxsize : Z) (blockQ : Queue) : Prop :=
  0 < maxsize ∧ maxsize ≤ Z.of_nat (length blockQ).

#[global] Instance Queue_full_dec maxsize blockQ :
  Decision (Queue_full maxsize blockQ).
Proof. unfold Queue_full. apply _. Defined.

Definition blockQ_maxsize : Z := 0.

(** A [futures.Future] of the pool: still running, or done with the
    exception it raised, if any. *)
Inductive Future :=
  | Running
  | Finished (exc : option PyExc).

(** [checkReaderExceptions]: the exception of the first worker that is
    done and raised. *)
Fixpoint checkReaderExceptions (workerList : list Future) : Result unit :=
  match workerList with
  | [] => Ok tt
  | worker :: workerList' =>
      match worker with
      | Finished (Some e) => Raise e
      | _ => checkReaderExceptions workerList'
      end
  end.

(** [allWorkersDone]. *)
Definition allWorkersDone (workerList : list Future) : bool :=
  forallb (λ worker, if worker is Finished _ then true else false) workerList.

(** One [band.WriteArray(outArr, xoff, yoff)] on the output file. *)
Record WriteCall := mkWriteCall {
  wc_array : ndarray;
  wc_xoff : Z;
  wc_yoff : Z
}.

(** The writer's variables: [i], the block cache, and the writes done so
    far on the output band. *)
Record WriterState := mkWriterState {
  w_i : nat;
  w_blockCache : BlockCache;
  w_written : list WriteCall
}.

(** A read worker: the blocks it has still to read, and its future. *)
Record Reader := mkReader {
  r_blocksToRead : list BlockReadingSpec;
  r_future : Future
}.

(** Where the writer stands: at the loop test, at the reader check that
    ends an iteration, or out of [writeFunc] (returned or raised). *)
Inductive WriterPhase :=
  | LoopTest
  | CheckReaders
  | Returned
  | Raised (e : PyExc).

Record System := mkSystem {
  sys_readers : list Reader;
  sys_blockQ : Queue;
  sys_writer : WriterState;
  sys_phase : WriterPhase
}.

Section Pipeline.
(** [GDALTypeCodeToNumericTypeCode] of the GDAL bindings, the raster
    driver, the band, the output grid and the plan. *)
Variable GDALTypeCodeToNumericTypeCode : Z → Z.
Variable drv : RasterDriver.
Variable bandNum : Z.
Variable outImgInfo : ImageInfo.
Variable blockList : list BlockSpec.
Variable filesForBlock : gmap BlockSpec (list string).
Variable maxsize : Z.

(** The all-null array written for a tile without inputs. *)
Definition nullBlock (outblock_ : BlockSpec) : ndarray :=
  mkArray (ysize outblock_, xsize outblock_)
    (GDALTypeCodeToNumericTypeCode (dataType outImgInfo))
    (replicate (Z.to_nat (ysize outblock_))
       (replicate (Z.to_nat (xsize outblock_)) (nullVal outImgInfo))).

(** The body of the [while i < numOutBlocks] loop up to the reader check:
    the queue and the writer's state after it, or the exception raised.
    The inputs of a tile are merged as values: the array that
    [mergeInputs] updates in place is written and then dropped from the
    cache with the tile's other inputs. *)
Definition writeFunc_body (blockQ : Queue) (st : WriterState)
    : Result (Queue * WriterState) :=
  let '(blockInfo, blockQ', blockCache) :=
    match blockQ with
    | (blockInfo, arr) :: blockQ' =>
        (Some blockInfo, blockQ',
         BlockCache_add (w_blockCache st) (filename blockInfo)
           (outblock blockInfo) arr)
    | [] => (None, [], w_blockCache st)
    end in
  match blockList !! w_i st with
  | None => Raise IndexError
  | Some outblock_ =>
      match filesForBlock !! outblock_ with
      | None =>
          let numpyDtype :=
            GDALTypeCodeToNumericTypeCode (dataType outImgInfo) in
          outArr ←R numpy_zeros (ysize outblock_) (xsize outblock_) numpyDtype;
          let outArr := ndarray_fill outArr (nullVal outImgInfo) in
          Ok (blockQ',
              mkWriterState (S (w_i st)) blockCache
                (w_written st ++
                 [mkWriteCall outArr (left outblock_) (top outblock_)]))
      | Some files =>
          if bool_decide (is_Some blockInfo ∨ (0 < size blockCache)%nat) then
            allInputBlocks ←R
              getInputsForBlock blockCache outblock_ filesForBlock;
            match allInputBlocks with
            | Some inputs =>
                outArr ←R mergeInputs inputs (nullVal outImgInfo);
                let blockCache' :=
                  foldl (λ c fn, BlockCache_remove c fn outblock_)
                    blockCache files in
                Ok (blockQ',
                    mkWriterState (S (w_i st)) blockCache'
                      (w_written st ++
                       [mkWriteCall outArr (left outblock_) (top outblock_)]))
            | None =>
                Ok (blockQ',
                    mkWriterState (w_i st) blockCache (w_written st))
            end
          else Ok (blockQ', mkWriterState (w_i st) blockCache (w_written st))
      end
  end.

(** One step of the writer: the loop test followed by the body, or the
    reader check that ends the iteration.  A writer that has returned or
    raised takes no step. *)
Definition writer_step (s : System) : option System :=
  match sys_phase s with
  | LoopTest =>
      if bool_decide (w_i (sys_writer s) < length blockList)%nat then
        match writeFunc_body (sys_blockQ s) (sys_writer s) with
        | Ok (blockQ', st') =>
            Some (mkSystem (sys_readers s) blockQ' st' CheckReaders)
        | Raise e =>
            Some (mkSystem (sys_readers s) (sys_blockQ s) (sys_writer s)
                    (Raised e))
        end
      else
        Some (mkSystem (sys_readers s) (sys_blockQ s) (sys_writer s) Returned)
  | CheckReaders =>
      match checkReaderExceptions (r_future <$> sys_readers s) with
      | Raise e =>
          Some (mkSystem (sys_readers s) (sys_blockQ s) (sys_writer s)
                  (Raised e))
      | Ok _ =>
          Some (mkSystem (sys_readers s) (sys_blockQ s) (sys_writer s)
                  LoopTest)
      end
  | Returned | Raised _ => None
  end.

(** One step of a read worker: it finishes when its list is empty, ends
    with the exception of a failed read, or puts the next padded block on
    the queue; [None] when the worker is done or its [put] is blocked. *)
Definition reader_step (outNullVal : Z) (rd : Reader) (blockQ : Queue)
    : option (Reader * Queue) :=
  match r_future rd with
  | Finished _ => None
  | Running =>
      match r_blocksToRead rd with
      | [] => Some (mkReader [] (Finished None), blockQ)
      | blockInfo :: rest =>
          match readFunc_body drv bandNum outNullVal blockInfo with
          | Raise e =>
              Some (mkReader (blockInfo :: rest) (Finished (Some e)), blockQ)
          | Ok outArr =>
              if decide (Queue_full maxsize blockQ) then None
              else Some (mkReader rest Running, blockQ ++ [(blockInfo, outArr)])
          end
      end
  end.

(** The interleavings of the read workers and the writer. *)
Inductive step : System → System → Prop :=
  | step_reader s k rd rd' blockQ' :
      sys_readers s !! k = Some rd →
      reader_step (nullVal outImgInfo) rd (sys_blockQ s) = Some (rd', blockQ') →
      step s (mkSystem (<[k := rd']> (sys_readers s)) blockQ'
                (sys_writer s) (sys_phase s))
  | step_writer s s' :
      writer_step s = Some s' → step s s'.

(** The state in which [doMosaic] starts a band: one running worker per
    partition, an empty queue, and the writer before its first test. *)
Definition initSystem (blocksPerThread : list (list BlockReadingSpec))
    : System :=
  mkSystem ((λ blocksToRead, mkReader blocksToRead Running)
              <$> blocksPerThread)
    [] (mkWriterState 0 ∅ []) LoopTest.

End Pipeline.

(** ** Running the pipeline under a schedule *)

Section Schedule.
Variable GDALTypeCodeToNumericTypeCode : Z → Z.
Variable drv : RasterDriver.
Variable bandNum : Z.
Variable outImgInfo : ImageInfo.
Variable blockList : list BlockSpec.
Variable filesForBlock : gmap BlockSpec (list string).
Variable maxsize : Z.

(** A schedule names who moves next: [Some k] is read worker [k], [None]
    the writer.  [exec] follows it as long as the named thread can move. *)
Fixpoint exec (schedule : list (option nat)) (s : System) : option System :=
  match schedule with
  | [] => Some s
  | Some k :: schedule' =>
      rd ← sys_readers s !! k;
      '(rd', blockQ') ←
        reader_step drv bandNum maxsize (nullVal outImgInfo) rd (sys_blockQ s);
      exec schedule'
        (mkSystem (<[k := rd']> (sys_readers s)) blockQ' (sys_writer s)
           (sys_phase s))
  | None :: schedule' =>
      s' ← writer_step GDALTypeCodeToNumericTypeCode outImgInfo blockList
             filesForBlock s;
      exec schedule' s'
  end.

End Schedule.

(** ** The catalogue ([makeImgInfoDict]) *)

(** [makeImgInfoDict]: [ImageInfo_of] is the constructor
    [structures.ImageInfo(filename)], which opens the file and may raise;
    a file name listed twice is opened twice and keeps its last entry.
    [numthreads] is not used. *)
Definition makeImgInfoDict (ImageInfo_of : string → Result ImageInfo)
    (filelist : list string) (numthreads : Z)
    : Result (gmap string ImageInfo) :=
  foldlR (λ (imgInfoDict : gmap string ImageInfo) filename,
            imginfo ←R ImageInfo_of filename;
            Ok (<[filename := imginfo]> imgInfoDict))
    ∅ filelist.

(** ** The output grid ([makeOutputGrid]) *)

Section OutputGrid.
(** The numbers of the georeferencing are floating-point numbers.  Their
    type and the operations [makeOutputGrid] applies to them are
    parameters: [fmin] and [fmax] are the steps of numpy's [min] and
    [max] reductions, and [round_int] is [int(round(x))], which raises
    for an infinity or a NaN ([None]). *)
Variable F : Type.
Variables fmin fmax fsub fdiv : F → F → F.
Variable fneg : F → F.
Variable fzero : F.
Variable round_int : F → option Z.

(** Modelled from the spec: [structures.ImageInfo] is not among the source
    files.  This is its integer part together with the georeferencing
    attributes that [makeOutputGrid] reads. *)
Record GeoImageInfo := mkGeoImageInfo {
  gi_info : ImageInfo;
  xMin : F;
  xMax : F;
  yMin : F;
  yMax : F;
  xRes : F;
  yRes : F;
  projection : string
}.

(** The attributes [makeOutputGrid] sets on the [ImageInfo] it returns. *)
Record OutputGrid := mkOutputGrid {
  og_info : ImageInfo;
  og_transform : F * F * F * F * F * F;
  og_projection : string
}.

(** The exceptions of [makeOutputGrid]: the [KeyError] of
    [imgInfoDict[fn]], the [IndexError] of [boundsArray[:, 0]] on an
    array without rows, and the error of [round] on an infinity or a
    NaN. *)
Inductive GridExc :=
  | GridKeyError (fn : string)
  | GridIndexError
  | GridRoundError.

(** [[imgInfoDict[fn] for fn in filelist]]. *)
Fixpoint infoList_of (imgInfoDict : gmap string GeoImageInfo)
    (filelist : list string) : GridExc + list GeoImageInfo :=
  match filelist with
  | [] => inr []
  | fn :: filelist' =>
      match imgInfoDict !! fn with
      | None => inl (GridKeyError fn)
      | Some i =>
          match infoList_of imgInfoDict filelist' with
          | inl e => inl e
          | inr infoList => inr (i :: infoList)
          end
      end
  end.

Definition makeOutputGrid (filelist : list string)
    (imgInfoDict : gmap string GeoImageInfo) (nullval : option Z)
    : GridExc + OutputGrid :=
  match infoList_of imgInfoDict filelist with
  | inl e => inl e
  | inr [] => inl GridIndexError
  | inr (firstImgInfo :: infoList) =>
      let xMin_ := foldl fmin (xMin firstImgInfo) (xMin <$> infoList) in
      let xMax_ := foldl fmax (xMax firstImgInfo) (xMax <$> infoList) in
      let yMin_ := foldl fmin (yMin firstImgInfo) (yMin <$> infoList) in
      let yMax_ := foldl fmax (yMax firstImgInfo) (yMax <$> infoList) in
      let '(xRes_, yRes_) := (xRes firstImgInfo, yRes firstImgInfo) in
      match round_int (fdiv (fsub xMax_ xMin_) xRes_) with
      | None => inl GridRoundError
      | Some ncols_ =>
          match round_int (fdiv (fsub yMax_ yMin_) yRes_) with
          | None => inl GridRoundError
          | Some nrows_ =>
              inr (mkOutputGrid
                     (mkImageInfo ncols_ nrows_
                        (numBands (gi_info firstImgInfo))
                        (dataType (gi_info firstImgInfo))
                        (default (nullVal (gi_info firstImgInfo)) nullval))
                     (xMin_, xRes_, fzero, yMax_, fzero, fneg yRes_)
                     (projection firstImgInfo))
          end
      end
  end.

End OutputGrid.

(** ** The analysis of [doMosaic] *)

Section Analysis.
Context {GeoTransform : Type}.
Variable transformToFilePixelCoords :
  BlockSpec → GeoTransform → ImageInfo → Z * Z * Z * Z.

(** The analysis step of [doMosaic]: the tile list, the inputs of every
    tile, the reading list and its partition over the read workers.
    [outGeoTransform] is [outImgInfo.transform]; [None] is the [KeyError]
    of the planner (or a tile loop that does not end). *)
Definition doMosaic_analysis (fuel : nat) (outImgInfo : ImageInfo)
    (outGeoTransform : GeoTransform) (filelist : list string)
    (imgInfoDict : gmap string ImageInfo) (blocksize : Z) (numthreads : nat)
    : option (list BlockSpec * gmap BlockSpec (list string) *
              list (list BlockReadingSpec)) :=
  blockList ← makeOutputBlockList fuel outImgInfo blocksize;
  '(blockListWithInputs, filesForBlock) ←
    findInputsPerBlock transformToFilePixelCoords blockList outGeoTransform
      filelist imgInfoDict;
  let blockReadingList := makeBlockReadingList blockListWithInputs in
  let blocksPerThread := divideBlocksByThread blockReadingList numthreads in
  Some (blockList, filesForBlock, blocksPerThread).

End Analysis.

(** ** The output file ([openOutfile]) *)

(** [defaultCreationOptions], a dictionary keyed by the driver name. *)
Definition defaultCreationOptions : gmap string (list string) :=
  {[ "GTiff"%string :=
       ["COMPRESS=DEFLATE"; "TILED=YES"; "BIGTIFF=IF_SAFER";
        "INTERLEAVE=BAND"]%string;
     "KEA"%string := [];
     "HFA"%string := ["COMPRESS=YES"; "IGNORE_UTM=TRUE"]%string ]}.

(** The two exceptions [openOutfile] raises itself: the [KeyError] of
    [defaultCreationOptions[driver]] and the [ValueError] with its
    message. *)
Inductive OutfileExc :=
  | DriverKeyError (driver : string)
  | DriverValueError (msg : string).

(** The calls [openOutfile] makes on the GDAL driver object. *)
Inductive DriverCall :=
  | Driver_Delete (outfile : string)
  | Driver_Create (outfile : string) (ncols_ nrows_ numBands_ datatype : Z)
      (creationoptions : list string).

(** [openOutfile]: [GetDriverByName] tells whether GDAL has the driver
    ([gdal.GetDriverByName] returns [None] otherwise) and [path_exists] is
    [os.path.exists].  The result is the exception raised, or the calls
    made on the driver, the last of which creates the dataset that is
    returned; failures of the driver's own calls are not modelled. *)
Definition openOutfile (GetDriverByName : string → bool)
    (path_exists : string → bool) (outfile driver : string)
    (outImgInfo : ImageInfo) (creationoptions : option (list string))
    : OutfileExc + list DriverCall :=
  let '(nrows_, ncols_) := (nrows outImgInfo, ncols outImgInfo) in
  let numBands_ := numBands outImgInfo in
  let datatype := dataType outImgInfo in
  match (match creationoptions with
         | None => defaultCreationOptions !! driver
         | Some creationoptions => Some creationoptions
         end) with
  | None => inl (DriverKeyError driver)
  | Some creationoptions =>
      if GetDriverByName driver then
        inr ((if path_exists outfile then [Driver_Delete outfile] else []) ++
             [Driver_Create outfile ncols_ nrows_ numBands_ datatype
                creationoptions])
      else
        inl (DriverValueError
               ("Driver " ++ driver ++
                " not supported in this version of GDAL")%string)
  end.

(** ** The timing script ([timingtests/runmoatiming.py]) *)

Definition bandList : list string := ["B02"; "B03"; "B04"; "B08"]%string.

(** [s.startswith(p)]. *)
Fixpoint startswith (s p : list ascii) {struct p} : bool :=
  match p, s with
  | [], _ => true
  | c :: p', c' :: s' => bool_decide (c' = c) && startswith s' p'
  | _ :: _, [] => false
  end.

(** [s.replace(old, new)] for a non-empty [old]: the occurrences of [old]
    are found from left to right and do not overlap; [skip] counts the
    characters of the occurrence just found that are still to be passed
    over. *)
Fixpoint replace_from (old new : list ascii) (skip : nat) (s : list ascii)
    : list ascii :=
  match s with
  | [] => []
  | c :: s' =>
      match skip with
      | S skip' => replace_from old new skip' s'
      | O =>
          if startswith s old then
            new ++ replace_from old new (length old - 1) s'
          else c :: replace_from old new 0 s'
      end
  end.

Definition str_replace (s old new : string) : string :=
  string_of_list_ascii
    (replace_from (list_ascii_of_string old) (list_ascii_of_string new) 0
       (list_ascii_of_string s)).

(** An entry of the STAC search results: [(tilename, path, nullPcnt)]. *)
Record Tile := mkTile {
  tilename : string;
  path : string;
  nullPcnt : Z
}.

Definition genFilelist (tileList : list Tile) (band : string) : list string :=
  (λ t,
     let vsiPath := str_replace (path t) "s3:/" "/vsis3" in
     (vsiPath ++ "/" ++ band ++ ".tif")%string) <$> tileList.

(** [sorted(tilesByDate.keys())]: the keys in the order of their
    characters' codes. *)
Definition sorted_keys (tilesByDate : gmap string (list Tile)) : list string :=
  merge_sort (λ a b, String.leb a b) (map_to_list tilesByDate).*1.

Definition genJoblist (tilesByDate : gmap string (list Tile))
    : list (list string) :=
  date ← sorted_keys tilesByDate;
  let tileList := default [] (tilesByDate !! date) in
  if decide (length tileList = 9%nat) then
    (λ band, genFilelist tileList band) <$> bandList
  else [].

(** Python's [a // b] on integers; [None] is [ZeroDivisionError]. *)
Definition floordiv (a b : Z) : option Z :=
  if decide (b = 0) then None else Some (a / b).

Section TimingMain.
(** [moamosaic.doMosaic] as [main] calls it, with the job's file list,
    the number of threads and the block size (its other arguments are
    constants of [main]); it returns the monitoring dictionary or
    raises. *)
Variables Monitor Exc : Type.
Variable doMosaic : list string → Z → Z → Exc + Monitor.

(** The [for infileList in mosaicJobList] loop: an exception in the body
    is caught and the job is skipped. *)
Fixpoint main_loop (runsPerThreadcount blocksize : Z)
    (mosaicJobList : list (list string)) (i : Z) (monitorList : list Monitor)
    : list Monitor :=
  match mosaicJobList with
  | [] => monitorList
  | infileList :: mosaicJobList' =>
      let monitorList' :=
        match floordiv i runsPerThreadcount with
        | None => monitorList
        | Some q =>
            let numthreads := q + 1 in
            match doMosaic infileList numthreads blocksize with
            | inr monitorDict => monitorList ++ [monitorDict]
            | inl _ => monitorList
            end
        end in
      main_loop runsPerThreadcount blocksize mosaicJobList' (i + 1)
        monitorList'
  end.

(** The monitoring list [main] writes for a job list; [None] is the
    [ZeroDivisionError] of [len(mosaicJobList) // maxnumthreads], which
    is outside the [try]. *)
Definition main (mosaicJobList : list (list string))
    (maxnumthreads blocksize : Z) : option (list Monitor) :=
  runsPerThreadcount ←
    floordiv (Z.of_nat (length mosaicJobList)) maxnumthreads;
  Some (main_loop runsPerThreadcount blocksize mosaicJobList 0 []).

End TimingMain.

(** * Part II: properties *)

(** ** Properties of the file list *)

Lemma readlines_concat (text : list ascii) : concat (readlines text) = text.
Proof.
  induction text as [|c text IH]; [done|]. simpl.
  destruct (decide (c = LF)); simpl; [by rewrite IH|].
  destruct (readlines text) as [|line lines]; simpl in *; by rewrite <- IH.
Qed.

(** A line is not empty, has no newline before its last character, and
    ends with a newline unless it is the last line. *)
Definition isLineOf (lines : list (list ascii)) (i : nat) (line : list ascii)
    : Prop :=
  line ≠ [] ∧ (LF ∉ removelast line) ∧
  ((S i < length lines)%nat → last line = Some LF).

Lemma readlines_lines (text : list ascii) (i : nat) (line : list ascii) :
  readlines text !! i = Some line → isLineOf (readlines text) i line.
Proof.
  unfold isLineOf. revert i line.
  induction text as [|c text IH]; intros i line; [done|]. simpl.
  destruct (decide (c = LF)) as [->|Hc].
  - destruct i as [|i]; simpl.
    + intros [= <-]. split_and!; [done|inversion 1|done].
    + intros Hline. destruct (IH i line Hline) as (H1 & H2 & H3).
      split_and!; [done|done|]. intros Hlt. apply H3. lia.
  - destruct (readlines text) as [|line0 lines] eqn:Hlines.
    + destruct i as [|i]; [|done]. intros [= <-]. simpl.
      split_and!; [done|inversion 1|lia].
    + destruct i as [|i]; simpl.
      * intros [= <-]. destruct (IH 0%nat line0 eq_refl) as (H1 & H2 & H3).
        split_and!; [done| |].
        -- destruct line0 as [|c0 line0]; [done|].
           change (removelast (c :: c0 :: line0))
             with (c :: removelast (c0 :: line0)).
           intros [?|?]%elem_of_cons; [by subst|done].
        -- intros Hlt. destruct line0 as [|c0 line0]; [done|].
           change (last (c :: c0 :: line0)) with (last (c0 :: line0)).
           apply H3. simpl in *. lia.
      * intros Hline. destruct (IH (S i) line Hline) as (H1 & H2 & H3).
        split_and!; [done|done|]. intros Hlt. apply H3. simpl in *. lia.
Qed.

Lemma lstrip_spec (s : list ascii) :
  ∃ ws, s = ws ++ lstrip s ∧ Forall isspace ws ∧
        ∀ c, head (lstrip s) = Some c → ¬ isspace c.
Proof.
  induction s as [|c s (ws & Hs & Hws & Hhead)]; simpl.
  - exists []. split_and!; [done|constructor|done].
  - destruct (isspace c) eqn:Hc.
    + exists (c :: ws). split_and!; [by rewrite Hs at 1| |done].
      constructor; [by rewrite Hc|done].
    + exists []. split_and!; [done|constructor|].
      simpl. intros c' [= <-]. rewrite Hc. by intros [].
Qed.

Lemma rstrip_spec (s : list ascii) :
  ∃ ws, s = rstrip s ++ ws ∧ Forall isspace ws ∧
        (∀ c, last (rstrip s) = Some c → ¬ isspace c) ∧
        (∀ c, head s = Some c → ¬ isspace c →
              head (rstrip s) = Some c).
Proof.
  induction s as [|c s (ws & Hs & Hws & Hlast & Hhead)]; simpl.
  - exists []. split_and!; [done|constructor|done|done].
  - destruct (rstrip s) as [|c' r] eqn:Hr.
    + destruct (isspace c) eqn:Hc.
      * exists (c :: ws). simpl in Hs. split_and!; [by rewrite Hs at 1| |done|].
        -- constructor; [by rewrite Hc|done].
        -- intros c0 [= <-] Hn. by rewrite Hc in Hn.
      * exists ws. simpl in Hs. split_and!; [by rewrite Hs at 1|done| |done].
        simpl. intros c0 [= <-]. rewrite Hc. by intros [].
    + exists ws. split_and!; [by rewrite Hs at 1|done|done|done].
Qed.

Lemma strip_spec (line : list ascii) :
  ∃ ws1 ws2,
    line = ws1 ++ strip line ++ ws2 ∧
    Forall isspace ws1 ∧ Forall isspace ws2 ∧
    (∀ c, head (strip line) = Some c → ¬ isspace c) ∧
    (∀ c, last (strip line) = Some c → ¬ isspace c).
Proof.
  destruct (lstrip_spec line) as (ws1 & H1 & Hws1 & Hhead).
  destruct (rstrip_spec (lstrip line)) as (ws2 & H2 & Hws2 & Hlast & Hkeep).
  exists ws1, ws2. unfold strip. split_and!; try done.
  - by rewrite <- H2.
  - intros c Hc. destruct (lstrip line) as [|c0 s] eqn:Hl; [done|].
    specialize (Hkeep c0 eq_refl (Hhead c0 eq_refl)).
    rewrite Hkeep in Hc. injection Hc as <-. by apply Hhead.
Qed.

Lemma strip_blank (line : list ascii) : Forall isspace line → strip line = [].
Proof.
  unfold strip. induction 1 as [|c line Hc _ IH]; [done|].
  simpl. by destruct (isspace c).
Qed.


(** ** Properties of the tile list *)

(** Pixel [(r, c)] (row, column) lies in the rectangle [b]. *)
Definition inBlock (b : BlockSpec) (r c : Z) : Prop :=
  top b ≤ r < top b + ysize b ∧ left b ≤ c < left b + xsize b.

#[global] Instance inBlock_dec b r c : Decision (inBlock b r c).
Proof. unfold inBlock. apply _. Defined.

(** The tile in row [i], column [j] of the [blocksize] grid, clipped to
    the raster. *)
Definition tileAt (nrows_ ncols_ blocksize i j : Z) : BlockSpec :=
  mkBlockSpec (i * blocksize) (j * blocksize)
    (Z.min blocksize (ncols_ - j * blocksize))
    (Z.min blocksize (nrows_ - i * blocksize)).

(** Number of tiles needed along an axis of [n] pixels. *)
Definition numTiles (n blocksize : Z) : Z := (n + blocksize - 1) / blocksize.

(** Row-major enumeration of the clipped tiles. *)
Definition rowMajorTiles (nrows_ ncols_ blocksize : Z) : list BlockSpec :=
  i ← seqZ 0 (numTiles nrows_ blocksize);
  (tileAt nrows_ ncols_ blocksize i <$> seqZ 0 (numTiles ncols_ blocksize)).

Section TileList.
Variables (nrows_ ncols_ blocksize : Z).
Hypothesis blocksize_pos : 0 < blocksize.

Lemma numTiles_le (n j : Z) : n ≤ j * blocksize → numTiles n blocksize ≤ j.
Proof.
  intros H. unfold numTiles.
  apply Z.lt_succ_r, Z.div_lt_upper_bound; lia.
Qed.

Lemma numTiles_gt (n j : Z) : j * blocksize < n → j < numTiles n blocksize.
Proof.
  intros H. unfold numTiles.
  enough (j + 1 ≤ (n + blocksize - 1) `div` blocksize) by lia.
  apply Z.div_le_lower_bound; lia.
Qed.

Lemma numTiles_bound (n : Z) : numTiles n blocksize ≤ Z.max n 0.
Proof.
  destruct (Z.le_gt_cases n 0) as [Hn|Hn].
  - pose proof (numTiles_le n 0). lia.
  - apply numTiles_le. nia.
Qed.

Lemma loop_left_done fuel top_ ysize_ left_ acc :
  ncols_ ≤ left_ →
  loop_left fuel ncols_ blocksize top_ ysize_ left_ acc = Some acc.
Proof.
  intros H. destruct fuel; simpl; rewrite bool_decide_eq_false_2; auto; lia.
Qed.

Lemma loop_left_closed fuel top_ ysize_ j acc :
  0 ≤ j →
  numTiles ncols_ blocksize - j ≤ Z.of_nat fuel →
  loop_left fuel ncols_ blocksize top_ ysize_ (j * blocksize) acc =
  Some (acc ++ ((λ j, mkBlockSpec top_ (j * blocksize)
                        (Z.min blocksize (ncols_ - j * blocksize)) ysize_)
                <$> seqZ j (numTiles ncols_ blocksize - j))).
Proof.
  revert j acc. induction fuel as [|fuel IH]; intros j acc Hj Hfuel.
  - destruct (decide (j * blocksize < ncols_)) as [Hlt|Hge].
    + apply numTiles_gt in Hlt. lia.
    + rewrite loop_left_done by lia.
      rewrite seqZ_nil; [by rewrite app_nil_r|].
      pose proof (numTiles_le ncols_ j). lia.
  - destruct (decide (j * blocksize < ncols_)) as [Hlt|Hge].
    + simpl. rewrite bool_decide_eq_true_2 by done.
      pose proof (numTiles_gt _ _ Hlt) as Hnt.
      rewrite (seqZ_cons j) by lia. rewrite fmap_cons.
      destruct (decide (blocksize ≤ ncols_ - j * blocksize)) as [Hfull|Hclip].
      * rewrite (Z.min_l blocksize) by done.
        replace (j * blocksize + blocksize) with ((j + 1) * blocksize) by lia.
        rewrite IH by lia.
        rewrite <- app_assoc. simpl. repeat f_equal; lia.
      * rewrite (Z.min_r blocksize) by lia.
        rewrite loop_left_done by lia.
        rewrite seqZ_nil; [done|].
        pose proof (numTiles_le ncols_ (j + 1)). lia.
    + rewrite loop_left_done by lia.
      rewrite seqZ_nil; [by rewrite app_nil_r|].
      pose proof (numTiles_le ncols_ j). lia.
Qed.

Lemma loop_top_done inner fuel top_ acc :
  nrows_ ≤ top_ →
  loop_top inner fuel nrows_ ncols_ blocksize top_ acc = Some acc.
Proof.
  intros H. destruct fuel; simpl; rewrite bool_decide_eq_false_2; auto; lia.
Qed.

Lemma loop_top_closed inner fuel i acc :
  0 ≤ i →
  numTiles ncols_ blocksize ≤ Z.of_nat inner →
  numTiles nrows_ blocksize - i ≤ Z.of_nat fuel →
  loop_top inner fuel nrows_ ncols_ blocksize (i * blocksize) acc =
  Some (acc ++
        (i ← seqZ i (numTiles nrows_ blocksize - i);
         (tileAt nrows_ ncols_ blocksize i
            <$> seqZ 0 (numTiles ncols_ blocksize)))).
Proof.
  intros Hi Hinner. revert i acc Hi.
  induction fuel as [|fuel IH]; intros i acc Hi Hfuel.
  - destruct (decide (i * blocksize < nrows_)) as [Hlt|Hge].
    + apply numTiles_gt in Hlt. lia.
    + rewrite loop_top_done by lia.
      rewrite (seqZ_nil i); [csimpl; by rewrite app_nil_r|].
      pose proof (numTiles_le nrows_ i). lia.
  - destruct (decide (i * blocksize < nrows_)) as [Hlt|Hge].
    + simpl. rewrite bool_decide_eq_true_2 by done.
      pose proof (numTiles_gt _ _ Hlt) as Hnt.
      pose proof (loop_left_closed inner (i * blocksize)
                    (Z.min blocksize (nrows_ - i * blocksize)) 0 acc) as Hrow.
      rewrite Z.mul_0_l, Z.sub_0_r in Hrow. rewrite Hrow by lia. clear Hrow.
      rewrite (seqZ_cons i) by lia. rewrite bind_cons, app_assoc.
      destruct (decide (blocksize ≤ nrows_ - i * blocksize)) as [Hfull|Hclip].
      * rewrite (Z.min_l blocksize (nrows_ - i * blocksize)) by done.
        replace (i * blocksize + blocksize) with ((i + 1) * blocksize) by lia.
        rewrite IH by lia.
        unfold tileAt at 2. rewrite (Z.min_l blocksize (nrows_ - i * blocksize)) by done.
        repeat f_equal; lia.
      * rewrite (Z.min_r blocksize (nrows_ - i * blocksize)) by lia.
        rewrite loop_top_done by lia.
        rewrite (seqZ_nil (Z.succ i)); [|pose proof (numTiles_le nrows_ (i + 1)); lia].
        unfold tileAt. rewrite (Z.min_r blocksize (nrows_ - i * blocksize)) by lia.
        csimpl. by rewrite !app_nil_r.
    + rewrite loop_top_done by lia.
      rewrite (seqZ_nil i); [csimpl; by rewrite app_nil_r|].
      pose proof (numTiles_le nrows_ i). lia.
Qed.

Lemma makeOutputBlockList_closed fuel nb dt nv :
  Z.max nrows_ ncols_ ≤ Z.of_nat fuel →
  makeOutputBlockList fuel (mkImageInfo ncols_ nrows_ nb dt nv) blocksize =
  Some (rowMajorTiles nrows_ ncols_ blocksize).
Proof.
  intros Hfuel. unfold makeOutputBlockList, rowMajorTiles. simpl.
  pose proof (numTiles_bound nrows_). pose proof (numTiles_bound ncols_).
  pose proof (loop_top_closed fuel fuel 0 []) as Hc.
  rewrite Z.mul_0_l, Z.sub_0_r in Hc. rewrite Hc by lia. done.
Qed.

Lemma elem_of_rowMajorTiles b :
  b ∈ rowMajorTiles nrows_ ncols_ blocksize ↔
  ∃ i j, 0 ≤ i < numTiles nrows_ blocksize ∧
         0 ≤ j < numTiles ncols_ blocksize ∧
         b = tileAt nrows_ ncols_ blocksize i j.
Proof.
  unfold rowMajorTiles. rewrite list_elem_of_bind. split.
  - intros (i & (j & -> & Hj)%list_elem_of_fmap & Hi).
    apply elem_of_seqZ in Hi, Hj. exists i, j. split_and!; auto; lia.
  - intros (i & j & Hi & Hj & ->). exists i. split.
    + apply list_elem_of_fmap. exists j. split; [done|].
      apply elem_of_seqZ. lia.
    + apply elem_of_seqZ. lia.
Qed.

Lemma div_unique_tile (i r : Z) :
  i * blocksize ≤ r < i * blocksize + blocksize → i = r `div` blocksize.
Proof.
  intros H. apply (Z.div_unique r blocksize i (r - i * blocksize)); lia.
Qed.

Lemma inBlock_tileAt i j r c :
  0 ≤ i → 0 ≤ j →
  inBlock (tileAt nrows_ ncols_ blocksize i j) r c ↔
  (0 ≤ r < nrows_ ∧ 0 ≤ c < ncols_) ∧
  i = r `div` blocksize ∧ j = c `div` blocksize.
Proof.
  intros Hi Hj. unfold inBlock, tileAt. simpl. split.
  - intros [Hr Hc]. split_and!; try nia; apply div_unique_tile; lia.
  - intros ([Hr Hc] & -> & ->).
    pose proof (Z.mul_div_le r blocksize blocksize_pos).
    pose proof (Z.mul_succ_div_gt r blocksize blocksize_pos).
    pose proof (Z.mul_div_le c blocksize blocksize_pos).
    pose proof (Z.mul_succ_div_gt c blocksize blocksize_pos).
    lia.
Qed.

Lemma tileAt_inj i j i' j' :
  tileAt nrows_ ncols_ blocksize i j = tileAt nrows_ ncols_ blocksize i' j' →
  i = i' ∧ j = j'.
Proof. unfold tileAt. intros [= H1 H2 _ _]. split; nia. Qed.

Lemma NoDup_rowMajorTiles : NoDup (rowMajorTiles nrows_ ncols_ blocksize).
Proof.
  unfold rowMajorTiles. apply NoDup_bind.
  - intros i i' b _ _ (j & -> & _)%list_elem_of_fmap
      (j' & Heq & _)%list_elem_of_fmap.
    by apply tileAt_inj in Heq as [? _].
  - intros i _. apply NoDup_fmap_2; [|apply NoDup_seqZ].
    intros j j' Heq. by apply tileAt_inj in Heq as [_ ?].
  - apply NoDup_seqZ.
Qed.

End TileList.

(** C9.  For a positive block size and enough fuel for the two loops,
    [makeOutputBlockList] returns the row-major list of [blocksize]-aligned
    tiles, the right and bottom ones clipped to the remaining columns and
    rows; a 100 x 100 grid with block size 64 gives exactly the four tiles
    64x64, 36x64, 64x36 and 36x36; and the tiles are pairwise disjoint
    (no tile is listed twice, and two tiles sharing a pixel are the same
    tile) and cover exactly the pixels of the grid. *)
Theorem makeOutputBlockList_row_major_partition
    (outImgInfo : ImageInfo) (blocksize : Z) (fuel : nat) :
  0 < blocksize →
  Z.max (nrows outImgInfo) (ncols outImgInfo) ≤ Z.of_nat fuel →
  ∃ blockList,
    makeOutputBlockList fuel outImgInfo blocksize = Some blockList ∧
    blockList =
      (i ← seqZ 0 (numTiles (nrows outImgInfo) blocksize);
       j ← seqZ 0 (numTiles (ncols outImgInfo) blocksize);
       [mkBlockSpec (i * blocksize) (j * blocksize)
          (Z.min blocksize (ncols outImgInfo - j * blocksize))
          (Z.min blocksize (nrows outImgInfo - i * blocksize))]) ∧
    (∀ nb dt nv,
       makeOutputBlockList 100 (mkImageInfo 100 100 nb dt nv) 64 =
       Some [mkBlockSpec 0 0 64 64; mkBlockSpec 0 64 36 64;
             mkBlockSpec 64 0 64 36; mkBlockSpec 64 64 36 36]) ∧
    NoDup blockList ∧
    (∀ b1 b2 r c,
       b1 ∈ blockList → b2 ∈ blockList →
       inBlock b1 r c → inBlock b2 r c → b1 = b2) ∧
    (∀ r c,
       (0 ≤ r < nrows outImgInfo ∧ 0 ≤ c < ncols outImgInfo) ↔
       ∃ b, b ∈ blockList ∧ inBlock b r c).
Proof.
  intros HB Hfuel. destruct outImgInfo as [nc nr nb dt nv]. simpl in *.
  exists (rowMajorTiles nr nc blocksize). split_and!.
  - by apply makeOutputBlockList_closed.
  - reflexivity.
  - intros nb' dt' nv'. reflexivity.
  - by apply NoDup_rowMajorTiles.
  - intros b1 b2 r c (i1 & j1 & Hi1 & Hj1 & ->)%elem_of_rowMajorTiles
      (i2 & j2 & Hi2 & Hj2 & ->)%elem_of_rowMajorTiles.
    rewrite !inBlock_tileAt by lia. intros (_ & -> & ->) (_ & -> & ->). done.
  - intros r c. split.
    + intros [Hr Hc].
      exists (tileAt nr nc blocksize (r `div` blocksize) (c `div` blocksize)).
      pose proof (Z.div_pos r blocksize). pose proof (Z.div_pos c blocksize).
      split; [|apply inBlock_tileAt; auto; lia].
      apply elem_of_rowMajorTiles.
      exists (r `div` blocksize), (c `div` blocksize).
      split_and!; try lia; try done.
      * apply numTiles_gt; [done|].
        pose proof (Z.mul_div_le r blocksize HB). lia.
      * apply numTiles_gt; [done|].
        pose proof (Z.mul_div_le c blocksize HB). lia.
    + intros (b & (i & j & Hi & Hj & ->)%elem_of_rowMajorTiles & Hin).
      apply inBlock_tileAt in Hin; [tauto|lia..].
Qed.

Lemma makeOutputBlockList_row_major_partition_witness :
  ∃ blockList,
    makeOutputBlockList 100 (mkImageInfo 100 100 1 1 0) 64 = Some blockList ∧
    length blockList = 4%nat ∧ NoDup blockList.
Proof.
  destruct (makeOutputBlockList_row_major_partition
              (mkImageInfo 100 100 1 1 0) 64 100)
    as (bl & Hrun & Hclosed & _ & Hnd & _); [lia | simpl; lia |].
  exists bl. split; [done|]. split; [|done]. subst bl. reflexivity.
Defined.

(** ** Properties of the per-tile inputs *)

Lemma filesForBlock_append_insert block fn
    (filesForBlock : gmap BlockSpec (list string)) :
  filesForBlock_append block fn filesForBlock =
  <[block := default [] (filesForBlock !! block) ++ [fn]]> filesForBlock.
Proof.
  unfold filesForBlock_append. apply map_eq. intros b.
  destruct (filesForBlock !! block) as [l|] eqn:Hl; simpl.
  - destruct (decide (b = block)) as [->|Hne].
    + by rewrite lookup_alter_eq, lookup_insert_eq, Hl.
    + by rewrite lookup_alter_ne, lookup_insert_ne.
  - destruct (decide (b = block)) as [->|Hne].
    + by rewrite lookup_alter_eq, !lookup_insert_eq.
    + by rewrite lookup_alter_ne, !lookup_insert_ne.
Qed.

Section FindInputsFacts.
Context {GeoTransform : Type}.
Variable transformToFilePixelCoords :
  BlockSpec → GeoTransform → ImageInfo → Z * Z * Z * Z.
Variable outGeoTransform : GeoTransform.
Variable filelist : list string.
Variable imgInfoDict : gmap string ImageInfo.
Hypothesis filelist_known : ∀ fn, fn ∈ filelist → is_Some (imgInfoDict !! fn).

(** The files of the list that pass the test for [block], in list order. *)
Definition inputsOf (files : list string) (block : BlockSpec) : list string :=
  filter (λ fn, fileIntersects transformToFilePixelCoords outGeoTransform
                  imgInfoDict block fn) files.

(** The rectangle of [block] in the pixel grid of file [fn]. *)
Definition fileInblock (block : BlockSpec) (fn : string) : BlockSpec :=
  match imgInfoDict !! fn with
  | Some imginfo =>
      let '(fileLeft, fileTop, fileRight, fileBottom) :=
        transformToFilePixelCoords block outGeoTransform imginfo in
      mkBlockSpec fileTop fileLeft (fileRight - fileLeft)
        (fileBottom - fileTop)
  | None => mkBlockSpec 0 0 0 0
  end.

Lemma findInputs_files_spec block (files : list string) bwi
    (ffb : gmap BlockSpec (list string)) :
  (∀ fn, fn ∈ files → is_Some (imgInfoDict !! fn)) →
  foldlM (findInputs_file transformToFilePixelCoords outGeoTransform
            imgInfoDict block) (bwi, ffb) files =
  Some (mkBlockSpecWithInputs (bwi_outblock bwi)
          (infilelist bwi ++ inputsOf files block)
          (inblocklist bwi ++ (fileInblock block <$> inputsOf files block)),
        if decide (inputsOf files block = []) then ffb
        else <[block := default [] (ffb !! block) ++ inputsOf files block]> ffb).
Proof.
  revert bwi ffb. induction files as [|fn files IH]; intros bwi ffb Hknown.
  - simpl. destruct bwi. simpl. by rewrite !app_nil_r.
  - destruct (Hknown fn) as [imginfo Hinfo]; [by left|].
    assert (∀ fn', fn' ∈ files → is_Some (imgInfoDict !! fn')) as Hknown'
      by (intros; apply Hknown; by right).
    unfold inputsOf. rewrite filter_cons. fold (inputsOf files block).
    simpl. rewrite Hinfo. simpl.
    assert (fileInblock block fn =
            let '(fileLeft, fileTop, fileRight, fileBottom) :=
              transformToFilePixelCoords block outGeoTransform imginfo in
            mkBlockSpec fileTop fileLeft (fileRight - fileLeft)
              (fileBottom - fileTop)) as Hfib
      by (unfold fileInblock; by rewrite Hinfo).
    unfold fileIntersects. rewrite Hinfo.
    destruct (transformToFilePixelCoords block outGeoTransform imginfo)
      as [[[fileLeft fileTop] fileRight] fileBottom].
    destruct (intersects fileLeft fileTop fileRight fileBottom imginfo) eqn:Hint.
    + rewrite !(decide_True (P:=Is_true true)) by done. simpl.
      rewrite IH by done. simpl.
      rewrite filesForBlock_append_insert, lookup_insert_eq. simpl.
      rewrite <- !app_assoc, Hfib. simpl. f_equal. f_equal.
      destruct (decide (inputsOf files block = [])) as [->|Hne].
      * done.
      * by rewrite insert_insert_eq.
    + rewrite !(decide_False (P:=Is_true false)) by (by intros []). simpl.
      by rewrite IH.
Qed.

(** How often [block] occurs in a list of tiles. *)
Definition occurrences (block : BlockSpec) (l : list BlockSpec) : nat :=
  length (filter (λ b, b = block) l).

(** The tiles with at least one input, each with its inputs. *)
Definition blocksWithInputs (blocks : list BlockSpec)
    : list BlockSpecWithInputs :=
  (λ b, mkBlockSpecWithInputs b (inputsOf filelist b)
          (fileInblock b <$> inputsOf filelist b))
    <$> filter (λ b, inputsOf filelist b ≠ []) blocks.

Lemma occurrences_cons b b0 l :
  occurrences b (b0 :: l) =
  ((if decide (b0 = b) then 1 else 0) + occurrences b l)%nat.
Proof.
  unfold occurrences. rewrite filter_cons. by destruct (decide (b0 = b)).
Qed.

Lemma occurrences_pos b l : (0 < occurrences b l)%nat ↔ b ∈ l.
Proof.
  induction l as [|b0 l IH].
  - split; [inversion 1|inversion 1].
  - rewrite occurrences_cons, elem_of_cons.
    destruct (decide (b0 = b)) as [->|Hne]; [split; [auto|lia]|].
    simpl. rewrite IH. split; [auto|]. by intros [->|?].
Qed.

Lemma occurrences_NoDup b l : NoDup l → b ∈ l → occurrences b l = 1%nat.
Proof.
  induction 1 as [|b0 l Hnotin Hnd IH]; [inversion 1|].
  rewrite occurrences_cons. intros [->|Hin]%elem_of_cons.
  - rewrite decide_True by done.
    destruct (decide (0 < occurrences b0 l)%nat) as [Hpos|]; [|lia].
    by apply occurrences_pos in Hpos.
  - rewrite decide_False by (intros ->; done). by rewrite IH.
Qed.

Lemma blocksWithInputs_cons b0 blocks :
  blocksWithInputs (b0 :: blocks) =
  if decide (inputsOf filelist b0 = []) then blocksWithInputs blocks
  else mkBlockSpecWithInputs b0 (inputsOf filelist b0)
         (fileInblock b0 <$> inputsOf filelist b0)
       :: blocksWithInputs blocks.
Proof.
  unfold blocksWithInputs. rewrite filter_cons.
  destruct (decide (inputsOf filelist b0 = [])) as [Hemp|Hne].
  - by rewrite decide_False by (intros H; by apply H).
  - by rewrite decide_True by done.
Qed.

Lemma findInputs_blocks_spec (blocks : list BlockSpec) blwi
    (ffb : gmap BlockSpec (list string)) :
  ∃ ffb' : gmap BlockSpec (list string),
    foldlM (findInputs_block transformToFilePixelCoords outGeoTransform
              filelist imgInfoDict) (blwi, ffb) blocks =
    Some (blwi ++ blocksWithInputs blocks, ffb') ∧
    ∀ b, ffb' !! b =
         if decide (occurrences b blocks = 0%nat ∨ inputsOf filelist b = [])
         then ffb !! b
         else Some (default [] (ffb !! b) ++
                    mjoin (replicate (occurrences b blocks)
                             (inputsOf filelist b))).
Proof.
  revert blwi ffb. induction blocks as [|b0 blocks IH]; intros blwi ffb.
  - exists ffb. simpl. split; [by rewrite app_nil_r|done].
  - simpl. rewrite findInputs_files_spec by done. simpl.
    rewrite blocksWithInputs_cons.
    destruct (decide (inputsOf filelist b0 = [])) as [Hemp|Hne].
    + rewrite Hemp. simpl.
      destruct (IH blwi ffb) as (ffb' & -> & Hffb').
      exists ffb'. split; [done|]. intros b. rewrite Hffb'.
      rewrite occurrences_cons.
      destruct (decide (b0 = b)) as [->|Hne]; [|done].
      rewrite !decide_True by (by right). done.
    + rewrite bool_decide_eq_true_2
        by (destruct (inputsOf filelist b0); simpl; [done|lia]).
      simpl.
      edestruct IH as (ffb' & -> & Hffb').
      exists ffb'. split; [by rewrite <- app_assoc|].
      intros b. rewrite Hffb'. rewrite occurrences_cons.
      destruct (decide (b0 = b)) as [->|Hneb].
      * rewrite lookup_insert_eq. simpl.
        rewrite (decide_False (P:=(S _ = 0)%nat ∨ _)) by (intros [?|?]; done).
        destruct (decide (occurrences b blocks = 0%nat ∨ _)) as [[H0|?]|Hn0];
          [|done|].
        -- rewrite H0. simpl. by rewrite app_nil_r.
        -- simpl. by rewrite <- app_assoc.
      * rewrite lookup_insert_ne by done. done.
Qed.

Lemma findInputsPerBlock_spec (blockList : list BlockSpec) :
  ∃ filesForBlock : gmap BlockSpec (list string),
    findInputsPerBlock transformToFilePixelCoords blockList outGeoTransform
      filelist imgInfoDict =
    Some (blocksWithInputs blockList, filesForBlock) ∧
    ∀ b, filesForBlock !! b =
         if decide (occurrences b blockList = 0%nat ∨ inputsOf filelist b = [])
         then None
         else Some (mjoin (replicate (occurrences b blockList)
                             (inputsOf filelist b))).
Proof.
  destruct (findInputs_blocks_spec blockList [] ∅) as (ffb & Hrun & Hffb).
  exists ffb. split; [done|]. intros b. rewrite Hffb, lookup_empty. done.
Qed.

Lemma elem_of_inputsOf fn block imginfo fileLeft fileTop fileRight fileBottom :
  imgInfoDict !! fn = Some imginfo →
  transformToFilePixelCoords block outGeoTransform imginfo =
    (fileLeft, fileTop, fileRight, fileBottom) →
  fn ∈ inputsOf filelist block ↔
  fn ∈ filelist ∧
  (fileRight + 1 >= 0 ∧ fileBottom + 1 >= 0 ∧
   fileLeft ≤ ncols imginfo ∧ fileTop ≤ nrows imginfo).
Proof.
  intros Hinfo Htr. unfold inputsOf. rewrite list_elem_of_filter.
  unfold fileIntersects. rewrite Hinfo, Htr. unfold intersects.
  rewrite !andb_True, !bool_decide_spec. tauto.
Qed.

End FindInputsFacts.

Lemma elem_of_mjoin_replicate {X : Type} (x : X) (n : nat) (l : list X) :
  x ∈ mjoin (replicate n l) ↔ (0 < n)%nat ∧ x ∈ l.
Proof.
  induction n as [|n IH]; simpl.
  - split; [inversion 1|lia].
  - rewrite elem_of_app, IH. split; [intros [?|[_ ?]]; split; auto; lia|tauto].
Qed.

(** C5.  When every listed file has an entry in the catalogue, the planner
    returns, and for every tile of the tile list and every file of the file
    list it records the file under the tile (in [filesForBlock] and in the
    tile's [BlockSpecWithInputs]) exactly when the tile's rectangle in the
    file's pixel coordinates satisfies [fileRight + 1 >= 0],
    [fileBottom + 1 >= 0], [fileLeft <= ncols] and [fileTop <= nrows]. *)
Theorem findInputsPerBlock_intersects_iff {GeoTransform : Type}
    (transformToFilePixelCoords :
       BlockSpec → GeoTransform → ImageInfo → Z * Z * Z * Z)
    (blockList : list BlockSpec) (outGeoTransform : GeoTransform)
    (filelist : list string) (imgInfoDict : gmap string ImageInfo) :
  (∀ fn, fn ∈ filelist → is_Some (imgInfoDict !! fn)) →
  ∃ blockListWithInputs filesForBlock,
    findInputsPerBlock transformToFilePixelCoords blockList outGeoTransform
      filelist imgInfoDict = Some (blockListWithInputs, filesForBlock) ∧
    ∀ block fn imginfo fileLeft fileTop fileRight fileBottom,
      block ∈ blockList → fn ∈ filelist →
      imgInfoDict !! fn = Some imginfo →
      transformToFilePixelCoords block outGeoTransform imginfo =
        (fileLeft, fileTop, fileRight, fileBottom) →
      (fn ∈ default [] (filesForBlock !! block) ↔
       fileRight + 1 >= 0 ∧ fileBottom + 1 >= 0 ∧
       fileLeft ≤ ncols imginfo ∧ fileTop ≤ nrows imginfo) ∧
      ((∃ blockWithInputs, blockWithInputs ∈ blockListWithInputs ∧
          bwi_outblock blockWithInputs = block ∧
          fn ∈ infilelist blockWithInputs) ↔
       fileRight + 1 >= 0 ∧ fileBottom + 1 >= 0 ∧
       fileLeft ≤ ncols imginfo ∧ fileTop ≤ nrows imginfo).
Proof.
  intros Hknown.
  destruct (findInputsPerBlock_spec transformToFilePixelCoords outGeoTransform
              filelist imgInfoDict Hknown blockList) as (ffb & Hrun & Hffb).
  eexists _, ffb. split; [exact Hrun|].
  intros block fn imginfo fl ft fr fb Hblock Hfn Hinfo Htr.
  pose proof (elem_of_inputsOf transformToFilePixelCoords outGeoTransform
                filelist imgInfoDict fn block imginfo fl ft fr fb Hinfo Htr)
    as Hin.
  assert (fn ∈ inputsOf transformToFilePixelCoords outGeoTransform
                 imgInfoDict filelist block ↔
          fr + 1 >= 0 ∧ fb + 1 >= 0 ∧ fl ≤ ncols imginfo ∧ ft ≤ nrows imginfo)
    as Hin' by tauto.
  clear Hin. rewrite <- Hin'.
  apply occurrences_pos in Hblock. split.
  - rewrite Hffb.
    destruct (decide (_ ∨ _)) as [[H0|Hemp]|Hn]; simpl.
    + lia.
    + rewrite Hemp. done.
    + rewrite elem_of_mjoin_replicate. tauto.
  - split.
    + intros (bwi & Hbwi & <- & Hfnin).
      unfold blocksWithInputs in Hbwi.
      apply list_elem_of_fmap in Hbwi as (b & -> & _). done.
    + intros Hfnin.
      exists (mkBlockSpecWithInputs block
                (inputsOf transformToFilePixelCoords outGeoTransform
                   imgInfoDict filelist block)
                (fileInblock transformToFilePixelCoords outGeoTransform
                   imgInfoDict block
                 <$> inputsOf transformToFilePixelCoords outGeoTransform
                       imgInfoDict filelist block)).
      split_and!; [|done|done].
      unfold blocksWithInputs. apply list_elem_of_fmap.
      exists block. split; [done|].
      apply list_elem_of_filter. split; [|by apply occurrences_pos].
      intros Hemp. rewrite Hemp in Hfnin. inversion Hfnin.
Qed.

(** ** Properties of the partition *)

Section Partition.
Context {A : Type}.
Local Open Scope nat_scope.

Lemma every_nth_lookup (l : list A) (skip step j : nat) :
  1 ≤ step → every_nth skip step l !! j = l !! (skip + j * step).
Proof.
  intros Hstep. revert skip j.
  induction l as [|x l IH]; intros skip j; [done|].
  destruct skip as [|skip]; simpl.
  - destruct j as [|j]; [done|]. simpl. rewrite IH.
    replace (step + j * step) with (S (step - 1 + j * step)) by lia. done.
  - apply IH.
Qed.

Lemma every_nth_cons_0 (x : A) (l : list A) (step : nat) :
  every_nth 0 step (x :: l) = x :: every_nth (step - 1) step l.
Proof. done. Qed.

Lemma divideBlocksByThread_concat (l : list A) (n : nat) :
  1 ≤ n → concat (divideBlocksByThread l n) ≡ₚ l.
Proof.
  intros Hn. unfold divideBlocksByThread.
  induction l as [|x l IH].
  - clear Hn. induction n as [|n IHn]; [done|].
    rewrite seq_S, fmap_app, concat_app. simpl.
    rewrite app_nil_r. apply IHn.
  - destruct n as [|n]; [lia|].
    change (seq 0 (S n)) with (0 :: seq 1 n). rewrite fmap_cons.
    rewrite <- fmap_S_seq, <- list_fmap_compose. simpl.
    rewrite Nat.sub_0_r.
    rewrite seq_S, fmap_app, concat_app in IH. simpl in IH.
    rewrite app_nil_r in IH.
    constructor. etrans; [|exact IH]. apply Permutation_app_comm.
Qed.

End Partition.

(** C6.  For [numthreads >= 1], [divideBlocksByThread] returns
    [numthreads] sublists; sublist [k] holds, in order, exactly the items
    at positions [k], [k + N], [k + 2N], ... of the reading list; every
    position of the reading list is the position [k + j * N] of exactly one
    pair (sublist [k], index [j]), and the sublists together are a
    rearrangement of the reading list. *)
Theorem divideBlocksByThread_stride {A : Type}
    (blockReadingList : list A) (numthreads : nat) :
  (1 ≤ numthreads)%nat →
  let blocksPerThread := divideBlocksByThread blockReadingList numthreads in
  length blocksPerThread = numthreads ∧
  (∀ k, (k < numthreads)%nat →
     ∃ sublist, blocksPerThread !! k = Some sublist ∧
       ∀ j, sublist !! j = blockReadingList !! (k + j * numthreads)%nat) ∧
  (∀ p, (p < length blockReadingList)%nat →
     ∃ k j, (k < numthreads)%nat ∧ (k + j * numthreads)%nat = p ∧
       ∀ k' j', (k' < numthreads)%nat → (k' + j' * numthreads)%nat = p →
                k' = k ∧ j' = j) ∧
  concat blocksPerThread ≡ₚ blockReadingList.
Proof.
  intros Hn. cbv zeta. split_and!.
  - unfold divideBlocksByThread. by rewrite length_fmap, length_seq.
  - intros k Hk. exists (every_nth k numthreads blockReadingList). split.
    + unfold divideBlocksByThread. rewrite list_lookup_fmap.
      by rewrite lookup_seq_lt.
    + intros j. by apply every_nth_lookup.
  - intros p _. exists (p mod numthreads)%nat, (p / numthreads)%nat.
    pose proof (Nat.mod_upper_bound p numthreads).
    pose proof (Nat.div_mod_eq p numthreads).
    split_and!; [lia|lia|].
    intros k' j' Hk' Hp. subst p.
    rewrite Nat.Div0.mod_add, Nat.div_add by lia.
    rewrite Nat.mod_small, Nat.div_small by lia. lia.
  - by apply divideBlocksByThread_concat.
Qed.

Lemma divideBlocksByThread_stride_witness :
  divideBlocksByThread [10; 11; 12; 13; 14; 15; 16] 3 =
    [[10; 13; 16]; [11; 14]; [12; 15]] ∧
  concat (divideBlocksByThread [10; 11; 12; 13; 14; 15; 16] 3)
    ≡ₚ [10; 11; 12; 13; 14; 15; 16].
Proof.
  split; [reflexivity|].
  apply (divideBlocksByThread_stride [10; 11; 12; 13; 14; 15; 16] 3%nat).
  lia.
Defined.

(** ** Properties of the array operations *)

Section ArrayFacts.
Local Open Scope nat_scope.

Lemma paste_row_length (row : list Z) c0 (src : list Z) :
  c0 + length src ≤ length row →
  length (paste_row row c0 src) = length row.
Proof.
  intros H. unfold paste_row.
  rewrite !length_app, length_take, length_drop. lia.
Qed.

Lemma paste_row_lookup (row : list Z) c0 (src : list Z) c :
  c0 + length src ≤ length row →
  paste_row row c0 src !! c =
  if decide (c0 ≤ c < c0 + length src) then src !! (c - c0) else row !! c.
Proof.
  intros H. unfold paste_row.
  destruct (decide (c < c0)) as [Hlt|Hge].
  - rewrite decide_False by lia.
    rewrite lookup_app_l by (rewrite length_take; lia).
    by rewrite lookup_take_lt.
  - rewrite lookup_app_r by (rewrite length_take; lia).
    rewrite length_take_le by lia.
    destruct (decide (c < c0 + length src)) as [Hin|Hout].
    + rewrite decide_True by lia. by rewrite lookup_app_l by lia.
    + rewrite decide_False by lia. rewrite lookup_app_r by lia.
      rewrite lookup_drop. f_equal. lia.
Qed.

Lemma paste_rows_length (rows : list (list Z)) r0 c0 (src : list (list Z)) :
  r0 + length src ≤ length rows →
  length (paste_rows rows r0 c0 src) = length rows.
Proof.
  intros H. unfold paste_rows.
  rewrite !length_app, length_zip_with, !length_take, !length_drop. lia.
Qed.

Lemma paste_rows_lookup (rows : list (list Z)) r0 c0 (src : list (list Z)) r :
  r0 + length src ≤ length rows →
  paste_rows rows r0 c0 src !! r =
  if decide (r0 ≤ r < r0 + length src) then
    row ← rows !! r; srow ← src !! (r - r0); Some (paste_row row c0 srow)
  else rows !! r.
Proof.
  intros H. unfold paste_rows.
  destruct (decide (r < r0)) as [Hlt|Hge].
  - rewrite decide_False by lia.
    rewrite lookup_app_l by (rewrite length_take; lia).
    by rewrite lookup_take_lt.
  - rewrite lookup_app_r by (rewrite length_take; lia).
    rewrite length_take_le by lia.
    assert (length (zip_with (λ row srow, paste_row row c0 srow)
                      (take (length src) (drop r0 rows)) src) = length src)
      as Hlen by (rewrite length_zip_with, length_take, length_drop; lia).
    destruct (decide (r < r0 + length src)) as [Hin|Hout].
    + rewrite decide_True by lia. rewrite lookup_app_l by lia.
      rewrite lookup_zip_with, lookup_take_lt by lia.
      rewrite lookup_drop. replace (r0 + (r - r0)) with r by lia. done.
    + rewrite decide_False by lia. rewrite lookup_app_r by lia.
      rewrite lookup_drop, Hlen. f_equal. lia.
Qed.

Lemma ndarray_fill_wf (arr : ndarray) v :
  ndarray_wf arr → ndarray_wf (ndarray_fill arr v).
Proof.
  intros (H1 & H2 & H3 & H4). unfold ndarray_wf. simpl.
  split_and!; [done|done|by rewrite length_fmap|].
  apply Forall_fmap. eapply Forall_impl; [exact H4|].
  intros row Hrow. simpl. by rewrite length_fmap.
Qed.

Lemma ndarray_fill_pixel (arr : ndarray) v r c :
  ndarray_wf arr →
  r < Z.to_nat (shape arr).1 → c < Z.to_nat (shape arr).2 →
  pixel (ndarray_fill arr v) r c = Some v.
Proof.
  intros (H1 & H2 & H3 & H4) Hr Hc. unfold pixel. simpl.
  rewrite list_lookup_fmap.
  destruct (lookup_lt_is_Some_2 (data arr) r) as [row Hrow]; [lia|].
  rewrite Hrow. simpl. rewrite list_lookup_fmap.
  rewrite Forall_lookup in H4. specialize (H4 _ _ Hrow).
  destruct (lookup_lt_is_Some_2 row c) as [x Hx]; [lia|].
  by rewrite Hx.
Qed.

Lemma numpy_zeros_wf ys xs dt arr :
  numpy_zeros ys xs dt = Ok arr →
  ndarray_wf arr ∧ shape arr = (ys, xs) ∧ dtype arr = dt.
Proof.
  unfold numpy_zeros. case_bool_decide as Hdims; [|done].
  intros [= <-]. unfold ndarray_wf. simpl.
  split_and!; try done; try lia.
  - by rewrite length_replicate.
  - apply Forall_replicate. by rewrite length_replicate.
Qed.

End ArrayFacts.

Lemma ndarray_set_slice_spec (outArr : ndarray) (r0 r1 c0 c1 : Z)
    (src res : ndarray) :
  ndarray_wf outArr → ndarray_wf src →
  ndarray_set_slice outArr r0 r1 c0 c1 src = Ok res →
  ndarray_wf res ∧ shape res = shape outArr ∧ dtype res = dtype outArr ∧
  ∀ r c : Z,
    0 ≤ r < (shape outArr).1 → 0 ≤ c < (shape outArr).2 →
    pixel res (Z.to_nat r) (Z.to_nat c) =
    if decide (r0 ≤ r < r1 ∧ c0 ≤ c < c1)
    then pixel src (Z.to_nat (r - r0)) (Z.to_nat (c - c0))
    else pixel outArr (Z.to_nat r) (Z.to_nat c).
Proof.
  intros (Ho1 & Ho2 & Ho3 & Ho4) (Hs1 & Hs2 & Hs3 & Hs4).
  unfold ndarray_set_slice. case_bool_decide as Hb; [|done].
  destruct Hb as (Hr0 & Hr1 & Hc0 & Hc1 & Hshape). intros [= <-].
  rewrite Hshape in Hs3, Hs4. simpl in Hs3, Hs4.
  assert (Z.to_nat r0 + length (data src) ≤ length (data outArr))%nat
    as Hrows by lia.
  split_and!; try done.
  - unfold ndarray_wf. simpl. split_and!; try done.
    + by rewrite paste_rows_length.
    + apply Forall_lookup. intros i row. rewrite paste_rows_lookup by done.
      rewrite Forall_lookup in Ho4. rewrite Forall_lookup in Hs4.
      case_decide as Hi; [|by apply Ho4].
      destruct (data outArr !! i) as [orow|] eqn:Horow; [|done]. simpl.
      destruct (data src !! (i - Z.to_nat r0)%nat) as [srow|] eqn:Hsrow;
        [|done].
      simpl. intros [= <-]. specialize (Ho4 _ _ Horow).
      specialize (Hs4 _ _ Hsrow). rewrite paste_row_length; lia.
  - intros r c Hr Hc. unfold pixel at 1. simpl.
    rewrite paste_rows_lookup by done.
    rewrite Forall_lookup in Ho4. rewrite Forall_lookup in Hs4.
    destruct (lookup_lt_is_Some_2 (data outArr) (Z.to_nat r)) as [orow Horow];
      [lia|].
    specialize (Ho4 _ _ Horow).
    destruct (decide (r0 ≤ r < r1)) as [Hin|Hout].
    + rewrite decide_True by lia. rewrite Horow. simpl.
      destruct (lookup_lt_is_Some_2 (data src) (Z.to_nat r - Z.to_nat r0))
        as [srow Hsrow]; [lia|].
      rewrite Hsrow. simpl. specialize (Hs4 _ _ Hsrow).
      rewrite paste_row_lookup by lia.
      destruct (decide (c0 ≤ c < c1)) as [Hcin|Hcout].
      * rewrite decide_True by lia. rewrite decide_True by done.
        unfold pixel. rewrite !Z2Nat.inj_sub by lia. by rewrite Hsrow.
      * rewrite decide_False by lia. rewrite decide_False by tauto.
        unfold pixel. by rewrite Horow.
    + rewrite decide_False by lia. rewrite decide_False by tauto.
      unfold pixel. by rewrite Horow.
Qed.

Lemma readFunc_body_shape drv bandNum outNullVal blockInfo outArr :
  readFunc_body drv bandNum outNullVal blockInfo = Ok outArr →
  shape outArr = (ysize (inblock blockInfo), xsize (inblock blockInfo)).
Proof.
  unfold readFunc_body.
  destruct (drv (filename blockInfo) bandNum) as [ds|]; [simpl|done].
  destruct (ReadAsArray ds _ _ _ _) as [arr|]; [simpl|done].
  destruct (numpy_zeros _ _ _) as [zeros|] eqn:Hz; [simpl|done].
  apply numpy_zeros_wf in Hz as (_ & Hshape & _).
  unfold ndarray_set_slice. case_bool_decide; [|done]. by intros [= <-].
Qed.

(** A raster held in memory, served as the driver serves a file: a read
    window must be non-empty and lie inside the raster. *)
Definition memoryDataset (img : ndarray) : Dataset :=
  mkDataset (shape img).2 (shape img).1
    (λ xoff yoff xs ys,
       if bool_decide (0 ≤ xoff ∧ 0 ≤ yoff ∧ 0 < xs ∧ 0 < ys ∧
                       xoff + xs ≤ (shape img).2 ∧ yoff + ys ≤ (shape img).1)
       then Ok (mkArray (ys, xs) (dtype img)
                  ((λ row : list Z, take (Z.to_nat xs) (drop (Z.to_nat xoff) row))
                   <$> take (Z.to_nat ys) (drop (Z.to_nat yoff) (data img))))
       else Raise (RasterError 5)).

Definition memoryDriver (files : gmap string ndarray) : RasterDriver :=
  λ fn bandNum,
    match files !! fn with
    | Some img => Ok (memoryDataset img)
    | None => Raise (RasterError 4)
    end.

Lemma memoryDriver_reads_shape (files : gmap string ndarray) :
  (∀ fn img, files !! fn = Some img → ndarray_wf img) →
  driver_reads_shape (memoryDriver files).
Proof.
  intros Hwf fn bandNum ds xoff yoff xs ys arr. unfold memoryDriver.
  destruct (files !! fn) as [img|] eqn:Himg; [|done]. intros [= <-]. simpl.
  case_bool_decide as Hwin; [|done]. intros [= <-].
  destruct (Hwf _ _ Himg) as (H1 & H2 & H3 & H4).
  split; [|done]. unfold ndarray_wf. simpl. split_and!; try lia.
  - rewrite length_fmap, length_take, length_drop. lia.
  - apply Forall_fmap, Forall_take, Forall_drop.
    eapply Forall_impl; [exact H4|]. intros row Hrow. simpl in *.
    rewrite length_take, length_drop. lia.
Qed.


(** ** Properties of the assembly *)

(** The cache holds [arr] for file [fn] under tile [outblock_]. *)
Definition cachedAs (blockCache : BlockCache) (outblock_ : BlockSpec)
    (fn : string) (arr : ndarray) : Prop :=
  ∃ blockSpec, blockCache !! makeKey fn outblock_ = Some (blockSpec, arr).

Lemma BlockCache_wf_empty : BlockCache_wf ∅.
Proof. intros fn b bs arr. by rewrite lookup_empty. Qed.

Lemma BlockCache_wf_add blockCache fn b arr :
  BlockCache_wf blockCache → BlockCache_wf (BlockCache_add blockCache fn b arr).
Proof.
  intros Hwf fn' b' bs arr'. unfold BlockCache_add, makeKey.
  destruct (decide ((fn, b) = (fn', b'))) as [[= -> ->]|Hne].
  - rewrite lookup_insert_eq. by intros [= <- _].
  - rewrite lookup_insert_ne by done. apply Hwf.
Qed.

Lemma BlockCache_wf_remove blockCache fn b :
  BlockCache_wf blockCache → BlockCache_wf (BlockCache_remove blockCache fn b).
Proof.
  intros Hwf fn' b' bs arr'. unfold BlockCache_remove.
  intros [_ H]%lookup_delete_Some. by apply Hwf in H.
Qed.

Lemma getInputs_loop_prefix blockCache outblock_ filelist pre rest s acc arrs :
  Forall2 (cachedAs blockCache outblock_) pre arrs →
  Forall (λ a, shape a = s) arrs →
  getInputs_loop blockCache outblock_ filelist (pre ++ rest) (Some s) acc =
  getInputs_loop blockCache outblock_ filelist rest (Some s) (acc ++ arrs).
Proof.
  intros Hpre. revert acc.
  induction Hpre as [|fn a pre arrs [bs Hfn] Hpre IH]; intros acc Hshape.
  - by rewrite app_nil_r.
  - apply Forall_cons in Hshape as [Ha Hshape]. simpl. rewrite Hfn. simpl.
    rewrite decide_False by (intros H; by apply H).
    rewrite IH by done. by rewrite <- app_assoc.
Qed.

Lemma getInputs_loop_start blockCache outblock_ filelist pre rest arrs :
  Forall2 (cachedAs blockCache outblock_) pre arrs →
  (∀ a1 a2, a1 ∈ arrs → a2 ∈ arrs → shape a1 = shape a2) →
  getInputs_loop blockCache outblock_ filelist (pre ++ rest) None [] =
  getInputs_loop blockCache outblock_ filelist rest
    (shape <$> head arrs) arrs.
Proof.
  intros Hpre Hshape.
  destruct Hpre as [|fn a pre arrs [bs Hfn] Hpre]; [done|].
  simpl. rewrite Hfn. simpl. rewrite decide_False by (intros H; by apply H).
  rewrite (getInputs_loop_prefix _ _ _ pre rest (shape a) [a] arrs); [done..|].
  apply Forall_forall. intros a' Ha'. apply Hshape; [by right|by left].
Qed.

(** C8 (as the code has it).  [getInputsForBlock] scans the tile's files in
    [filesForBlock] order and stops at the first event.  Let [pre] be files
    at the head of the list that are all cached, with arrays [arrs] of one
    shape.  If [pre] is the whole list, the arrays are returned in that
    order.  If the next file is missing from the cache, [None] is returned.
    If the next file is cached with an array whose shape differs from the
    first array's, a [ValueError] is raised that carries the entry's tile
    (the output tile itself for a cache filled by [add]), the two shapes
    and the file list. *)
Theorem getInputsForBlock_first_event (blockCache : BlockCache)
    (outblock_ : BlockSpec) (filesForBlock : gmap BlockSpec (list string))
    (filelist pre : list string) (arrs : list ndarray) :
  filesForBlock !! outblock_ = Some filelist →
  Forall2 (cachedAs blockCache outblock_) pre arrs →
  (∀ a1 a2, a1 ∈ arrs → a2 ∈ arrs → shape a1 = shape a2) →
  (filelist = pre →
   getInputsForBlock blockCache outblock_ filesForBlock = Ok (Some arrs)) ∧
  (∀ fn rest,
     filelist = pre ++ fn :: rest →
     blockCache !! makeKey fn outblock_ = None →
     getInputsForBlock blockCache outblock_ filesForBlock = Ok None) ∧
  (∀ fn rest blockSpec arr a0,
     filelist = pre ++ fn :: rest →
     blockCache !! makeKey fn outblock_ = Some (blockSpec, arr) →
     head arrs = Some a0 →
     shape arr ≠ shape a0 →
     getInputsForBlock blockCache outblock_ filesForBlock =
       Raise (ValueError_BlockMismatch blockSpec (shape arr) (shape a0)
                filelist) ∧
     (BlockCache_wf blockCache → blockSpec = outblock_)).
Proof.
  intros Hffb Hpre Hshape. unfold getInputsForBlock. rewrite Hffb.
  split_and!.
  - intros ->. rewrite <- (app_nil_r pre).
    by rewrite (getInputs_loop_start _ _ _ _ _ arrs).
  - intros fn rest -> Hmiss.
    rewrite (getInputs_loop_start _ _ _ _ _ arrs) by done.
    simpl. by rewrite Hmiss.
  - intros fn rest bs arr a0 -> Hfn Hhead Hneq.
    rewrite (getInputs_loop_start _ _ _ _ _ arrs) by done.
    simpl. rewrite Hfn, Hhead. simpl. rewrite decide_True by done.
    split; [done|]. intros Hwf. by apply Hwf in Hfn.
Qed.

(** Example data: a tile, small arrays and caches. *)
Definition exTile : BlockSpec := mkBlockSpec 0 0 2 2.
Definition exArr22 (v : Z) : ndarray := mkArray (2, 2) 1 [[v; v]; [v; v]].
Definition exArr23 (v : Z) : ndarray :=
  mkArray (2, 3) 1 [[v; v; v]; [v; v; v]].
Definition exFilesForBlock : gmap BlockSpec (list string) :=
  {[ exTile := ["a.tif"; "b.tif"; "c.tif"]%string ]}.
Definition exCacheAC : BlockCache :=
  BlockCache_add (BlockCache_add ∅ "a.tif" exTile (exArr22 7))
    "c.tif" exTile (exArr23 9).
Definition exCacheABC : BlockCache :=
  BlockCache_add exCacheAC "b.tif" exTile (exArr22 8).

(** The cache holds arrays of two shapes for the tile while an earlier
    input is missing: the result is [None], not an error. *)
Lemma getInputsForBlock_mismatch_counterexample :
  cachedAs exCacheAC exTile "a.tif" (exArr22 7) ∧
  cachedAs exCacheAC exTile "c.tif" (exArr23 9) ∧
  shape (exArr22 7) ≠ shape (exArr23 9) ∧
  getInputsForBlock exCacheAC exTile exFilesForBlock = Ok None.
Proof.
  split_and!.
  - by exists exTile.
  - by exists exTile.
  - done.
  - reflexivity.
Qed.

Lemma getInputsForBlock_first_event_witness :
  getInputsForBlock exCacheABC exTile exFilesForBlock =
    Raise (ValueError_BlockMismatch exTile (2, 3) (2, 2)
             ["a.tif"; "b.tif"; "c.tif"]%string).
Proof.
  pose proof (getInputsForBlock_first_event exCacheABC exTile exFilesForBlock
                ["a.tif"; "b.tif"; "c.tif"]%string ["a.tif"; "b.tif"]%string
                [exArr22 7; exArr22 8]) as H.
  destruct H as (_ & _ & H).
  - reflexivity.
  - repeat constructor; by exists exTile.
  - intros a1 a2 Ha1 Ha2.
    apply elem_of_cons in Ha1 as [->|Ha1%list_elem_of_singleton];
    apply elem_of_cons in Ha2 as [->|Ha2%list_elem_of_singleton];
    by subst.
  - destruct (H "c.tif"%string [] exTile (exArr23 9) (exArr22 7))
      as [Hres _]; done.
Defined.

(** ** Properties of the merge kernel *)

Lemma pixel_in_range (arr : ndarray) (r c : nat) :
  ndarray_wf arr →
  (r < Z.to_nat (shape arr).1)%nat → (c < Z.to_nat (shape arr).2)%nat →
  ∃ v, pixel arr r c = Some v.
Proof.
  intros (_ & _ & Hrows & Hcols) Hr Hc. unfold pixel.
  destruct (lookup_lt_is_Some_2 (data arr) r) as [row Hrow]; [lia|].
  rewrite Hrow. simpl. rewrite Forall_lookup in Hcols.
  specialize (Hcols _ _ Hrow). simpl in Hcols.
  destruct (lookup_lt_is_Some_2 row c) as [v Hv]; [lia|]. by exists v.
Qed.

Lemma ndarray_overlay_spec (outNullVal : Z) (outArr arr : ndarray) :
  ndarray_wf outArr → ndarray_wf arr → shape arr = shape outArr →
  ∃ res,
    ndarray_overlay outNullVal outArr arr = Ok res ∧
    ndarray_wf res ∧ shape res = shape outArr ∧ dtype res = dtype outArr ∧
    ∀ r c o a,
      pixel outArr r c = Some o → pixel arr r c = Some a →
      pixel res r c = Some (if decide (a ≠ outNullVal) then a else o).
Proof.
  intros (Ho1 & Ho2 & Ho3 & Ho4) (Ha1 & Ha2 & Ha3 & Ha4) Hshape.
  unfold ndarray_overlay. rewrite decide_True by done.
  eexists. split; [done|]. rewrite Hshape in Ha3, Ha4. split_and!; try done.
  - unfold ndarray_wf. simpl. split_and!; try done.
    + rewrite length_zip_with. lia.
    + apply Forall_lookup. intros i row. rewrite lookup_zip_with.
      rewrite Forall_lookup in Ho4. rewrite Forall_lookup in Ha4.
      destruct (data outArr !! i) as [orow|] eqn:Horow; [simpl|done].
      destruct (data arr !! i) as [arow|] eqn:Harow; [simpl|done].
      intros [= <-]. rewrite length_zip_with.
      specialize (Ho4 _ _ Horow). specialize (Ha4 _ _ Harow).
      simpl in *. lia.
  - intros r c o a. unfold pixel. simpl. rewrite lookup_zip_with.
    destruct (data outArr !! r) as [orow|]; [simpl|done].
    destruct (data arr !! r) as [arow|]; [simpl|done].
    rewrite lookup_zip_with. intros -> ->. done.
Qed.

Lemma foldlR_overlay_spec (outNullVal : Z) (rest : list ndarray)
    (outArr : ndarray) :
  ndarray_wf outArr →
  (∀ a, a ∈ rest → ndarray_wf a ∧ shape a = shape outArr) →
  ∃ res,
    foldlR (ndarray_overlay outNullVal) outArr rest = Ok res ∧
    ndarray_wf res ∧ shape res = shape outArr ∧ dtype res = dtype outArr ∧
    ∀ r c,
      (r < Z.to_nat (shape outArr).1)%nat →
      (c < Z.to_nat (shape outArr).2)%nat →
      (∃ i arr v,
         rest !! i = Some arr ∧ pixel arr r c = Some v ∧ v ≠ outNullVal ∧
         pixel res r c = Some v ∧
         ∀ j arr', (i < j)%nat → rest !! j = Some arr' →
                   pixel arr' r c = Some outNullVal) ∨
      ((∀ arr, arr ∈ rest → pixel arr r c = Some outNullVal) ∧
       pixel res r c = pixel outArr r c).
Proof.
  revert outArr. induction rest as [|a rest IH]; intros outArr Hwf Hrest.
  - exists outArr. simpl. split_and!; try done.
    intros r c _ _. right. split; [|done]. intros arr. inversion 1.
  - destruct (Hrest a) as [Hawf Hashape]; [by left|].
    destruct (ndarray_overlay_spec outNullVal outArr a Hwf Hawf Hashape)
      as (out1 & Hout1 & Hwf1 & Hshape1 & Hdt1 & Hpix1).
    destruct (IH out1 Hwf1) as (res & Hres & Hrwf & Hrshape & Hrdt & Hrpix).
    { intros a' Ha'. rewrite Hshape1. apply Hrest. by right. }
    exists res. simpl. rewrite Hout1. simpl.
    split_and!; try congruence.
    intros r c Hr Hc. rewrite Hshape1 in Hrpix.
    destruct (Hrpix r c Hr Hc)
      as [(i & arr & v & Hi & Hv & Hnn & Hresv & Hlater)|[Hnull Hresv]].
    + left. exists (S i), arr, v. split_and!; try done.
      intros [|j] arr' Hj; [lia|]. simpl. apply Hlater. lia.
    + destruct (pixel_in_range outArr r c Hwf Hr Hc) as [o Ho].
      destruct (pixel_in_range a r c Hawf) as [av Hav];
        [by rewrite Hashape..|].
      rewrite (Hpix1 r c o av Ho Hav) in Hresv.
      destruct (decide (av ≠ outNullVal)) as [Hnn|Hn%dec_stable].
      * left. exists 0%nat, a, av. split_and!; try done.
        intros [|j] arr' Hj; [lia|]. simpl. intros Hlk. apply Hnull.
        by eapply list_elem_of_lookup_2.
      * right. split; [|congruence].
        intros arr [->|Hin]%elem_of_cons; [congruence|by apply Hnull].
Qed.


(** ** Properties of the pipeline *)

Lemma sum_list_with_insert {X : Type} (f : X → nat) (l : list X) k x x' :
  l !! k = Some x →
  (sum_list_with f (<[k := x']> l) + f x = sum_list_with f l + f x')%nat.
Proof.
  revert k. induction l as [|y l IH]; intros [|k] Hk; try done; simpl in *.
  - injection Hk as ->. lia.
  - specialize (IH k Hk). lia.
Qed.

Lemma Queue_never_full (blockQ : Queue) : ¬ Queue_full blockQ_maxsize blockQ.
Proof. unfold Queue_full, blockQ_maxsize. lia. Qed.

Section PipelineFacts.
Variable GDALTypeCodeToNumericTypeCode : Z → Z.
Variable drv : RasterDriver.
Variable bandNum : Z.
Variable outImgInfo : ImageInfo.
Variable blockList : list BlockSpec.
Variable filesForBlock : gmap BlockSpec (list string).
Variable maxsize : Z.

Local Abbreviation body := (writeFunc_body GDALTypeCodeToNumericTypeCode outImgInfo
                    blockList filesForBlock).
Local Abbreviation wstep := (writer_step GDALTypeCodeToNumericTypeCode outImgInfo
                     blockList filesForBlock).
Local Abbreviation rstep := (reader_step drv bandNum maxsize).
Local Abbreviation sstep := (step GDALTypeCodeToNumericTypeCode drv bandNum outImgInfo
                     blockList filesForBlock maxsize).

(** Blocks not yet taken by the writer: queued, or still to be read. *)
Definition pending (s : System) : nat :=
  (length (sys_blockQ s) +
   sum_list_with (λ rd, length (r_blocksToRead rd)) (sys_readers s))%nat.

Lemma writeFunc_body_queue blockQ st blockQ' st' :
  body blockQ st = Ok (blockQ', st') → blockQ' = drop 1 blockQ.
Proof.
  unfold writeFunc_body, Result_bind. intros H.
  destruct blockQ as [|[blockInfo arr] blockQ]; simpl in *;
    repeat (match type of H with
            | context [match ?x with _ => _ end] => destruct x; simpl in H
            end; try done);
    by injection H as <- _.
Qed.

Lemma reader_step_pending outNullVal rd blockQ rd' blockQ' :
  rstep outNullVal rd blockQ = Some (rd', blockQ') →
  (length blockQ' + length (r_blocksToRead rd') =
   length blockQ + length (r_blocksToRead rd))%nat ∧
  (length blockQ ≤ length blockQ')%nat.
Proof.
  unfold reader_step. intros H.
  destruct (r_future rd); [|done].
  destruct (r_blocksToRead rd) as [|blockInfo rest]; simpl.
  - injection H as <- <-. done.
  - destruct (readFunc_body _ _ _ _).
    + destruct (decide _); [done|]. injection H as <- <-.
      rewrite length_app. simpl. lia.
    + injection H as <- <-. simpl. lia.
Qed.

Lemma step_pending s s' : sstep s s' → (pending s' ≤ pending s)%nat.
Proof.
  intros [s0 k rd rd' blockQ' Hk Hstep|s0 s0' Hstep]; unfold pending; simpl.
  - apply reader_step_pending in Hstep as [Hstep _].
    pose proof (sum_list_with_insert (λ rd, length (r_blocksToRead rd))
                  _ _ _ rd' Hk). lia.
  - unfold writer_step in Hstep.
    destruct (sys_phase s0); try done.
    + case_bool_decide; [|by injection Hstep as <-].
      destruct (body _ _) as [[blockQ' st']|] eqn:Hbody;
        injection Hstep as <-; simpl; [|done].
      apply writeFunc_body_queue in Hbody as ->.
      rewrite length_drop. lia.
    + destruct (checkReaderExceptions _); by injection Hstep as <-.
Qed.

Lemma rtc_step_pending s s' : rtc sstep s s' → (pending s' ≤ pending s)%nat.
Proof.
  induction 1 as [|s1 s2 s3 Hstep _ IH]; [done|].
  apply step_pending in Hstep. lia.
Qed.

Lemma pending_init blocksPerThread :
  pending (initSystem blocksPerThread) = length (concat blocksPerThread).
Proof.
  unfold pending, initSystem. simpl.
  induction blocksPerThread as [|l ls IH]; [done|].
  rewrite fmap_cons. simpl. rewrite length_app. by f_equal.
Qed.

End PipelineFacts.

Lemma every_nth_0_1 {X : Type} (l : list X) : every_nth 0 1 l = l.
Proof. induction l as [|x l IH]; [done|]. simpl. by rewrite IH. Qed.

Section UnboundedQueue.
Variable GDALTypeCodeToNumericTypeCode : Z → Z.
Variable drv : RasterDriver.
Variable bandNum : Z.
Variable outImgInfo : ImageInfo.
Variable blockList : list BlockSpec.
Variable filesForBlock : gmap BlockSpec (list string).

Local Abbreviation qstep :=
  (step GDALTypeCodeToNumericTypeCode drv bandNum outImgInfo blockList
     filesForBlock blockQ_maxsize).

Lemma reader_put_never_blocks rd blockQ blockInfo rest outArr :
  r_future rd = Running →
  r_blocksToRead rd = blockInfo :: rest →
  readFunc_body drv bandNum (nullVal outImgInfo) blockInfo = Ok outArr →
  reader_step drv bandNum blockQ_maxsize (nullVal outImgInfo) rd blockQ =
  Some (mkReader rest Running, blockQ ++ [(blockInfo, outArr)]).
Proof.
  intros Hfut Htodo Hread. unfold reader_step.
  rewrite Hfut, Htodo, Hread.
  by rewrite decide_False by apply Queue_never_full.
Qed.

Lemma single_reader_fills todo arrs blockQ wst phase :
  Forall2 (λ blockInfo arr,
             readFunc_body drv bandNum (nullVal outImgInfo) blockInfo = Ok arr)
    todo arrs →
  rtc qstep (mkSystem [mkReader todo Running] blockQ wst phase)
    (mkSystem [mkReader [] Running] (blockQ ++ zip todo arrs) wst phase).
Proof.
  intros Hreads. revert blockQ.
  induction Hreads as [|blockInfo arr todo arrs Hread _ IH]; intros blockQ.
  - simpl. by rewrite app_nil_r.
  - eapply rtc_l.
    + eapply (step_reader _ _ _ _ _ _ _ _ 0%nat); [done|]. simpl.
      by apply reader_put_never_blocks.
    + simpl.
      replace (blockQ ++ (blockInfo, arr) :: zip todo arrs)
        with ((blockQ ++ [(blockInfo, arr)]) ++ zip todo arrs)
        by (by rewrite <- app_assoc).
      apply IH.
Qed.

End UnboundedQueue.

(** Example data: a 4 x 4 raster and a driver that serves it. *)
Definition exRaster : ndarray :=
  mkArray (4, 4) 1
    [[1; 2; 3; 4]; [5; 6; 7; 8]; [9; 10; 11; 12]; [13; 14; 15; 16]].
Definition exFiles : gmap string ndarray := {[ "a.tif"%string := exRaster ]}.
Definition exDriver : RasterDriver := memoryDriver exFiles.
Definition exInfo : ImageInfo := mkImageInfo 4 4 1 1 0.
Definition exSpec : BlockReadingSpec :=
  mkBlockReadingSpec exTile "a.tif" (mkBlockSpec 0 0 2 2).

Lemma exSpec_reads :
  readFunc_body exDriver 1 0 exSpec = Ok (mkArray (2, 2) 1 [[1; 2]; [5; 6]]).
Proof. reflexivity. Qed.

Lemma exDriver_fills (n : nat) conv blockList_ ffb :
  rtc (step conv exDriver 1 exInfo blockList_ ffb blockQ_maxsize)
    (initSystem (divideBlocksByThread (replicate n exSpec) 1))
    (mkSystem [mkReader [] Running]
       (replicate n (exSpec, mkArray (2, 2) 1 [[1; 2]; [5; 6]]))
       (mkWriterState 0 ∅ []) LoopTest).
Proof.
  unfold initSystem, divideBlocksByThread. simpl. rewrite every_nth_0_1.
  pose proof (single_reader_fills conv exDriver 1 exInfo blockList_ ffb
                (replicate n exSpec)
                (replicate n (mkArray (2, 2) 1 [[1; 2]; [5; 6]]))
                [] (mkWriterState 0 ∅ []) LoopTest) as H.
  simpl in H. rewrite zip_with_replicate in H. apply H.
  apply Forall2_replicate. apply exSpec_reads.
Qed.

(** C1 (as the code has it).  The block queue is created without a
    capacity ([maxsize] 0), so it is never full and a reader's [put] never
    blocks; the depth of the queue is bounded only by the number of blocks
    of the reading list, not by the number of threads: with a single
    reader, a reading list of [n] blocks can put all [n] on the queue
    before the writer takes one. *)
Theorem blockQ_is_unbounded :
  blockQ_maxsize = 0 ∧
  (∀ blockQ : Queue, ¬ Queue_full blockQ_maxsize blockQ) ∧
  (∀ drv bandNum outImgInfo rd (blockQ : Queue) blockInfo rest outArr,
     r_future rd = Running →
     r_blocksToRead rd = blockInfo :: rest →
     readFunc_body drv bandNum (nullVal outImgInfo) blockInfo = Ok outArr →
     reader_step drv bandNum blockQ_maxsize (nullVal outImgInfo) rd blockQ =
     Some (mkReader rest Running, blockQ ++ [(blockInfo, outArr)])) ∧
  (∀ conv drv bandNum outImgInfo blockList filesForBlock blocksPerThread s,
     rtc (step conv drv bandNum outImgInfo blockList filesForBlock
            blockQ_maxsize) (initSystem blocksPerThread) s →
     (length (sys_blockQ s) ≤ length (concat blocksPerThread))%nat) ∧
  (∀ (n : nat) conv blockList filesForBlock,
     ∃ s,
       rtc (step conv exDriver 1 exInfo blockList filesForBlock
              blockQ_maxsize)
         (initSystem (divideBlocksByThread (replicate n exSpec) 1)) s ∧
       length (sys_blockQ s) = n).
Proof.
  split_and!.
  - done.
  - apply Queue_never_full.
  - intros. by apply reader_put_never_blocks.
  - intros conv drv bandNum outImgInfo blockList ffb blocksPerThread s Hrun.
    apply rtc_step_pending in Hrun. rewrite pending_init in Hrun.
    unfold pending in Hrun. lia.
  - intros n conv blockList ffb. eexists. split; [apply exDriver_fills|].
    simpl. by rewrite length_replicate.
Qed.

(** With one reader thread the queue reaches depth 3, beyond the bound
    [2 * numthreads], and no capacity bounds the depth over the runs of a
    single reader. *)
Lemma blockQ_bound_counterexample :
  (∃ s,
     rtc (step id exDriver 1 exInfo [] ∅ blockQ_maxsize)
       (initSystem (divideBlocksByThread [exSpec; exSpec; exSpec] 1)) s ∧
     2 * 1 < Z.of_nat (length (sys_blockQ s))) ∧
  ¬ (∃ cap : nat, ∀ (n : nat) s,
       rtc (step id exDriver 1 exInfo [] ∅ blockQ_maxsize)
         (initSystem (divideBlocksByThread (replicate n exSpec) 1)) s →
       (length (sys_blockQ s) ≤ cap)%nat).
Proof.
  split.
  - eexists. split; [apply (exDriver_fills 3)|]. simpl. lia.
  - intros [cap Hcap].
    specialize (Hcap (S cap) _ (exDriver_fills (S cap) id [] ∅)).
    simpl in Hcap. rewrite length_replicate in Hcap. lia.
Qed.

(** *** The reader check *)

(** A worker that is done and raised. *)
Definition faultedFuture (worker : Future) : Prop :=
  ∃ e, worker = Finished (Some e).

#[global] Instance faultedFuture_dec worker : Decision (faultedFuture worker).
Proof.
  destruct worker as [|[e|]];
    [right; by intros [e ?]|left; by exists e|right; by intros [e ?]].
Defined.

Lemma checkReaderExceptions_Raise (workerList : list Future) (e : PyExc) :
  checkReaderExceptions workerList = Raise e ↔
  ∃ k, workerList !! k = Some (Finished (Some e)) ∧
       ∀ j worker, (j < k)%nat → workerList !! j = Some worker →
                   ¬ faultedFuture worker.
Proof.
  induction workerList as [|worker workerList IH]; simpl.
  - split; [done|]. by intros (k & Hk & _).
  - destruct (decide (faultedFuture worker)) as [[e' ->]|Hok].
    + split.
      * intros [= ->]. exists 0%nat. split; [done|]. intros j w Hj. lia.
      * intros ([|k] & Hk & Hfirst); [by injection Hk as ->|].
        destruct (Hfirst 0%nat (Finished (Some e'))); [lia|done|by exists e'].
    + assert (match worker with
              | Finished (Some e0) => Raise e0
              | _ => checkReaderExceptions workerList
              end = checkReaderExceptions workerList) as ->.
      { destruct worker as [|[e0|]]; try done. destruct Hok. by exists e0. }
      rewrite IH. split.
      * intros (k & Hk & Hfirst). exists (S k). split; [done|].
        intros [|j] w Hj Hw; [by injection Hw as <-|].
        apply (Hfirst j); [lia|done].
      * intros ([|k] & Hk & Hfirst).
        -- injection Hk as ->. destruct Hok. by eexists.
        -- exists k. split; [done|]. intros j w Hj Hw.
           apply (Hfirst (S j)); [lia|done].
Qed.

Lemma checkReaderExceptions_faulted (workerList : list Future) :
  Exists faultedFuture workerList →
  ∃ e, checkReaderExceptions workerList = Raise e.
Proof.
  induction 1 as [worker workerList [e ->]|worker workerList _ IH]; simpl.
  - by exists e.
  - destruct worker as [|[e|]]; eauto.
Qed.

Section FailFast.
Variable GDALTypeCodeToNumericTypeCode : Z → Z.
Variable drv : RasterDriver.
Variable bandNum : Z.
Variable outImgInfo : ImageInfo.
Variable blockList : list BlockSpec.
Variable filesForBlock : gmap BlockSpec (list string).
Variable maxsize : Z.

Local Abbreviation fbody :=
  (writeFunc_body GDALTypeCodeToNumericTypeCode outImgInfo blockList
     filesForBlock).
Local Abbreviation fwstep :=
  (writer_step GDALTypeCodeToNumericTypeCode outImgInfo blockList
     filesForBlock).
Local Abbreviation fstep :=
  (step GDALTypeCodeToNumericTypeCode drv bandNum outImgInfo blockList
     filesForBlock maxsize).

(** Some read worker of the pool is done and raised. *)
Definition readerFaulted (s : System) : Prop :=
  Exists faultedFuture (r_future <$> sys_readers s).

(** Tiles the writer may still write before its next reader check. *)
Definition writeBudget (s : System) : nat :=
  match sys_phase s with
  | LoopTest => 1
  | _ => 0
  end.

Lemma writeFunc_body_written blockQ st blockQ' st' :
  fbody blockQ st = Ok (blockQ', st') →
  (w_written st' = w_written st ∧ w_i st' = w_i st) ∨
  (∃ wc, w_written st' = w_written st ++ [wc] ∧ w_i st' = S (w_i st)).
Proof.
  unfold writeFunc_body, Result_bind. intros H.
  destruct blockQ as [|[blockInfo arr] blockQ]; simpl in *;
    repeat (match type of H with
            | context [match ?x with _ => _ end] => destruct x; simpl in H
            end; try done);
    injection H as _ <-; simpl; eauto.
Qed.

Lemma reader_step_faulted outNullVal rd blockQ rd' blockQ' :
  reader_step drv bandNum maxsize outNullVal rd blockQ = Some (rd', blockQ') →
  ¬ faultedFuture (r_future rd).
Proof.
  unfold reader_step. intros H [e He]. by rewrite He in H.
Qed.

Lemma step_readerFaulted s s' : fstep s s' → readerFaulted s → readerFaulted s'.
Proof.
  unfold readerFaulted.
  intros [s0 k rd rd' blockQ' Hk Hstep|s0 s0' Hstep]; simpl.
  - apply reader_step_faulted in Hstep. rewrite list_fmap_insert.
    rewrite !Exists_exists. intros (w & Hw & Hfault).
    exists w. split; [|done].
    apply list_elem_of_lookup in Hw as [j Hj].
    apply list_elem_of_lookup. exists j.
    rewrite list_lookup_insert_ne; [done|]. intros <-.
    rewrite list_lookup_fmap, Hk in Hj. injection Hj as <-. done.
  - unfold writer_step in Hstep.
    destruct (sys_phase s0); try done.
    + case_bool_decide; [|by injection Hstep as <-].
      destruct (fbody _ _) as [[blockQ' st']|]; by injection Hstep as <-.
    + destruct (checkReaderExceptions _); by injection Hstep as <-.
Qed.

Lemma step_written_prefix s s' :
  fstep s s' →
  w_written (sys_writer s) `prefix_of` w_written (sys_writer s').
Proof.
  intros [s0 k rd rd' blockQ' Hk Hstep|s0 s0' Hstep]; simpl; [done|].
  unfold writer_step in Hstep.
  destruct (sys_phase s0); try done.
  - case_bool_decide; [|by injection Hstep as <-].
    destruct (fbody _ _) as [[blockQ' st']|] eqn:Hbody;
      injection Hstep as <-; simpl; [|done].
    apply writeFunc_body_written in Hbody as [[-> _]|(wc & -> & _)];
      [done|by apply prefix_app_r].
  - destruct (checkReaderExceptions _); by injection Hstep as <-.
Qed.

Lemma step_writeBudget s s' :
  fstep s s' → readerFaulted s →
  (length (w_written (sys_writer s')) + writeBudget s' ≤
   length (w_written (sys_writer s)) + writeBudget s)%nat.
Proof.
  intros [s0 k rd rd' blockQ' Hk Hstep|s0 s0' Hstep] Hfault;
    unfold writeBudget; simpl; [done|].
  unfold writer_step in Hstep.
  destruct (sys_phase s0); try done.
  - case_bool_decide; [|injection Hstep as <-; simpl; lia].
    destruct (fbody _ _) as [[blockQ' st']|] eqn:Hbody;
      injection Hstep as <-; simpl; [|lia].
    apply writeFunc_body_written in Hbody as [[-> _]|(wc & -> & _)];
      [lia|rewrite length_app; simpl; lia].
  - destruct (checkReaderExceptions_faulted _ Hfault) as [e He].
    rewrite He in Hstep. injection Hstep as <-. simpl. lia.
Qed.

Lemma rtc_step_writeBudget s s' :
  rtc fstep s s' → readerFaulted s →
  w_written (sys_writer s) `prefix_of` w_written (sys_writer s') ∧
  (length (w_written (sys_writer s')) + writeBudget s' ≤
   length (w_written (sys_writer s)) + writeBudget s)%nat.
Proof.
  induction 1 as [|s1 s2 s3 Hstep _ IH]; intros Hfault; [done|].
  destruct IH as [Hpre Hlen]; [by eapply step_readerFaulted|].
  pose proof (step_written_prefix _ _ Hstep).
  pose proof (step_writeBudget _ _ Hstep Hfault).
  split; [by etrans|lia].
Qed.

Lemma step_Raised s s' e :
  fstep s s' → sys_phase s = Raised e →
  sys_phase s' = Raised e ∧ sys_writer s' = sys_writer s.
Proof.
  intros [s0 k rd rd' blockQ' Hk Hstep|s0 s0' Hstep] Hphase; simpl; [done|].
  unfold writer_step in Hstep. by rewrite Hphase in Hstep.
Qed.

Lemma rtc_step_Raised s s' e :
  rtc fstep s s' → sys_phase s = Raised e →
  sys_phase s' = Raised e ∧ sys_writer s' = sys_writer s.
Proof.
  induction 1 as [|s1 s2 s3 Hstep _ IH]; intros Hphase; [done|].
  destruct (step_Raised _ _ _ Hstep Hphase) as [Hphase2 Hw2].
  destruct (IH Hphase2) as [-> ->]. done.
Qed.

End FailFast.

(** C4.  The reader check ends every iteration of the writer: after the
    body of an iteration the writer is at the check, and its next step is
    [checkReaderExceptions] on the workers' futures.  The check raises the
    exception of the first worker that is done and raised, if there is
    one, and the writer goes on to the next loop test only otherwise.
    Once the writer has raised, its list of written tiles never changes.
    So from a state in which a reader has raised and the writer is at its
    check, no further tile is written in any continuation of the run; and
    from any state in which a reader has raised, at most the tile of the
    iteration in progress is written. *)
Theorem checkReaderExceptions_fail_fast
    (conv : Z → Z) (drv : RasterDriver) (bandNum : Z) (outImgInfo : ImageInfo)
    (blockList : list BlockSpec)
    (filesForBlock : gmap BlockSpec (list string)) (maxsize : Z) :
  (∀ s blockQ' st',
     sys_phase s = LoopTest →
     (w_i (sys_writer s) < length blockList)%nat →
     writeFunc_body conv outImgInfo blockList filesForBlock
       (sys_blockQ s) (sys_writer s) = Ok (blockQ', st') →
     writer_step conv outImgInfo blockList filesForBlock s =
     Some (mkSystem (sys_readers s) blockQ' st' CheckReaders)) ∧
  (∀ s,
     sys_phase s = CheckReaders →
     writer_step conv outImgInfo blockList filesForBlock s =
     Some (mkSystem (sys_readers s) (sys_blockQ s) (sys_writer s)
             match checkReaderExceptions (r_future <$> sys_readers s) with
             | Raise e => Raised e
             | Ok _ => LoopTest
             end)) ∧
  (∀ workerList e,
     checkReaderExceptions workerList = Raise e ↔
     ∃ k, workerList !! k = Some (Finished (Some e)) ∧
          ∀ j worker, (j < k)%nat → workerList !! j = Some worker →
                      ¬ faultedFuture worker) ∧
  (∀ s,
     sys_phase s = CheckReaders → readerFaulted s →
     ∃ e, checkReaderExceptions (r_future <$> sys_readers s) = Raise e ∧
          writer_step conv outImgInfo blockList filesForBlock s =
          Some (mkSystem (sys_readers s) (sys_blockQ s) (sys_writer s)
                  (Raised e))) ∧
  (∀ s s' e,
     rtc (step conv drv bandNum outImgInfo blockList filesForBlock maxsize)
       s s' →
     sys_phase s = Raised e →
     sys_phase s' = Raised e ∧
     w_written (sys_writer s') = w_written (sys_writer s)) ∧
  (∀ s s',
     rtc (step conv drv bandNum outImgInfo blockList filesForBlock maxsize)
       s s' →
     readerFaulted s → sys_phase s = CheckReaders →
     w_written (sys_writer s') = w_written (sys_writer s)) ∧
  (∀ s s',
     rtc (step conv drv bandNum outImgInfo blockList filesForBlock maxsize)
       s s' →
     readerFaulted s →
     w_written (sys_writer s) `prefix_of` w_written (sys_writer s') ∧
     (length (w_written (sys_writer s')) ≤
      length (w_written (sys_writer s)) + 1)%nat).
Proof.
  split_and!.
  - intros s blockQ' st' Hphase Hi Hbody. unfold writer_step.
    by rewrite Hphase, bool_decide_eq_true_2, Hbody.
  - intros s Hphase. unfold writer_step. rewrite Hphase.
    by destruct (checkReaderExceptions _).
  - apply checkReaderExceptions_Raise.
  - intros s Hphase Hfault.
    destruct (checkReaderExceptions_faulted _ Hfault) as [e He].
    exists e. split; [done|]. unfold writer_step. by rewrite Hphase, He.
  - intros s s' e Hrun Hphase.
    destruct (rtc_step_Raised _ _ _ _ _ _ _ _ _ _ Hrun Hphase) as [-> ->].
    done.
  - intros s s' Hrun Hfault Hphase.
    destruct (rtc_step_writeBudget _ _ _ _ _ _ _ _ _ Hrun Hfault)
      as [Hpre Hlen].
    unfold writeBudget in Hlen. rewrite Hphase in Hlen.
    symmetry. apply prefix_length_eq; [done|]. lia.
  - intros s s' Hrun Hfault.
    destruct (rtc_step_writeBudget _ _ _ _ _ _ _ _ _ Hrun Hfault)
      as [Hpre Hlen].
    split; [done|]. unfold writeBudget in Hlen.
    destruct (sys_phase s), (sys_phase s'); lia.
Qed.

(** *** Tiles without inputs *)

Lemma ndarray_fill_zeros ys xs dt v arr :
  numpy_zeros ys xs dt = Ok arr →
  ndarray_fill arr v =
  mkArray (ys, xs) dt (replicate (Z.to_nat ys) (replicate (Z.to_nat xs) v)).
Proof.
  unfold numpy_zeros. case_bool_decide; [|done]. intros [= <-].
  unfold ndarray_fill. simpl. by rewrite !fmap_replicate.
Qed.

Section NullTiles.
Variable GDALTypeCodeToNumericTypeCode : Z → Z.
Variable drv : RasterDriver.
Variable bandNum : Z.
Variable outImgInfo : ImageInfo.
Variable blockList : list BlockSpec.
Variable filesForBlock : gmap BlockSpec (list string).
Variable maxsize : Z.
Hypothesis blockList_sizes :
  ∀ b, b ∈ blockList → 0 ≤ xsize b ∧ 0 ≤ ysize b.

Local Abbreviation nbody :=
  (writeFunc_body GDALTypeCodeToNumericTypeCode outImgInfo blockList
     filesForBlock).
Local Abbreviation nstep :=
  (step GDALTypeCodeToNumericTypeCode drv bandNum outImgInfo blockList
     filesForBlock maxsize).
Local Abbreviation nnull :=
  (nullBlock GDALTypeCodeToNumericTypeCode outImgInfo).

(** The block cache after the writer has drained one item, if any. *)
Definition drained (blockQ : Queue) (blockCache : BlockCache) : BlockCache :=
  match blockQ with
  | (blockInfo, arr) :: _ =>
      BlockCache_add blockCache (filename blockInfo) (outblock blockInfo) arr
  | [] => blockCache
  end.

Lemma writeFunc_body_null blockQ st outblock_ :
  blockList !! w_i st = Some outblock_ →
  filesForBlock !! outblock_ = None →
  nbody blockQ st =
  Ok (drop 1 blockQ,
      mkWriterState (S (w_i st)) (drained blockQ (w_blockCache st))
        (w_written st ++
         [mkWriteCall (nnull outblock_) (left outblock_) (top outblock_)])).
Proof.
  intros Hi Hffb. unfold writeFunc_body.
  destruct (blockList_sizes outblock_) as [Hx Hy];
    [by eapply list_elem_of_lookup_2|].
  assert (∃ zeros,
            numpy_zeros (ysize outblock_) (xsize outblock_)
              (GDALTypeCodeToNumericTypeCode (dataType outImgInfo)) =
            Ok zeros) as [zeros Hz].
  { unfold numpy_zeros. rewrite bool_decide_eq_true_2 by done. eauto. }
  destruct blockQ as [|[blockInfo arr] blockQ]; simpl;
    rewrite Hi, Hffb, Hz; simpl;
    by rewrite (ndarray_fill_zeros _ _ _ _ _ Hz).
Qed.

(** The writes done so far are those of the first [i] tiles, each at its
    tile's offset, and all-null for a tile without inputs. *)
Definition writtenInOrder (st : WriterState) : Prop :=
  length (w_written st) = w_i st ∧
  (w_i st ≤ length blockList)%nat ∧
  ∀ j outblock_ wc,
    blockList !! j = Some outblock_ → w_written st !! j = Some wc →
    wc_xoff wc = left outblock_ ∧ wc_yoff wc = top outblock_ ∧
    (filesForBlock !! outblock_ = None → wc_array wc = nnull outblock_).

Lemma writeFunc_body_write blockQ st blockQ' st' :
  nbody blockQ st = Ok (blockQ', st') →
  (w_written st' = w_written st ∧ w_i st' = w_i st) ∨
  (∃ outblock_ arr,
     blockList !! w_i st = Some outblock_ ∧ w_i st' = S (w_i st) ∧
     w_written st' =
       w_written st ++ [mkWriteCall arr (left outblock_) (top outblock_)] ∧
     (filesForBlock !! outblock_ = None → arr = nnull outblock_)).
Proof.
  intros Hbody.
  destruct (blockList !! w_i st) as [outblock_|] eqn:Hi.
  2:{ unfold writeFunc_body in Hbody. rewrite Hi in Hbody.
      by destruct blockQ as [|[??]?]. }
  destruct (filesForBlock !! outblock_) as [files|] eqn:Hffb.
  - unfold writeFunc_body, Result_bind in Hbody. rewrite Hi, Hffb in Hbody.
    destruct blockQ as [|[blockInfo arr] blockQ]; simpl in *;
      repeat (match type of Hbody with
              | context [match ?x with _ => _ end] =>
                  destruct x; simpl in Hbody
              end; try done);
      injection Hbody as _ <-; simpl;
      first [ by left
            | right; exists outblock_; eexists;
              split_and!; [done|done|done|congruence] ].
  - rewrite (writeFunc_body_null _ _ _ Hi Hffb) in Hbody.
    injection Hbody as _ <-. simpl. right. eauto 10.
Qed.

Lemma step_writtenInOrder s s' :
  nstep s s' → writtenInOrder (sys_writer s) → writtenInOrder (sys_writer s').
Proof.
  intros [s0 k rd rd' blockQ' Hk Hstep|s0 s0' Hstep] Hinv; simpl; [done|].
  unfold writer_step in Hstep.
  destruct (sys_phase s0); try done.
  - case_bool_decide as Hlt; [|by injection Hstep as <-].
    destruct (nbody _ _) as [[blockQ' st']|] eqn:Hbody;
      injection Hstep as <-; simpl; [|done].
    destruct Hinv as (Hlen & Hle & Hall).
    apply writeFunc_body_write in Hbody
      as [[Hw Hi]|(outblock_ & arr & Hi & Hi' & Hw & Hnull)].
    + unfold writtenInOrder. by rewrite Hw, Hi.
    + unfold writtenInOrder. rewrite Hw, Hi', length_app. simpl.
      split_and!; [lia|lia|].
      intros j ob wc Hj Hwc.
      apply lookup_app_Some in Hwc as [Hwc|[Hge Hwc]]; [by eapply Hall|].
      rewrite Hlen in Hge, Hwc.
      destruct (j - w_i (sys_writer s0))%nat as [|n] eqn:Hn; [|done].
      assert (j = w_i (sys_writer s0)) as -> by lia.
      injection Hwc as <-. rewrite Hi in Hj. injection Hj as <-. done.
  - destruct (checkReaderExceptions _); by injection Hstep as <-.
Qed.

Lemma rtc_step_writtenInOrder s s' :
  rtc nstep s s' → writtenInOrder (sys_writer s) →
  writtenInOrder (sys_writer s').
Proof.
  induction 1 as [|s1 s2 s3 Hstep _ IH]; [done|].
  intros Hinv. apply IH. by eapply step_writtenInOrder.
Qed.

(** The writer returns only from the loop test, with every tile written. *)
Definition returnedAtEnd (s : System) : Prop :=
  sys_phase s = Returned → w_i (sys_writer s) = length blockList.

Lemma step_returnedAtEnd s s' :
  nstep s s' → writtenInOrder (sys_writer s) → returnedAtEnd s →
  returnedAtEnd s'.
Proof.
  unfold returnedAtEnd.
  intros [s0 k rd rd' blockQ' Hk Hstep|s0 s0' Hstep] (_ & Hle & _) Hret;
    simpl; [done|].
  unfold writer_step in Hstep.
  destruct (sys_phase s0) eqn:Hphase; try done.
  - case_bool_decide as Hlt; [|injection Hstep as <-; simpl; lia].
    destruct (nbody _ _) as [[blockQ' st']|];
      by injection Hstep as <-.
  - destruct (checkReaderExceptions _); by injection Hstep as <-.
Qed.

Lemma rtc_step_returnedAtEnd s s' :
  rtc nstep s s' → writtenInOrder (sys_writer s) → returnedAtEnd s →
  returnedAtEnd s'.
Proof.
  induction 1 as [|s1 s2 s3 Hstep _ IH]; [done|].
  intros Hinv Hret. apply IH.
  - by eapply step_writtenInOrder.
  - by eapply step_returnedAtEnd.
Qed.

End NullTiles.

Lemma inputsOf_nil {GeoTransform : Type}
    (transformToFilePixelCoords :
       BlockSpec → GeoTransform → ImageInfo → Z * Z * Z * Z)
    outGeoTransform imgInfoDict (filelist : list string) block :
  inputsOf transformToFilePixelCoords outGeoTransform imgInfoDict
    filelist block = [] ↔
  ∀ fn, fn ∈ filelist →
        fileIntersects transformToFilePixelCoords outGeoTransform imgInfoDict
          block fn = false.
Proof.
  unfold inputsOf. induction filelist as [|fn0 l IH].
  - split; [intros _ fn; inversion 1|done].
  - rewrite filter_cons.
    destruct (fileIntersects _ _ _ block fn0) eqn:Hf.
    + rewrite decide_True by done. split; [done|]. intros H.
      specialize (H fn0 (list_elem_of_here _ _)). congruence.
    + rewrite decide_False by (by intros []). rewrite IH. split.
      * intros H fn [->|?]%elem_of_cons; auto.
      * intros H fn Hfn. apply H. by right.
Qed.


(** ** Properties of the schedule *)

Lemma exec_rtc conv drv bandNum outImgInfo blockList filesForBlock maxsize
    schedule s s' :
  exec conv drv bandNum outImgInfo blockList filesForBlock maxsize schedule s =
    Some s' →
  rtc (step conv drv bandNum outImgInfo blockList filesForBlock maxsize) s s'.
Proof.
  revert s. induction schedule as [|[k|] schedule IH]; intros s; simpl.
  - by intros [= <-].
  - destruct (sys_readers s !! k) as [rd|] eqn:Hk; [simpl|done].
    destruct (reader_step _ _ _ _ _ _) as [[rd' blockQ']|] eqn:Hstep;
      [simpl|done].
    intros Hexec. eapply rtc_l; [|by apply IH]. by eapply step_reader.
  - destruct (writer_step _ _ _ _ _) as [s1|] eqn:Hstep; [simpl|done].
    intros Hexec. eapply rtc_l; [|by apply IH]. by apply step_writer.
Qed.

(** ** A worked example: a 4 x 4 output grid in 2 x 2 tiles, one input
    file of a single pixel at the origin *)

Definition exTransform (b : BlockSpec) (_ : unit) (_ : ImageInfo)
    : Z * Z * Z * Z :=
  (left b, top b, left b + xsize b, top b + ysize b).
Definition exBlockList : list BlockSpec :=
  [mkBlockSpec 0 0 2 2; mkBlockSpec 0 2 2 2;
   mkBlockSpec 2 0 2 2; mkBlockSpec 2 2 2 2].
Definition exSmallFiles : gmap string ndarray :=
  {[ "s.tif"%string := mkArray (1, 1) 1 [[9]] ]}.
Definition exImgInfoDict : gmap string ImageInfo :=
  {[ "s.tif"%string := mkImageInfo 1 1 1 1 0 ]}.
Definition exPlan
    : list BlockSpecWithInputs * gmap BlockSpec (list string) :=
  default ([], ∅)
    (findInputsPerBlock exTransform exBlockList tt ["s.tif"%string]
       exImgInfoDict).

Example exBlockList_planned :
  makeOutputBlockList 4 exInfo 2 = Some exBlockList.
Proof. reflexivity. Qed.

Example exPlan_reading_list :
  makeBlockReadingList exPlan.1 =
  [mkBlockReadingSpec (mkBlockSpec 0 0 2 2) "s.tif" (mkBlockSpec 0 0 2 2)].
Proof. reflexivity. Qed.

Example exPlan_filesForBlock :
  exPlan.2 !! mkBlockSpec 0 0 2 2 = Some ["s.tif"%string] ∧
  exPlan.2 !! mkBlockSpec 0 2 2 2 = None.
Proof. split; reflexivity. Qed.

(** The reader puts its block and finishes; the writer then runs its four
    iterations and returns.  The first tile holds the input pixel padded
    with nulls, the other three are all-null. *)
Example exRun_returns :
  ∃ s,
    rtc (step id (memoryDriver exSmallFiles) 1 exInfo exBlockList exPlan.2
           blockQ_maxsize)
      (initSystem (divideBlocksByThread (makeBlockReadingList exPlan.1) 1))
      s ∧
    sys_phase s = Returned ∧
    w_written (sys_writer s) =
    [mkWriteCall (mkArray (2, 2) 1 [[9; 0]; [0; 0]]) 0 0;
     mkWriteCall (mkArray (2, 2) 1 [[0; 0]; [0; 0]]) 2 0;
     mkWriteCall (mkArray (2, 2) 1 [[0; 0]; [0; 0]]) 0 2;
     mkWriteCall (mkArray (2, 2) 1 [[0; 0]; [0; 0]]) 2 2].
Proof.
  destruct (exec id (memoryDriver exSmallFiles) 1 exInfo exBlockList exPlan.2
              blockQ_maxsize
              [Some 0; Some 0; None; None; None; None; None; None; None;
               None; None]%nat
              (initSystem
                 (divideBlocksByThread (makeBlockReadingList exPlan.1) 1)))
    as [s|] eqn:Hexec; [|by vm_compute in Hexec].
  exists s. split; [by eapply exec_rtc|].
  vm_compute in Hexec. injection Hexec as <-. split; reflexivity.
Qed.

(** ** Instances of the theorems on the example data *)

Definition exArrA : ndarray := mkArray (2, 2) 1 [[1; 0]; [3; 4]].
Definition exArrB : ndarray := mkArray (2, 2) 1 [[0; 0]; [7; 0]].

Example mergeInputs_example :
  mergeInputs [exArrA; exArrB] 0 = Ok (mkArray (2, 2) 1 [[1; 0]; [7; 4]]).
Proof. reflexivity. Qed.


Lemma exFiles_wf fn img : exFiles !! fn = Some img → ndarray_wf img.
Proof.
  unfold exFiles. intros [_ <-]%lookup_singleton_Some.
  unfold ndarray_wf. simpl. split_and!; try lia. repeat constructor.
Qed.

(** A block whose rectangle in the file starts one pixel above and to the
    left of the raster. *)
Definition exSpecNeg : BlockReadingSpec :=
  mkBlockReadingSpec (mkBlockSpec 0 0 3 3) "a.tif" (mkBlockSpec (-1) (-1) 3 3).

Example readFunc_body_example :
  readFunc_body exDriver 1 0 exSpecNeg =
  Ok (mkArray (3, 3) 1 [[0; 0; 0]; [0; 1; 2]; [0; 5; 6]]).
Proof. reflexivity. Qed.


(** A block whose rectangle in the file is three pixels wide while its
    output tile is two pixels wide: the enqueued array has the rectangle's
    shape, not the tile's. *)
Definition exSpecWide : BlockReadingSpec :=
  mkBlockReadingSpec (mkBlockSpec 0 0 2 2) "a.tif" (mkBlockSpec 0 0 3 2).


Lemma exImgInfoDict_known fn :
  fn ∈ ["s.tif"%string] → is_Some (exImgInfoDict !! fn).
Proof. intros ->%list_elem_of_singleton. by eexists. Qed.

Lemma findInputsPerBlock_intersects_iff_witness :
  ∃ blockListWithInputs filesForBlock,
    findInputsPerBlock exTransform exBlockList tt ["s.tif"%string]
      exImgInfoDict = Some (blockListWithInputs, filesForBlock) ∧
    ("s.tif"%string ∈ default [] (filesForBlock !! mkBlockSpec 0 0 2 2) ↔
     2 + 1 >= 0 ∧ 2 + 1 >= 0 ∧ 0 ≤ 1 ∧ 0 ≤ 1) ∧
    ("s.tif"%string ∈ default [] (filesForBlock !! mkBlockSpec 0 2 2 2) ↔
     4 + 1 >= 0 ∧ 2 + 1 >= 0 ∧ 2 ≤ 1 ∧ 0 ≤ 1).
Proof.
  destruct (findInputsPerBlock_intersects_iff exTransform exBlockList tt
              ["s.tif"%string] exImgInfoDict exImgInfoDict_known)
    as (blwi & ffb & Hrun & Hiff).
  exists blwi, ffb. split; [done|]. split.
  - apply (Hiff (mkBlockSpec 0 0 2 2) "s.tif"%string (mkImageInfo 1 1 1 1 0)
             0 0 2 2); [|by left|done|done].
    by left.
  - apply (Hiff (mkBlockSpec 0 2 2 2) "s.tif"%string (mkImageInfo 1 1 1 1 0)
             2 0 4 2); [|by left|done|done].
    right. by left.
Defined.

Lemma exBlockList_sizes b : b ∈ exBlockList → 0 ≤ xsize b ∧ 0 ≤ ysize b.
Proof.
  unfold exBlockList. rewrite !elem_of_cons, elem_of_nil.
  intros [->|[->|[->|[->|[]]]]]; simpl; lia.
Qed.


(** A reader whose file cannot be opened ends with the driver's fault; the
    writer's next check re-raises it, with no tile written. *)
Example exRun_reader_fault :
  ∃ s,
    rtc (step id (memoryDriver ∅) 1 exInfo exBlockList exPlan.2
           blockQ_maxsize)
      (initSystem (divideBlocksByThread (makeBlockReadingList exPlan.1) 1))
      s ∧
    sys_phase s = Raised (RasterError 4) ∧ w_written (sys_writer s) = [].
Proof.
  destruct (exec id (memoryDriver ∅) 1 exInfo exBlockList exPlan.2
              blockQ_maxsize [Some 0; None; None]%nat
              (initSystem
                 (divideBlocksByThread (makeBlockReadingList exPlan.1) 1)))
    as [s|] eqn:Hexec; [|by vm_compute in Hexec].
  exists s. split; [by eapply exec_rtc|].
  vm_compute in Hexec. injection Hexec as <-. split; reflexivity.
Qed.

(** ** Properties of the merge kernel on array objects *)

Lemma store_insert_Forall2 (store : ArrayStore) (out : nat) (acc : ndarray)
    (rest : list nat) (arrs : list ndarray) :
  out ∉ rest →
  Forall2 (λ r arr, store !! r = Some arr) rest arrs →
  Forall2 (λ r arr, <[out := acc]> store !! r = Some arr) rest arrs.
Proof.
  intros Hout H. induction H as [|r arr rest arrs Hr _ IH]; [constructor|].
  apply not_elem_of_cons in Hout as [Hne Hout].
  constructor; [by rewrite lookup_insert_ne|by apply IH].
Qed.

Lemma foldlR_overlay_inplace (outNullVal : Z) (out : nat) (rest : list nat)
    (arrs : list ndarray) (store : ArrayStore) (acc res : ndarray) :
  out ∉ rest →
  store !! out = Some acc →
  Forall2 (λ r arr, store !! r = Some arr) rest arrs →
  foldlR (ndarray_overlay outNullVal) acc arrs = Ok res →
  foldlR (overlay_inplace outNullVal out) store rest =
  Ok (<[out := res]> store).
Proof.
  intros Hout Hacc Hrest. revert store acc Hout Hacc Hrest.
  revert rest. induction arrs as [|arr arrs IH];
    intros rest store acc Hout Hacc Hrest Hfold.
  - apply Forall2_nil_inv_r in Hrest as ->. simpl in *.
    injection Hfold as <-. by rewrite insert_id.
  - apply Forall2_cons_inv_r in Hrest as (r & rest' & Hr & Hrest & ->).
    apply not_elem_of_cons in Hout as [Hne Hout].
    simpl in *. unfold overlay_inplace at 1. rewrite Hacc, Hr.
    destruct (ndarray_overlay outNullVal acc arr) as [acc'|]; [simpl|done].
    simpl in Hfold.
    rewrite (IH rest' (<[out := acc']> store) acc'); try done.
    + by rewrite insert_insert_eq.
    + by rewrite lookup_insert_eq.
    + by apply store_insert_Forall2.
Qed.

(** X1.  The in-place kernel against the kernel on values.  When the
    first object of the list does not occur again in it, the call returns
    the first object, holding the value-level merge of the arrays the list
    names, and leaves every other object as it was. *)
Theorem mergeInputs_inplace_refines (store : ArrayStore)
    (allInputsForBlock : list nat) (arrs : list ndarray) (outNullVal : Z)
    (outArr : ndarray) :
  Forall2 (λ r arr, store !! r = Some arr) allInputsForBlock arrs →
  (∀ out rest, allInputsForBlock = out :: rest → out ∉ rest) →
  mergeInputs arrs outNullVal = Ok outArr →
  ∃ out,
    head allInputsForBlock = Some out ∧
    mergeInputs_inplace store allInputsForBlock outNullVal =
      Ok (out, <[out := outArr]> store) ∧
    ∀ r, r ≠ out → <[out := outArr]> store !! r = store !! r.
Proof.
  intros Hrefs Hdistinct Hmerge.
  destruct Hrefs as [|out acc rest arrs' Hout Hrest]; [done|].
  exists out. split; [done|]. split.
  - simpl in *.
    rewrite (foldlR_overlay_inplace outNullVal out rest arrs' store acc outArr);
      try done.
    by apply Hdistinct.
  - intros r Hr. by rewrite lookup_insert_ne.
Qed.

Definition exStore : ArrayStore := {[ 0%nat := exArrA; 1%nat := exArrB ]}.

Lemma mergeInputs_inplace_refines_witness :
  mergeInputs_inplace exStore [0; 1]%nat 0 =
  Ok (0%nat, <[0%nat := mkArray (2, 2) 1 [[1; 0]; [7; 4]]]> exStore).
Proof.
  destruct (mergeInputs_inplace_refines exStore [0; 1]%nat [exArrA; exArrB] 0
              (mkArray (2, 2) 1 [[1; 0]; [7; 4]]))
    as (out & Hhead & Hrun & _).
  - by repeat constructor.
  - intros out rest [= <- <-]. by intros ?%list_elem_of_singleton.
  - reflexivity.
  - injection Hhead as <-. exact Hrun.
Defined.

(** ** Further properties of the planner and the writer *)

Lemma loop_left_nonpositive fuel ncols_ blocksize top_ ysize_ left_ acc :
  blocksize ≤ 0 → left_ < ncols_ →
  loop_left fuel ncols_ blocksize top_ ysize_ left_ acc = None.
Proof.
  intros HB. revert left_ acc.
  induction fuel as [|fuel IH]; intros left_ acc Hlt; simpl;
    rewrite bool_decide_eq_true_2 by done; [done|].
  apply IH. lia.
Qed.

(** X2.  With a block size that is not positive and a grid that has
    pixels, the loops of [makeOutputBlockList] never end: whatever the
    fuel, the inner loop is still running when it is spent. *)
Theorem makeOutputBlockList_nonpositive_blocksize (fuel : nat)
    (outImgInfo : ImageInfo) (blocksize : Z) :
  blocksize ≤ 0 → 0 < nrows outImgInfo → 0 < ncols outImgInfo →
  makeOutputBlockList fuel outImgInfo blocksize = None.
Proof.
  intros HB Hrows Hcols. unfold makeOutputBlockList.
  destruct fuel as [|fuel]; simpl; rewrite bool_decide_eq_true_2 by done;
    [done|].
  rewrite bool_decide_eq_true_2 by done.
  by rewrite loop_left_nonpositive by lia.
Qed.

Lemma makeOutputBlockList_nonpositive_blocksize_witness :
  makeOutputBlockList 1000 exInfo 0 = None.
Proof.
  apply makeOutputBlockList_nonpositive_blocksize; simpl; lia.
Defined.

(** X3.  For a tile list without repetitions, [filesForBlock] maps each
    tile that has inputs to exactly the files that pass the intersection
    test for it, in the order of the input file list. *)
Theorem findInputsPerBlock_keeps_filelist_order {GeoTransform : Type}
    (transformToFilePixelCoords :
       BlockSpec → GeoTransform → ImageInfo → Z * Z * Z * Z)
    (blockList : list BlockSpec) (outGeoTransform : GeoTransform)
    (filelist : list string) (imgInfoDict : gmap string ImageInfo) :
  (∀ fn, fn ∈ filelist → is_Some (imgInfoDict !! fn)) →
  NoDup blockList →
  ∃ blockListWithInputs filesForBlock,
    findInputsPerBlock transformToFilePixelCoords blockList outGeoTransform
      filelist imgInfoDict = Some (blockListWithInputs, filesForBlock) ∧
    ∀ block files,
      filesForBlock !! block = Some files ↔
      block ∈ blockList ∧ files ≠ [] ∧
      files = filter (λ fn, fileIntersects transformToFilePixelCoords
                              outGeoTransform imgInfoDict block fn) filelist.
Proof.
  intros Hknown Hnd.
  destruct (findInputsPerBlock_spec transformToFilePixelCoords outGeoTransform
              filelist imgInfoDict Hknown blockList) as (ffb & Hrun & Hffb).
  eexists _, ffb. split; [exact Hrun|].
  intros block files. rewrite Hffb. fold (inputsOf transformToFilePixelCoords
    outGeoTransform imgInfoDict filelist block).
  destruct (decide (_ ∨ _)) as [[H0|Hemp]|Hn].
  - split; [done|]. intros (Hin%occurrences_pos & _). lia.
  - split; [done|]. intros (_ & Hne & ->). done.
  - assert (block ∈ blockList) as Hin.
    { apply occurrences_pos. destruct (occurrences block blockList); [|lia].
      destruct Hn. by left. }
    rewrite (occurrences_NoDup _ _ Hnd Hin). simpl. rewrite app_nil_r.
    split.
    + intros [= <-]. split_and!; [done| |done]. intros Hemp. destruct Hn.
      by right.
    + by intros (_ & _ & ->).
Qed.

Lemma findInputsPerBlock_keeps_filelist_order_witness :
  ∃ blockListWithInputs filesForBlock,
    findInputsPerBlock exTransform exBlockList tt ["s.tif"%string]
      exImgInfoDict = Some (blockListWithInputs, filesForBlock) ∧
    filesForBlock !! mkBlockSpec 0 0 2 2 = Some ["s.tif"%string].
Proof.
  destruct (findInputsPerBlock_keeps_filelist_order exTransform exBlockList tt
              ["s.tif"%string] exImgInfoDict exImgInfoDict_known)
    as (blwi & ffb & Hrun & Hffb).
  - apply (bool_decide_unpack _). by vm_compute.
  - exists blwi, ffb. split; [done|]. apply Hffb.
    split_and!; [by left|done|reflexivity].
Defined.



(** * Part III: further properties of the engine and of the timing script *)

(** ** More on the file list *)

Lemma universal_newlines_line (name rest : list ascii) (crlf : bool) :
  CR ∉ name →
  universal_newlines (name ++ (if crlf then [CR; LF] else [LF]) ++ rest) =
  name ++ LF :: universal_newlines rest.
Proof.
  induction name as [|c name IH]; intros Hcr.
  - by destruct crlf.
  - rewrite not_elem_of_cons in Hcr. destruct Hcr as [Hc Hcr]. simpl.
    rewrite decide_False by done. by rewrite <- IH.
Qed.

Lemma readlines_line (name rest : list ascii) :
  LF ∉ name → readlines (name ++ LF :: rest) = (name ++ [LF]) :: readlines rest.
Proof.
  induction name as [|c name IH]; intros Hlf; simpl.
  - done.
  - rewrite not_elem_of_cons in Hlf. destruct Hlf as [Hc Hlf].
    rewrite decide_False by done. by rewrite IH.
Qed.

Lemma rstrip_blank (ws : list ascii) : Forall isspace ws → rstrip ws = [].
Proof.
  induction 1 as [|c ws Hc _ IH]; [done|]. simpl. rewrite IH.
  by destruct (isspace c).
Qed.

Lemma rstrip_app_blank (s ws : list ascii) :
  Forall isspace ws → rstrip (s ++ ws) = rstrip s.
Proof.
  intros Hws. induction s as [|c s IH]; simpl; [by apply rstrip_blank|].
  by rewrite IH.
Qed.

Lemma rstrip_id (s : list ascii) :
  (∀ c, last s = Some c → ¬ isspace c) → rstrip s = s.
Proof.
  induction s as [|c s IH]; [done|]. intros Hlast. simpl.
  destruct s as [|c' s].
  - simpl. destruct (isspace c) eqn:Hc; [|done].
    destruct (Hlast c eq_refl). by rewrite Hc.
  - rewrite IH; [done|]. intros c0 Hc0. by apply Hlast.
Qed.

Lemma lstrip_id (s : list ascii) :
  (∀ c, head s = Some c → ¬ isspace c) → lstrip s = s.
Proof.
  destruct s as [|c s]; [done|]. intros Hhead. simpl.
  destruct (isspace c) eqn:Hc; [|done].
  destruct (Hhead c eq_refl). by rewrite Hc.
Qed.

Lemma strip_line (name : list ascii) :
  (∀ c, head name = Some c → ¬ isspace c) →
  (∀ c, last name = Some c → ¬ isspace c) →
  strip (name ++ [LF]) = name.
Proof.
  intros Hhead Hlast. unfold strip.
  destruct name as [|c name]; [done|].
  rewrite lstrip_id by (intros c0 [= <-]; by apply Hhead).
  rewrite rstrip_app_blank by (by repeat constructor).
  by apply rstrip_id.
Qed.



(** ** More on the tile list *)

Lemma length_bind_const {X Y : Type} (f : X → list Y) (l : list X) (m : nat) :
  (∀ x, x ∈ l → length (f x) = m) → length (l ≫= f) = (length l * m)%nat.
Proof.
  induction l as [|x l IH]; intros Hf; csimpl; [done|].
  rewrite length_app, IH, Hf; [done|by left|].
  intros x' Hx'. apply Hf. by right.
Qed.

Lemma numTiles_last (n blocksize j : Z) :
  0 < blocksize → j < numTiles n blocksize → j * blocksize < n.
Proof.
  intros Hpos Hj. unfold numTiles in Hj.
  pose proof (Z.mul_div_le (n + blocksize - 1) blocksize Hpos). nia.
Qed.

Lemma rowMajorTiles_sizes (nrows_ ncols_ blocksize : Z) (b : BlockSpec) :
  0 < blocksize → b ∈ rowMajorTiles nrows_ ncols_ blocksize →
  0 < xsize b ≤ blocksize ∧ 0 < ysize b ≤ blocksize.
Proof.
  intros Hpos (i & j & Hi & Hj & ->)%elem_of_rowMajorTiles.
  unfold tileAt. simpl.
  pose proof (numTiles_last nrows_ blocksize i Hpos (proj2 Hi)).
  pose proof (numTiles_last ncols_ blocksize j Hpos (proj2 Hj)). lia.
Qed.

(** X6.  For a positive block size the tile list has
    [ceil(nrows / blocksize) * ceil(ncols / blocksize)] tiles; every tile
    lies inside the grid and is between one pixel and [blocksize] pixels
    wide and high, so no tile is empty.  A grid without rows or without
    columns has no tile, and a grid that fits in one block is a single
    tile. *)
Theorem makeOutputBlockList_tiles_inside_grid (outImgInfo : ImageInfo)
    (blocksize : Z) (fuel : nat) :
  0 < blocksize →
  Z.max (nrows outImgInfo) (ncols outImgInfo) ≤ Z.of_nat fuel →
  ∃ blockList,
    makeOutputBlockList fuel outImgInfo blocksize = Some blockList ∧
    length blockList =
      (Z.to_nat ((nrows outImgInfo + blocksize - 1) / blocksize) *
       Z.to_nat ((ncols outImgInfo + blocksize - 1) / blocksize))%nat ∧
    (∀ b, b ∈ blockList →
          0 < xsize b ≤ blocksize ∧ 0 < ysize b ≤ blocksize ∧
          0 ≤ top b ∧ top b + ysize b ≤ nrows outImgInfo ∧
          0 ≤ left b ∧ left b + xsize b ≤ ncols outImgInfo) ∧
    (nrows outImgInfo ≤ 0 ∨ ncols outImgInfo ≤ 0 → blockList = []) ∧
    (0 < nrows outImgInfo ≤ blocksize → 0 < ncols outImgInfo ≤ blocksize →
     blockList = [mkBlockSpec 0 0 (ncols outImgInfo) (nrows outImgInfo)]).
Proof.
  intros Hpos Hfuel. destruct outImgInfo as [nc nr nb dt nv]. simpl in *.
  exists (rowMajorTiles nr nc blocksize).
  split; [by apply makeOutputBlockList_closed|].
  fold (numTiles nr blocksize) (numTiles nc blocksize). split_and!.
  - unfold rowMajorTiles.
    rewrite (length_bind_const _ _ (Z.to_nat (numTiles nc blocksize))).
    + by rewrite length_seqZ.
    + intros i _. by rewrite length_fmap, length_seqZ.
  - intros b (i & j & Hi & Hj & ->)%elem_of_rowMajorTiles.
    unfold tileAt. simpl.
    pose proof (numTiles_last nr blocksize i Hpos (proj2 Hi)).
    pose proof (numTiles_last nc blocksize j Hpos (proj2 Hj)). nia.
  - intros Hempty.
    destruct (rowMajorTiles nr nc blocksize) as [|b l] eqn:Hl; [done|].
    assert (b ∈ rowMajorTiles nr nc blocksize) as Hb by (rewrite Hl; by left).
    apply elem_of_rowMajorTiles in Hb as (i & j & Hi & Hj & _).
    pose proof (numTiles_last nr blocksize i Hpos (proj2 Hi)).
    pose proof (numTiles_last nc blocksize j Hpos (proj2 Hj)). nia.
  - intros Hr Hc. unfold rowMajorTiles.
    assert (numTiles nr blocksize = 1) as ->.
    { unfold numTiles. symmetry. apply (Z.div_unique _ _ 1 (nr - 1)); lia. }
    assert (numTiles nc blocksize = 1) as ->.
    { unfold numTiles. symmetry. apply (Z.div_unique _ _ 1 (nc - 1)); lia. }
    unfold tileAt. simpl. repeat f_equal; lia.
Qed.

Lemma makeOutputBlockList_tiles_inside_grid_witness :
  ∃ blockList,
    makeOutputBlockList 100 (mkImageInfo 100 70 1 1 0) 64 = Some blockList ∧
    length blockList = 4%nat ∧
    (∀ b, b ∈ blockList → 0 < xsize b ≤ 64 ∧ 0 < ysize b ≤ 64).
Proof.
  destruct (makeOutputBlockList_tiles_inside_grid (mkImageInfo 100 70 1 1 0)
              64 100) as (blockList & Hrun & Hlen & Hin & _); [lia|simpl; lia|].
  exists blockList. split_and!; [done|done|].
  intros b Hb. destruct (Hin b Hb) as (? & ? & _). done.
Defined.

(** ** More on the per-tile inputs *)

Section KeyErrorFacts.
Context {GeoTransform : Type}.
Variable transformToFilePixelCoords :
  BlockSpec → GeoTransform → ImageInfo → Z * Z * Z * Z.
Variable outGeoTransform : GeoTransform.
Variable imgInfoDict : gmap string ImageInfo.

Lemma findInputs_file_unknown block st fn :
  imgInfoDict !! fn = None →
  findInputs_file transformToFilePixelCoords outGeoTransform imgInfoDict
    block st fn = None.
Proof. intros Hfn. destruct st. unfold findInputs_file. by rewrite Hfn. Qed.

Lemma findInputs_files_unknown block st (files : list string) fn :
  fn ∈ files → imgInfoDict !! fn = None →
  foldlM (findInputs_file transformToFilePixelCoords outGeoTransform
            imgInfoDict block) st files = None.
Proof.
  intros Hin Hfn. revert st.
  induction files as [|fn' files IH]; intros st; [by apply elem_of_nil in Hin|].
  simpl. destruct (findInputs_file _ _ _ _ _ fn') as [st'|] eqn:Hstep; [|done].
  simpl. apply elem_of_cons in Hin as [->|Hin]; [|by apply IH].
  by rewrite findInputs_file_unknown in Hstep.
Qed.

End KeyErrorFacts.

(** X7.  [findInputsPerBlock] ends with the [KeyError] of
    [imgInfoDict[filename]] exactly when there is at least one tile and
    some listed file has no entry in the catalogue, whether or not that
    file would intersect any tile; with an empty tile list it returns two
    empty results whatever the catalogue. *)
Theorem findInputsPerBlock_KeyError_iff {GeoTransform : Type}
    (transformToFilePixelCoords :
       BlockSpec → GeoTransform → ImageInfo → Z * Z * Z * Z)
    (blockList : list BlockSpec) (outGeoTransform : GeoTransform)
    (filelist : list string) (imgInfoDict : gmap string ImageInfo) :
  (findInputsPerBlock transformToFilePixelCoords blockList outGeoTransform
     filelist imgInfoDict = None ↔
   blockList ≠ [] ∧ ∃ fn, fn ∈ filelist ∧ imgInfoDict !! fn = None) ∧
  findInputsPerBlock transformToFilePixelCoords [] outGeoTransform
     filelist imgInfoDict = Some ([], ∅).
Proof.
  split; [|done]. split.
  - intros Hnone.
    destruct (decide (Forall (λ fn, is_Some (imgInfoDict !! fn)) filelist))
      as [Hall|Hsome].
    + rewrite Forall_forall in Hall.
      destruct (findInputsPerBlock_spec transformToFilePixelCoords
                  outGeoTransform filelist imgInfoDict Hall blockList)
        as (ffb & Hrun & _). congruence.
    + apply not_Forall_Exists in Hsome; [|apply _].
      apply Exists_exists in Hsome as (fn & Hfn & Hunknown).
      split; [by intros ->|]. exists fn. split; [done|].
      by apply eq_None_not_Some.
  - intros [Hne (fn & Hfn & Hunknown)].
    destruct blockList as [|block blockList]; [done|].
    unfold findInputsPerBlock. simpl. unfold findInputs_block at 1.
    by rewrite (findInputs_files_unknown _ _ _ _ _ _ fn Hfn Hunknown).
Qed.

(** ** More on the partition *)

Lemma every_nth_length {X : Type} (l : list X) (skip step : nat) :
  (1 ≤ step)%nat →
  length (every_nth skip step l) = ((length l + step - 1 - skip) / step)%nat.
Proof.
  intros Hstep. revert skip. induction l as [|x l IH]; intros skip; simpl.
  - symmetry. apply Nat.div_small. lia.
  - destruct skip as [|skip]; simpl.
    + rewrite IH.
      replace (length l + step - 0 - 0)%nat
        with (length l + 1 * step)%nat by lia.
      rewrite Nat.div_add by lia.
      replace (length l + step - 1 - (step - 1))%nat with (length l) by lia.
      lia.
    + rewrite IH. f_equal. lia.
Qed.

(** X8.  The partition is balanced: for [numthreads >= 1] worker [k]
    gets [ceil((n - k) / numthreads)] of the [n] blocks, so no two workers
    differ by more than one block, a worker with a smaller index never
    has fewer blocks, and with fewer blocks than workers the workers from
    index [n] on get an empty list. *)
Theorem divideBlocksByThread_balanced {A : Type}
    (blockReadingList : list A) (numthreads : nat) :
  (1 ≤ numthreads)%nat →
  let blocksPerThread := divideBlocksByThread blockReadingList numthreads in
  (∀ k sublist,
     blocksPerThread !! k = Some sublist →
     length sublist =
       ((length blockReadingList + numthreads - 1 - k) / numthreads)%nat ∧
     ((length blockReadingList ≤ k)%nat → sublist = [])) ∧
  (∀ k k' sublist sublist',
     blocksPerThread !! k = Some sublist →
     blocksPerThread !! k' = Some sublist' →
     (length sublist ≤ length sublist' + 1)%nat ∧
     ((k ≤ k')%nat → (length sublist' ≤ length sublist)%nat)).
Proof.
  intros Hn blocksPerThread.
  assert (∀ k sublist,
            blocksPerThread !! k = Some sublist →
            (k < numthreads)%nat ∧
            length sublist =
              ((length blockReadingList + numthreads - 1 - k) / numthreads)%nat)
    as Hlen.
  { intros k sublist Hk. unfold blocksPerThread, divideBlocksByThread in Hk.
    apply list_lookup_fmap_Some in Hk as (i & -> & Hi).
    apply lookup_seq in Hi as [-> Hlt]. simpl.
    split; [done|]. by apply every_nth_length. }
  split.
  - intros k sublist Hk. destruct (Hlen k sublist Hk) as [Hlt Heq].
    split; [done|]. intros Hle. apply nil_length_inv. rewrite Heq.
    apply Nat.div_small. lia.
  - intros k k' sublist sublist' Hk Hk'.
    destruct (Hlen k sublist Hk) as [Hlt ->].
    destruct (Hlen k' sublist' Hk') as [Hlt' ->].
    set (n := length blockReadingList).
    split.
    + assert (n + numthreads - 1 - k ≤ (n + numthreads - 1 - k') + numthreads)%nat
        as Hle by lia.
      apply (Nat.Div0.div_le_mono _ _ numthreads) in Hle.
      replace (n + numthreads - 1 - k' + numthreads)%nat
        with (n + numthreads - 1 - k' + 1 * numthreads)%nat in Hle by lia.
      rewrite Nat.div_add in Hle by lia. lia.
    + intros Hkk. apply Nat.Div0.div_le_mono. lia.
Qed.

Lemma divideBlocksByThread_balanced_witness :
  length <$> divideBlocksByThread [10; 11; 12; 13; 14; 15; 16] 3 =
    [3; 2; 2]%nat ∧
  divideBlocksByThread [10; 11] 4 = [[10]; [11]; []; []].
Proof.
  destruct (divideBlocksByThread_balanced [10; 11; 12; 13; 14; 15; 16] 3)
    as [Hlen _]; [lia|].
  destruct (Hlen 0%nat [10; 13; 16]) as [H0 _]; [done|].
  split; reflexivity.
Defined.

(** ** More on the reader *)

Lemma paste_row_full (m : nat) (v : Z) (srow : list Z) :
  length srow = m → paste_row (replicate m v) 0 srow = srow.
Proof.
  intros Hlen. unfold paste_row. simpl.
  rewrite drop_ge by (rewrite length_replicate; lia). apply app_nil_r.
Qed.

Lemma paste_rows_full (n m : nat) (v : Z) (src : list (list Z)) :
  length src = n → Forall (λ row, length row = m) src →
  paste_rows (replicate n (replicate m v)) 0 0 src = src.
Proof.
  intros Hlen Hrows. unfold paste_rows. simpl. rewrite drop_0.
  rewrite take_ge, drop_ge by (rewrite length_replicate; lia).
  rewrite app_nil_r. subst n.
  induction Hrows as [|srow src Hsrow _ IH]; [done|].
  simpl. by rewrite paste_row_full, IH.
Qed.



(** ** More on the merge kernel *)

Lemma ndarray_overlay_shape outNullVal outArr arr res :
  ndarray_overlay outNullVal outArr arr = Ok res → shape res = shape outArr.
Proof.
  unfold ndarray_overlay. destruct (decide _); [|done]. by intros [= <-].
Qed.

Lemma foldlR_overlay_Raise (outNullVal : Z) (rest : list ndarray)
    (outArr : ndarray) (e : PyExc) :
  foldlR (ndarray_overlay outNullVal) outArr rest = Raise e ↔
  e = IndexError ∧ ∃ a, a ∈ rest ∧ shape a ≠ shape outArr.
Proof.
  revert outArr. induction rest as [|a rest IH]; intros outArr; simpl.
  - split; [done|]. by intros (_ & a & ?%elem_of_nil & _).
  - destruct (ndarray_overlay outNullVal outArr a) as [res|e'] eqn:Hov; simpl.
    + pose proof (ndarray_overlay_shape _ _ _ _ Hov) as Hshape.
      unfold ndarray_overlay in Hov. destruct (decide _) as [Heq|]; [|done].
      rewrite IH, Hshape. split.
      * intros (-> & a' & Ha' & Hne). split; [done|]. exists a'.
        split; [by right|done].
      * intros (-> & a' & [->|Ha']%elem_of_cons & Hne); [done|].
        split; [done|]. by exists a'.
    + unfold ndarray_overlay in Hov. destruct (decide _) as [|Hne]; [done|].
      injection Hov as <-. split.
      * intros [= <-]. split; [done|]. exists a. split; [by left|done].
      * by intros (-> & _).
Qed.


Lemma foldlR_app {S X : Type} (f : S → X → Result S) (s : S) (l1 l2 : list X) :
  foldlR f s (l1 ++ l2) = (s' ←R foldlR f s l1; foldlR f s' l2).
Proof.
  revert s. induction l1 as [|x l1 IH]; intros s; simpl; [done|].
  destruct (f s x) as [s'|e]; simpl; [apply IH|done].
Qed.

(** X11.  Merging can be done in steps: merging a list of inputs gives
    the result, or the exception, of merging a non-empty front part and
    then merging that result with the remaining inputs. *)
Theorem mergeInputs_incremental (front back : list ndarray) (outNullVal : Z) :
  front ≠ [] →
  mergeInputs (front ++ back) outNullVal =
  (merged ←R mergeInputs front outNullVal;
   mergeInputs (merged :: back) outNullVal).
Proof.
  destruct front as [|outArr front]; [done|]. intros _. simpl.
  apply foldlR_app.
Qed.

Lemma mergeInputs_incremental_witness :
  mergeInputs ([exArrA] ++ [exArrB]) 0 =
  (merged ←R mergeInputs [exArrA] 0; mergeInputs [merged; exArrB] 0).
Proof. by apply (mergeInputs_incremental [exArrA] [exArrB] 0). Defined.

(** ** A band's run on the plan of the analysis *)

(** The cache key of a read. *)
Definition keyOf (blockInfo : BlockReadingSpec) : string * BlockSpec :=
  makeKey (filename blockInfo) (outblock blockInfo).

Lemma foldl_remove_lookup (files : list string) (b : BlockSpec)
    (blockCache : BlockCache) (k : string * BlockSpec) :
  foldl (λ c fn, BlockCache_remove c fn b) blockCache files !! k =
  if decide (k.2 = b ∧ k.1 ∈ files) then None else blockCache !! k.
Proof.
  revert blockCache. induction files as [|fn files IH]; intros blockCache.
  - simpl. rewrite decide_False; [done|]. intros [_ H]. by apply elem_of_nil in H.
  - simpl. rewrite IH. unfold BlockCache_remove, makeKey.
    destruct (decide (k.2 = b ∧ k.1 ∈ files)) as [[Hb Hin]|Hn].
    + rewrite decide_True; [done|]. split; [done|]. by right.
    + destruct (decide (k = (fn, b))) as [->|Hk].
      * rewrite lookup_delete_eq. rewrite decide_True; [done|].
        simpl. split; [done|]. by left.
      * rewrite lookup_delete_ne by done.
        destruct (decide (k.2 = b ∧ k.1 ∈ fn :: files)) as [[Hb Hin]|]; [|done].
        apply elem_of_cons in Hin as [Hin|Hin]; [|tauto].
        destruct k as [k1 k2]. simpl in *. congruence.
Qed.

Lemma getInputs_loop_Some blockCache b filelist files shp acc arrs :
  getInputs_loop blockCache b filelist files shp acc = Ok (Some arrs) →
  ∃ arrs', arrs = acc ++ arrs' ∧ Forall2 (cachedAs blockCache b) files arrs'.
Proof.
  revert shp acc. induction files as [|fn files IH]; intros shp acc; simpl.
  - intros [= <-]. exists []. by rewrite app_nil_r.
  - destruct (blockCache !! makeKey fn b) as [[blockSpec arr]|] eqn:Hk; [|done].
    destruct (decide _); [done|]. intros Hloop.
    destruct (IH _ _ Hloop) as (arrs' & -> & Hall).
    exists (arr :: arrs'). rewrite <- app_assoc. split; [done|].
    constructor; [by exists blockSpec|done].
Qed.

Lemma getInputs_loop_uniform blockCache b filelist shp0 files shp acc :
  (∀ fn blockSpec arr,
     blockCache !! makeKey fn b = Some (blockSpec, arr) → shape arr = shp0) →
  (∀ x, shp = Some x → x = shp0) →
  ∃ res, getInputs_loop blockCache b filelist files shp acc = Ok res.
Proof.
  intros Hshape. revert shp acc.
  induction files as [|fn files IH]; intros shp acc Hshp; simpl; [eauto|].
  destruct (blockCache !! makeKey fn b) as [[blockSpec arr]|] eqn:Hk; [|eauto].
  assert (default (shape arr) shp = shp0) as ->.
  { destruct shp as [x|]; simpl; [by apply Hshp|by eapply Hshape]. }
  rewrite decide_False; [|intros H; apply H; by eapply Hshape].
  apply IH. by intros x [= <-].
Qed.

Lemma foldlR_overlay_ok (outNullVal : Z) (rest : list ndarray) (outArr : ndarray) :
  (∀ a, a ∈ rest → shape a = shape outArr) →
  ∃ res, foldlR (ndarray_overlay outNullVal) outArr rest = Ok res.
Proof.
  revert outArr. induction rest as [|a rest IH]; intros outArr Hshape; simpl;
    [eauto|].
  unfold ndarray_overlay at 1.
  rewrite decide_True by (apply Hshape; by left). simpl.
  apply IH. simpl. intros a' Ha'. apply Hshape. by right.
Qed.

Lemma mergeInputs_ok (arrs : list ndarray) (outNullVal : Z) (shp : Z * Z) :
  arrs ≠ [] → (∀ a, a ∈ arrs → shape a = shp) →
  ∃ outArr, mergeInputs arrs outNullVal = Ok outArr.
Proof.
  destruct arrs as [|a arrs]; [done|]. intros _ Hshape. simpl.
  apply foldlR_overlay_ok. intros a' Ha'.
  rewrite (Hshape a') by (by right). symmetry. apply Hshape. by left.
Qed.

Lemma concat_fmap_insert {X Y : Type} (f : X → list Y) (l : list X) k x x' :
  l !! k = Some x →
  concat (f <$> l) =
    concat (f <$> take k l) ++ f x ++ concat (f <$> drop (S k) l) ∧
  concat (f <$> <[k := x']> l) =
    concat (f <$> take k l) ++ f x' ++ concat (f <$> drop (S k) l).
Proof.
  intros Hk. split.
  - rewrite <- (take_drop_middle l k x Hk) at 1.
    by rewrite fmap_app, concat_app, fmap_cons.
  - rewrite insert_take_drop by (by eapply lookup_lt_Some).
    by rewrite fmap_app, concat_app, fmap_cons.
Qed.

Lemma elem_of_concat {X : Type} (x : X) (ls : list (list X)) :
  x ∈ concat ls ↔ ∃ l, l ∈ ls ∧ x ∈ l.
Proof.
  induction ls as [|l ls IH]; simpl.
  - split; [by intros ?%elem_of_nil|by intros (? & ?%elem_of_nil & _)].
  - rewrite elem_of_app, IH. split.
    + intros [?|(l' & ? & ?)]; [exists l; split; [by left|done]|].
      exists l'. split; [by right|done].
    + intros (l' & [->|?]%elem_of_cons & ?); [by left|right; eauto].
Qed.

Lemma Forall2_choice {X Y : Type} (P : X → Y → Prop) (l : list X) :
  (∀ x, x ∈ l → ∃ y, P x y) → ∃ k, Forall2 P l k.
Proof.
  induction l as [|x l IH]; intros H; [by exists []|].
  destruct (H x) as [y Hy]; [by left|].
  destruct IH as [k Hk]; [intros x' Hx'; apply H; by right|].
  exists (y :: k). by constructor.
Qed.

Lemma writeFunc_body_unfold conv outImgInfo blockList
    (filesForBlock : gmap BlockSpec (list string)) (blockQ : Queue) st :
  writeFunc_body conv outImgInfo blockList filesForBlock blockQ st =
  let blockCache := drained blockQ (w_blockCache st) in
  match blockList !! w_i st with
  | None => Raise IndexError
  | Some outblock_ =>
      match filesForBlock !! outblock_ with
      | None =>
          outArr ←R numpy_zeros (ysize outblock_) (xsize outblock_)
                      (conv (dataType outImgInfo));
          Ok (drop 1 blockQ,
              mkWriterState (S (w_i st)) blockCache
                (w_written st ++
                 [mkWriteCall (ndarray_fill outArr (nullVal outImgInfo))
                    (left outblock_) (top outblock_)]))
      | Some files =>
          if bool_decide (blockQ ≠ [] ∨ (0 < size blockCache)%nat) then
            allInputBlocks ←R
              getInputsForBlock blockCache outblock_ filesForBlock;
            match allInputBlocks with
            | Some inputs =>
                outArr ←R mergeInputs inputs (nullVal outImgInfo);
                Ok (drop 1 blockQ,
                    mkWriterState (S (w_i st))
                      (foldl (λ c fn, BlockCache_remove c fn outblock_)
                         blockCache files)
                      (w_written st ++
                       [mkWriteCall outArr (left outblock_) (top outblock_)]))
            | None =>
                Ok (drop 1 blockQ,
                    mkWriterState (w_i st) blockCache (w_written st))
            end
          else Ok (drop 1 blockQ,
                   mkWriterState (w_i st) blockCache (w_written st))
      end
  end.
Proof.
  unfold writeFunc_body.
  destruct blockQ as [|[blockInfo arr] blockQ]; simpl;
    destruct (blockList !! w_i st) as [b|]; try done;
    destruct (filesForBlock !! b) as [files|]; try done.
  case_bool_decide as H1; case_bool_decide as H2; try done.
  - destruct H2. destruct H1 as [[? H]|H]; [done|by right].
  - destruct H1. destruct H2 as [H|H]; [done|by right].
Qed.

Section BandRun.
Variable GDALTypeCodeToNumericTypeCode : Z → Z.
Variable drv : RasterDriver.
Variable bandNum : Z.
Variable outImgInfo : ImageInfo.
Variable blockList : list BlockSpec.
Variable filesForBlock : gmap BlockSpec (list string).
Variable blockReadingList : list BlockReadingSpec.

Local Abbreviation bbody :=
  (writeFunc_body GDALTypeCodeToNumericTypeCode outImgInfo blockList
     filesForBlock).
Local Abbreviation bwstep :=
  (writer_step GDALTypeCodeToNumericTypeCode outImgInfo blockList
     filesForBlock).
Local Abbreviation bstep :=
  (step GDALTypeCodeToNumericTypeCode drv bandNum outImgInfo blockList
     filesForBlock blockQ_maxsize).
Local Abbreviation bread :=
  (readFunc_body drv bandNum (nullVal outImgInfo)).
Local Abbreviation bnull :=
  (nullBlock GDALTypeCodeToNumericTypeCode outImgInfo).

(** The plan: the tiles are distinct, no two reads have the same file
    and tile, every read is for a listed tile and a file recorded for it,
    and every file recorded for a tile has its read. *)
Hypothesis tiles_nodup : NoDup blockList.
Hypothesis keys_nodup : NoDup (keyOf <$> blockReadingList).
Hypothesis reads_planned :
  ∀ r, r ∈ blockReadingList →
       outblock r ∈ blockList ∧
       ∃ files, filesForBlock !! outblock r = Some files ∧ filename r ∈ files.
Hypothesis files_planned :
  ∀ b files, filesForBlock !! b = Some files →
             files ≠ [] ∧
             ∀ fn, fn ∈ files → makeKey fn b ∈ keyOf <$> blockReadingList.

(** The reads of the tiles from index [i] on. *)
Definition liveKey (i : nat) (k : string * BlockSpec) : Prop :=
  k ∈ keyOf <$> blockReadingList ∧
  ∃ j, blockList !! j = Some k.2 ∧ (i ≤ j)%nat.

(** What a run keeps true of the reads [todo] the workers have still to
    do, the queue, the block cache and the writer's [i]: a read of the
    plan is with a worker, on the queue or in the cache, in one place
    only, exactly when its tile is not written yet; and the arrays on the
    queue and in the cache are the padded blocks of their reads. *)
Record flowInv (todo : list BlockReadingSpec) (blockQ : Queue)
    (blockCache : BlockCache) (i : nat) : Prop := {
  flow_i : (i ≤ length blockList)%nat;
  flow_planned :
    ∀ r, r ∈ todo ++ blockQ.*1 → r ∈ blockReadingList;
  flow_nodup : NoDup (keyOf <$> todo ++ blockQ.*1);
  flow_disjoint :
    ∀ r, r ∈ todo ++ blockQ.*1 → blockCache !! keyOf r = None;
  flow_live :
    ∀ k, (k ∈ keyOf <$> todo ++ blockQ.*1 ∨ is_Some (blockCache !! k)) ↔
         liveKey i k;
  flow_queue :
    ∀ r arr, (r, arr) ∈ blockQ → bread r = Ok arr;
  flow_cache :
    ∀ fn b blockSpec arr,
      blockCache !! makeKey fn b = Some (blockSpec, arr) →
      blockSpec = b ∧
      ∃ r, r ∈ blockReadingList ∧ filename r = fn ∧ outblock r = b ∧
           bread r = Ok arr
}.

Lemma flowInv_perm todo todo' blockQ blockCache i :
  todo ≡ₚ todo' →
  flowInv todo blockQ blockCache i → flowInv todo' blockQ blockCache i.
Proof.
  intros Hperm [H1 H2 H3 H4 H5 H6 H7].
  assert (todo ++ blockQ.*1 ≡ₚ todo' ++ blockQ.*1) as Hp by (by rewrite Hperm).
  split; try done.
  - intros r. rewrite <- Hp. apply H2.
  - by rewrite <- Hp.
  - intros r. rewrite <- Hp. apply H4.
  - intros k. rewrite <- Hp. apply H5.
Qed.

Lemma flowInv_put r todo blockQ blockCache i arr :
  flowInv (r :: todo) blockQ blockCache i → bread r = Ok arr →
  flowInv todo (blockQ ++ [(r, arr)]) blockCache i.
Proof.
  intros [H1 H2 H3 H4 H5 H6 H7] Hread.
  assert (todo ++ (blockQ ++ [(r, arr)]).*1 ≡ₚ (r :: todo) ++ blockQ.*1) as Hp.
  { rewrite fmap_app. simpl. solve_Permutation. }
  split; try done.
  - intros r'. rewrite Hp. apply H2.
  - by rewrite Hp.
  - intros r'. rewrite Hp. apply H4.
  - intros k. rewrite Hp. apply H5.
  - intros r' arr' [Hin|Hin%list_elem_of_singleton]%elem_of_app.
    + by apply H6.
    + by injection Hin as -> ->.
Qed.

Lemma flowInv_dequeue todo blockQ blockCache i :
  flowInv todo blockQ blockCache i →
  flowInv todo (drop 1 blockQ) (drained blockQ blockCache) i.
Proof.
  intros Hinv. destruct blockQ as [|[r arr] blockQ]; [done|].
  destruct Hinv as [H1 H2 H3 H4 H5 H6 H7]. simpl in *. rewrite drop_0.
  assert (todo ++ r :: blockQ.*1 ≡ₚ r :: todo ++ blockQ.*1) as Hp
    by (by rewrite Permutation_middle).
  rewrite Hp in H3. rewrite fmap_cons in H3. apply NoDup_cons in H3 as [Hr H3].
  assert (∀ r', r' ∈ todo ++ blockQ.*1 → keyOf r' ≠ keyOf r) as Hne.
  { intros r' Hr' Heq. apply Hr. rewrite <- Heq.
    apply list_elem_of_fmap. eauto. }
  unfold BlockCache_add. fold (keyOf r). split; try done.
  - intros r' Hr'. apply H2. rewrite Hp. by right.
  - intros r' Hr'. rewrite lookup_insert_ne by (symmetry; by apply Hne).
    apply H4. rewrite Hp. by right.
  - intros k. rewrite <- H5, Hp, fmap_cons, elem_of_cons.
    destruct (decide (k = keyOf r)) as [->|Hk].
    + rewrite lookup_insert_eq. split; [intros _|intros _; right]; eauto.
    + rewrite lookup_insert_ne by done. tauto.
  - intros r' arr' Hin. apply H6. by right.
  - intros fn b blockSpec arr'.
    destruct (decide (makeKey fn b = keyOf r)) as [Hk|Hk].
    + rewrite Hk, lookup_insert_eq. intros [= <- <-].
      injection Hk as -> ->. split; [done|]. exists r. split_and!; try done.
      * apply H2. rewrite Hp. by left.
      * apply H6. by left.
    + rewrite lookup_insert_ne by done. apply H7.
Qed.

Lemma liveKey_S i k b :
  blockList !! i = Some b →
  liveKey (S i) k ↔ liveKey i k ∧ k.2 ≠ b.
Proof.
  intros Hi. unfold liveKey. split.
  - intros (Hk & j & Hj & Hle). split; [split; [done|]; exists j; split; [done|lia]|].
    intros Hb. rewrite Hb in Hj.
    pose proof (NoDup_lookup _ _ _ _ tiles_nodup Hi Hj). lia.
  - intros ((Hk & j & Hj & Hle) & Hb). split; [done|]. exists j. split; [done|].
    destruct (decide (i = j)) as [->|]; [|lia]. congruence.
Qed.

Lemma flowInv_null todo blockQ blockCache i b :
  flowInv todo blockQ blockCache i →
  blockList !! i = Some b → filesForBlock !! b = None →
  flowInv todo blockQ blockCache (S i).
Proof.
  intros [H1 H2 H3 H4 H5 H6 H7] Hi Hnone. split; try done.
  - by apply lookup_lt_Some in Hi.
  - intros k. rewrite H5, (liveKey_S _ _ _ Hi). split; [|tauto].
    intros Hlive. split; [done|]. intros Hb.
    destruct Hlive as [(r & -> & Hr)%list_elem_of_fmap _].
    destruct (reads_planned r Hr) as (_ & files & Hfiles & _).
    simpl in Hb. congruence.
Qed.

Lemma flowInv_write todo blockQ blockCache i b files arrs :
  flowInv todo blockQ blockCache i →
  blockList !! i = Some b → filesForBlock !! b = Some files →
  Forall2 (cachedAs blockCache b) files arrs →
  flowInv todo blockQ
    (foldl (λ c fn, BlockCache_remove c fn b) blockCache files) (S i).
Proof.
  intros [H1 H2 H3 H4 H5 H6 H7] Hi Hfiles Hcached.
  assert (∀ k, k ∈ keyOf <$> blockReadingList → k.2 = b → k.1 ∈ files) as Hall.
  { intros k (r & -> & Hr)%list_elem_of_fmap Hb. simpl in *.
    destruct (reads_planned r Hr) as (_ & files' & Hfiles' & Hin). congruence. }
  assert (∀ fn, fn ∈ files → is_Some (blockCache !! makeKey fn b)) as Hin.
  { intros fn Hfn.
    destruct (proj1 (list_elem_of_lookup _ _) Hfn) as [n Hn].
    destruct (Forall2_lookup_l _ _ _ _ _ Hcached Hn) as (arr & _ & bs & Hbs).
    by eexists. }
  split; try done.
  - by apply lookup_lt_Some in Hi.
  - intros r Hr. rewrite foldl_remove_lookup. destruct (decide _); [done|].
    by apply H4.
  - intros k. rewrite (liveKey_S _ _ _ Hi), <- H5, foldl_remove_lookup.
    destruct (decide (k.2 = b ∧ k.1 ∈ files)) as [[Hb Hk]|Hn].
    + split; [|tauto]. intros [Hk'|[? ?]]; [|done].
      apply list_elem_of_fmap in Hk' as (r & -> & Hr).
      specialize (H4 r Hr). specialize (Hin _ Hk). simpl in *.
      unfold keyOf in H4. rewrite <- Hb, H4 in Hin. by destruct Hin.
    + split; [|tauto]. intros Hk. split; [done|]. intros Hb. apply Hn.
      split; [done|]. apply Hall; [|done]. by apply H5.
  - intros fn b' blockSpec arr. rewrite foldl_remove_lookup.
    destruct (decide _); [done|]. apply H7.
Qed.

(** The write of a tile: at the tile's offset, all-null when the tile
    has no input, and otherwise the merge, in the order of the tile's file
    list, of the padded blocks of the reads of these files for the tile. *)
Definition tileWrite (b : BlockSpec) (wc : WriteCall) : Prop :=
  wc_xoff wc = left b ∧ wc_yoff wc = top b ∧
  match filesForBlock !! b with
  | None => wc_array wc = bnull b
  | Some files =>
      ∃ arrs,
        Forall2 (λ fn arr,
                   ∃ r, r ∈ blockReadingList ∧ filename r = fn ∧
                        outblock r = b ∧ bread r = Ok arr) files arrs ∧
        mergeInputs arrs (nullVal outImgInfo) = Ok (wc_array wc)
  end.

(** The three outcomes of an iteration body that does not raise. *)
Lemma writeFunc_body_cases blockQ st blockQ' st' :
  bbody blockQ st = Ok (blockQ', st') →
  blockQ' = drop 1 blockQ ∧
  ∃ b, blockList !! w_i st = Some b ∧
    let blockCache := drained blockQ (w_blockCache st) in
    (filesForBlock !! b = None ∧
     st' = mkWriterState (S (w_i st)) blockCache
             (w_written st ++ [mkWriteCall (bnull b) (left b) (top b)])) ∨
    (is_Some (filesForBlock !! b) ∧
     st' = mkWriterState (w_i st) blockCache (w_written st)) ∨
    (∃ files arrs outArr,
       filesForBlock !! b = Some files ∧
       Forall2 (cachedAs blockCache b) files arrs ∧
       mergeInputs arrs (nullVal outImgInfo) = Ok outArr ∧
       st' = mkWriterState (S (w_i st))
               (foldl (λ c fn, BlockCache_remove c fn b) blockCache files)
               (w_written st ++ [mkWriteCall outArr (left b) (top b)])).
Proof.
  unfold writeFunc_body, Result_bind. intros Hbody.
  destruct blockQ as [|[blockInfo0 arr0] blockQ]; simpl in *.
  - destruct (blockList !! w_i st) as [b|] eqn:Hb; [|done].
    destruct (filesForBlock !! b) as [files|] eqn:Hfiles.
    + case_bool_decide as Hcond.
      * destruct (getInputsForBlock _ _ _) as [[inputs|]|e] eqn:Hget; [| |done].
        -- destruct (mergeInputs _ _) as [outArr|e] eqn:Hmerge; [|done].
           injection Hbody as <- <-. split; [done|]. exists b. split; [done|].
           right. right. exists files, inputs, outArr. split_and!; try done.
           unfold getInputsForBlock in Hget. rewrite Hfiles in Hget.
           apply getInputs_loop_Some in Hget as (arrs' & -> & Hall). done.
        -- injection Hbody as <- <-. split; [done|]. exists b. split; [done|].
           right. left. split; [by eexists|done].
      * injection Hbody as <- <-. split; [done|]. exists b. split; [done|].
        right. left. split; [by eexists|done].
    + destruct (numpy_zeros _ _ _) as [zeros|e] eqn:Hz; [|done].
      injection Hbody as <- <-. split; [done|]. exists b. split; [done|].
      left. split; [done|].
      by rewrite (ndarray_fill_zeros _ _ _ _ _ Hz).
  - destruct (blockList !! w_i st) as [b|] eqn:Hb; [|done].
    destruct (filesForBlock !! b) as [files|] eqn:Hfiles.
    + destruct (getInputsForBlock _ _ _) as [[inputs|]|e] eqn:Hget; [| |done].
      * destruct (mergeInputs _ _) as [outArr|e] eqn:Hmerge; [|done].
        injection Hbody as <- <-. rewrite drop_0. split; [done|].
        exists b. split; [done|].
        right. right. exists files, inputs, outArr. split_and!; try done.
        unfold getInputsForBlock in Hget. rewrite Hfiles in Hget.
        apply getInputs_loop_Some in Hget as (arrs' & -> & Hall). done.
      * injection Hbody as <- <-. rewrite drop_0. split; [done|].
        exists b. split; [done|].
        right. left. split; [by eexists|done].
    + destruct (numpy_zeros _ _ _) as [zeros|e] eqn:Hz; [|done].
      injection Hbody as <- <-. rewrite drop_0. split; [done|].
      exists b. split; [done|].
      left. split; [done|].
      by rewrite (ndarray_fill_zeros _ _ _ _ _ Hz).
Qed.

(** The reads the workers have still to do. *)
Definition todoOf (s : System) : list BlockReadingSpec :=
  concat (r_blocksToRead <$> sys_readers s).

(** A worker that is done has read all its blocks, or stands at the read
    that raised. *)
Definition readerInv (rd : Reader) : Prop :=
  match r_future rd with
  | Running => True
  | Finished None => r_blocksToRead rd = []
  | Finished (Some e) =>
      ∃ r rest, r_blocksToRead rd = r :: rest ∧ bread r = Raise e
  end.

Record bandInv (s : System) : Prop := {
  band_flow :
    flowInv (todoOf s) (sys_blockQ s) (w_blockCache (sys_writer s))
      (w_i (sys_writer s));
  band_readers : Forall readerInv (sys_readers s);
  band_written_length :
    length (w_written (sys_writer s)) = w_i (sys_writer s);
  band_written :
    ∀ j b wc,
      blockList !! j = Some b → w_written (sys_writer s) !! j = Some wc →
      tileWrite b wc;
  band_returned :
    sys_phase s = Returned → w_i (sys_writer s) = length blockList
}.

Lemma bandInv_init (blocksPerThread : list (list BlockReadingSpec)) :
  concat blocksPerThread ≡ₚ blockReadingList →
  bandInv (initSystem blocksPerThread).
Proof.
  intros Hperm. split; simpl; try done.
  - apply (flowInv_perm blockReadingList).
    { unfold todoOf. simpl. rewrite <- list_fmap_compose. simpl.
      by rewrite list_fmap_id. }
    split; simpl; rewrite ?app_nil_r; try done.
    + lia.
    + intros k. split.
      * intros [Hk|[? ?]]; [|done]. split; [done|].
        apply list_elem_of_fmap in Hk as (r & -> & Hr).
        destruct (reads_planned r Hr) as [Hin _].
        apply list_elem_of_lookup in Hin as [j Hj]. exists j. split; [done|lia].
      * intros [Hk _]. by left.
    + intros r arr Hin. by apply elem_of_nil in Hin.
  - apply Forall_fmap, Forall_forall. by intros.
Qed.

Lemma bandInv_reader_step s k rd rd' blockQ' :
  sys_readers s !! k = Some rd →
  reader_step drv bandNum blockQ_maxsize (nullVal outImgInfo) rd
    (sys_blockQ s) = Some (rd', blockQ') →
  bandInv s →
  bandInv (mkSystem (<[k := rd']> (sys_readers s)) blockQ' (sys_writer s)
             (sys_phase s)).
Proof.
  intros Hk Hstep [Hflow Hreaders Hlen Hwritten Hret].
  destruct (concat_fmap_insert r_blocksToRead _ _ _ rd' Hk) as [Htodo Htodo'].
  unfold reader_step in Hstep.
  destruct (r_future rd) eqn:Hfut; [|done].
  destruct (r_blocksToRead rd) as [|r rest] eqn:Hlist.
  - injection Hstep as <- <-. split; simpl; try done.
    + unfold todoOf in *. simpl. rewrite Htodo'. simpl. by rewrite Htodo in Hflow.
    + by apply Forall_insert.
  - destruct (bread r) as [arr|e] eqn:Hread.
    + destruct (decide _); [done|]. injection Hstep as <- <-.
      split; simpl; try done.
      * unfold todoOf in *. simpl. rewrite Htodo'. simpl.
        apply flowInv_put; [|done].
        eapply flowInv_perm; [|exact Hflow]. rewrite Htodo.
        by rewrite Permutation_middle.
      * by apply Forall_insert.
    + injection Hstep as <- <-. split; simpl; try done.
      * unfold todoOf in *. simpl. rewrite Htodo'. simpl. by rewrite Htodo in Hflow.
      * apply Forall_insert; [done|]. unfold readerInv. simpl. eauto.
Qed.

Lemma cachedAs_reads blockCache b files arrs todo blockQ i :
  flowInv todo blockQ blockCache i →
  Forall2 (cachedAs blockCache b) files arrs →
  Forall2 (λ fn arr,
             ∃ r, r ∈ blockReadingList ∧ filename r = fn ∧
                  outblock r = b ∧ bread r = Ok arr) files arrs.
Proof.
  intros Hflow Hcached. eapply Forall2_impl; [exact Hcached|].
  intros fn arr [blockSpec Hk].
  by destruct (flow_cache _ _ _ _ Hflow _ _ _ _ Hk).
Qed.

Lemma bandInv_writer_step s s' : bwstep s = Some s' → bandInv s → bandInv s'.
Proof.
  intros Hstep [Hflow Hreaders Hlen Hwritten Hret].
  unfold writer_step in Hstep. destruct (sys_phase s) eqn:Hphase; try done.
  - case_bool_decide as Hlt.
    + destruct (bbody _ _) as [[blockQ' st']|e] eqn:Hbody;
        injection Hstep as <-; [|by split].
      apply writeFunc_body_cases in Hbody as (-> & b & Hb & Hcases).
      apply flowInv_dequeue in Hflow.
      destruct Hcases as [[Hnone ->]|[[Hsome ->]|
        (files & arrs & outArr & Hfiles & Hcached & Hmerge & ->)]];
        split; simpl; try done.
      * by eapply flowInv_null.
      * rewrite length_app. simpl. lia.
      * intros j b' wc Hj. rewrite lookup_app.
        destruct (w_written (sys_writer s) !! j) as [wc'|] eqn:Hwc.
        { intros [= <-]. by eapply Hwritten. }
        apply lookup_ge_None in Hwc. rewrite Hlen.
        destruct (j - w_i (sys_writer s))%nat as [|?] eqn:Hd; [|done].
        intros [= <-]. assert (j = w_i (sys_writer s)) as -> by
          (apply lookup_lt_Some in Hj; apply lookup_lt_Some in Hb; lia).
        assert (b' = b) as -> by congruence.
        unfold tileWrite. simpl. by rewrite Hnone.
      * by eapply flowInv_write.
      * rewrite length_app. simpl. lia.
      * intros j b' wc Hj. rewrite lookup_app.
        destruct (w_written (sys_writer s) !! j) as [wc'|] eqn:Hwc.
        { intros [= <-]. by eapply Hwritten. }
        apply lookup_ge_None in Hwc. rewrite Hlen.
        destruct (j - w_i (sys_writer s))%nat as [|?] eqn:Hd; [|done].
        intros [= <-]. assert (j = w_i (sys_writer s)) as -> by
          (apply lookup_lt_Some in Hj; apply lookup_lt_Some in Hb; lia).
        assert (b' = b) as -> by congruence.
        unfold tileWrite. simpl. rewrite Hfiles. split_and!; try done.
        exists arrs. split; [|done]. by eapply cachedAs_reads.
    + injection Hstep as <-. split; simpl; try done.
      intros _. pose proof (flow_i _ _ _ _ Hflow). lia.
  - destruct (checkReaderExceptions _); injection Hstep as <-; by split.
Qed.

Lemma bandInv_step s s' : bstep s s' → bandInv s → bandInv s'.
Proof.
  intros [s0 k rd rd' blockQ' Hk Hstep|s0 s0' Hstep].
  - by eapply bandInv_reader_step.
  - by apply bandInv_writer_step.
Qed.

Lemma bandInv_rtc s s' : rtc bstep s s' → bandInv s → bandInv s'.
Proof.
  induction 1 as [|s1 s2 s3 Hstep _ IH]; [done|].
  intros Hinv. apply IH. by eapply bandInv_step.
Qed.

(** When the writer has returned, every tile is written, the queue and
    the cache are empty, and every worker has read all its blocks. *)
Lemma bandInv_returned s :
  bandInv s → sys_phase s = Returned →
  w_i (sys_writer s) = length blockList ∧
  sys_blockQ s = [] ∧ w_blockCache (sys_writer s) = ∅ ∧
  Forall (λ rd, r_blocksToRead rd = [] ∧ ¬ faultedFuture (r_future rd))
    (sys_readers s).
Proof.
  intros [Hflow Hreaders Hlen Hwritten Hret] Hphase.
  specialize (Hret Hphase).
  assert (∀ k, ¬ liveKey (w_i (sys_writer s)) k) as Hdead.
  { intros k (_ & j & Hj & Hle). apply lookup_lt_Some in Hj. lia. }
  assert (todoOf s ++ (sys_blockQ s).*1 = []) as Hnil.
  { destruct (todoOf s ++ (sys_blockQ s).*1) as [|r l] eqn:Hl; [done|].
    destruct (Hdead (keyOf r)). apply (flow_live _ _ _ _ Hflow). left.
    rewrite Hl. rewrite fmap_cons. by left. }
  apply app_eq_nil in Hnil as [Htodo Hq]. apply fmap_nil_inv in Hq.
  split_and!; try done.
  - apply map_empty. intros k.
    destruct (w_blockCache (sys_writer s) !! k) eqn:Hk; [|done].
    destruct (Hdead k). apply (flow_live _ _ _ _ Hflow). right. by eexists.
  - apply Forall_forall. intros rd Hrd.
    assert (r_blocksToRead rd = []) as Hempty.
    { destruct (r_blocksToRead rd) as [|r l] eqn:Hl; [done|].
      assert (r ∈ todoOf s) as Hin; [|rewrite Htodo in Hin; by apply elem_of_nil in Hin].
      apply elem_of_concat. exists (r :: l). split; [|by left].
      apply list_elem_of_fmap. eauto. }
    split; [done|]. intros [e He].
    rewrite Forall_forall in Hreaders. specialize (Hreaders rd Hrd).
    unfold readerInv in Hreaders. rewrite He in Hreaders.
    destruct Hreaders as (r & rest & Hr & _). congruence.
Qed.

(** *** Runs in which every read of the plan succeeds *)

Hypothesis tiles_sized : ∀ b, b ∈ blockList → 0 ≤ xsize b ∧ 0 ≤ ysize b.
Hypothesis reads_ok :
  ∀ r, r ∈ blockReadingList →
       ∃ arr, bread r = Ok arr ∧
              shape arr = (ysize (outblock r), xsize (outblock r)).

Lemma todoOf_elem s rd r :
  rd ∈ sys_readers s → r ∈ r_blocksToRead rd → r ∈ todoOf s.
Proof.
  intros Hrd Hr. apply elem_of_concat. exists (r_blocksToRead rd).
  split; [|done]. apply list_elem_of_fmap. eauto.
Qed.

Lemma bandInv_reader_running s rd r rest :
  bandInv s → rd ∈ sys_readers s → r_blocksToRead rd = r :: rest →
  r_future rd = Running ∧ ∃ arr, bread r = Ok arr.
Proof.
  intros [Hflow Hreaders _ _ _] Hrd Hlist.
  assert (r ∈ blockReadingList) as Hr.
  { apply (flow_planned _ _ _ _ Hflow). apply elem_of_app. left.
    eapply todoOf_elem; [done|]. rewrite Hlist. by left. }
  destruct (reads_ok r Hr) as (arr & Hread & _).
  split; [|by eexists].
  rewrite Forall_forall in Hreaders. specialize (Hreaders rd Hrd).
  unfold readerInv in Hreaders.
  destruct (r_future rd) as [|[e|]]; [done| |congruence].
  destruct Hreaders as (r' & rest' & Hlist' & Hraise). congruence.
Qed.

Lemma bandInv_check_ok s :
  bandInv s → checkReaderExceptions (r_future <$> sys_readers s) = Ok tt.
Proof.
  intros Hinv.
  destruct (checkReaderExceptions _) as [[]|e] eqn:Hcheck; [done|].
  apply checkReaderExceptions_Raise in Hcheck as (k & Hk & _).
  apply list_lookup_fmap_Some in Hk as (rd & Hfut & Hrd).
  apply list_elem_of_lookup_2 in Hrd.
  pose proof (band_readers _ Hinv) as Hreaders.
  rewrite Forall_forall in Hreaders. specialize (Hreaders rd Hrd).
  unfold readerInv in Hreaders. rewrite <- Hfut in Hreaders.
  destruct Hreaders as (r & rest & Hlist & Hraise).
  destruct (bandInv_reader_running _ _ _ _ Hinv Hrd Hlist) as [? _].
  congruence.
Qed.

Lemma flowInv_cache_shape todo blockQ blockCache i fn b blockSpec arr :
  flowInv todo blockQ blockCache i →
  blockCache !! makeKey fn b = Some (blockSpec, arr) →
  shape arr = (ysize b, xsize b).
Proof.
  intros Hflow Hk.
  destruct (flow_cache _ _ _ _ Hflow _ _ _ _ Hk) as (_ & r & Hr & _ & <- & Hread).
  destruct (reads_ok r Hr) as (arr' & Hread' & Hshape). congruence.
Qed.

Lemma writeFunc_body_ok todo blockQ st :
  flowInv todo blockQ (w_blockCache st) (w_i st) →
  (w_i st < length blockList)%nat →
  ∃ blockQ' st', bbody blockQ st = Ok (blockQ', st').
Proof.
  intros Hflow Hlt. apply flowInv_dequeue in Hflow.
  rewrite writeFunc_body_unfold. cbv zeta.
  destruct (lookup_lt_is_Some_2 _ _ Hlt) as [b Hb]. rewrite Hb.
  destruct (filesForBlock !! b) as [files|] eqn:Hfiles.
  - case_bool_decide; [|eauto].
    unfold getInputsForBlock. rewrite Hfiles.
    destruct (getInputs_loop_uniform (drained blockQ (w_blockCache st)) b
                files (ysize b, xsize b) files None []) as [res Hres].
    { intros fn blockSpec arr. by eapply flowInv_cache_shape. }
    { done. }
    rewrite Hres. simpl. destruct res as [inputs|]; [|eauto].
    apply getInputs_loop_Some in Hres as (arrs & -> & Hall). simpl.
    destruct (mergeInputs_ok arrs (nullVal outImgInfo) (ysize b, xsize b))
      as [outArr ->]; [| |simpl; eauto].
    + destruct (files_planned _ _ Hfiles) as [Hne _].
      apply Forall2_length in Hall. destruct arrs; [|done].
      by destruct files.
    + intros a (n & Hn)%list_elem_of_lookup.
      destruct (Forall2_lookup_r _ _ _ _ _ Hall Hn) as (fn & _ & bs & Hk).
      by eapply flowInv_cache_shape.
  - destruct (tiles_sized b) as [Hx Hy]; [by eapply list_elem_of_lookup_2|].
    unfold numpy_zeros. rewrite bool_decide_eq_true_2 by done. simpl. eauto.
Qed.

(** With nothing left to read and an empty queue, the iteration writes
    its tile. *)
Lemma writeFunc_body_advance st :
  flowInv [] [] (w_blockCache st) (w_i st) →
  (w_i st < length blockList)%nat →
  ∃ st', bbody [] st = Ok ([], st') ∧ w_i st' = S (w_i st).
Proof.
  intros Hflow Hlt.
  rewrite writeFunc_body_unfold. cbv zeta. simpl.
  destruct (lookup_lt_is_Some_2 _ _ Hlt) as [b Hb]. rewrite Hb.
  destruct (filesForBlock !! b) as [files|] eqn:Hfiles.
  - destruct (files_planned _ _ Hfiles) as [Hne Hkeys].
    assert (∀ fn, fn ∈ files →
                  ∃ arr, cachedAs (w_blockCache st) b fn arr) as Hcached.
    { intros fn Hfn.
      assert (liveKey (w_i st) (makeKey fn b)) as Hlive.
      { split; [by apply Hkeys|]. exists (w_i st). by split. }
      apply (flow_live _ _ _ _ Hflow) in Hlive as [Hin|[[bs arr] Hk]].
      - by apply elem_of_nil in Hin.
      - exists arr, bs. done. }
    destruct (Forall2_choice _ _ Hcached) as [arrs Harrs].
    assert (∀ a, a ∈ arrs → shape a = (ysize b, xsize b)) as Hshape.
    { intros a (n & Hn)%list_elem_of_lookup.
      destruct (Forall2_lookup_r _ _ _ _ _ Harrs Hn) as (fn & _ & bs & Hk).
      by eapply flowInv_cache_shape. }
    rewrite bool_decide_eq_true_2.
    2:{ right. destruct files as [|fn files]; [done|].
        destruct (Hcached fn) as (arr & bs & Hk); [by left|].
        pose proof (map_size_ne_0_lookup_2 (w_blockCache st) (makeKey fn b)
                      (mk_is_Some _ _ Hk)). lia. }
    unfold getInputsForBlock. rewrite Hfiles.
    pose proof (getInputs_loop_start (w_blockCache st) b files files [] arrs
                  Harrs) as Hloop.
    rewrite app_nil_r in Hloop. rewrite Hloop.
    2:{ intros a1 a2 H1 H2. by rewrite (Hshape a1), (Hshape a2). }
    simpl.
    destruct (mergeInputs_ok arrs (nullVal outImgInfo) (ysize b, xsize b))
      as [outArr ->]; [| |simpl; eauto].
    + apply Forall2_length in Harrs. destruct arrs; [|done]. by destruct files.
    + done.
  - destruct (tiles_sized b) as [Hx Hy]; [by eapply list_elem_of_lookup_2|].
    unfold numpy_zeros. rewrite bool_decide_eq_true_2 by done. simpl. eauto.
Qed.

(** The writer has not raised. *)
Definition notRaised (s : System) : Prop := ∀ e, sys_phase s ≠ Raised e.

Lemma notRaised_step s s' :
  bstep s s' → bandInv s → notRaised s → notRaised s'.
Proof.
  intros [s0 k rd rd' blockQ' Hk Hstep|s0 s0' Hstep] Hinv Hphase; [done|].
  unfold writer_step in Hstep. destruct (sys_phase s0) eqn:Hp; try done.
  - case_bool_decide as Hlt; [|by injection Hstep as <-].
    destruct (writeFunc_body_ok _ _ _ (band_flow _ Hinv) Hlt)
      as (blockQ' & st' & Hbody).
    rewrite Hbody in Hstep. by injection Hstep as <-.
  - rewrite (bandInv_check_ok _ Hinv) in Hstep. by injection Hstep as <-.
Qed.

Lemma notRaised_rtc s s' :
  rtc bstep s s' → bandInv s → notRaised s → bandInv s' ∧ notRaised s'.
Proof.
  induction 1 as [|s1 s2 s3 Hstep _ IH]; [done|].
  intros Hinv Hphase. apply IH.
  - by eapply bandInv_step.
  - by eapply notRaised_step.
Qed.

(** The workers can always read on until nothing is left to read. *)
Lemma readers_drain (n : nat) s :
  bandInv s → (length (todoOf s) ≤ n)%nat →
  ∃ s', rtc bstep s s' ∧ todoOf s' = [] ∧
        sys_writer s' = sys_writer s ∧ sys_phase s' = sys_phase s.
Proof.
  revert s. induction n as [|n IH]; intros s Hinv Hlen.
  { exists s. split_and!; try done. by apply nil_length_inv, Nat.le_0_r. }
  destruct (todoOf s) as [|r0 todo] eqn:Htodo; [by exists s|].
  assert (r0 ∈ todoOf s) as Hin by (rewrite Htodo; by left).
  apply elem_of_concat in Hin as (l & Hl & Hr0).
  apply list_elem_of_fmap in Hl as (rd & -> & Hrd).
  destruct (r_blocksToRead rd) as [|r rest] eqn:Hlist;
    [by apply elem_of_nil in Hr0|].
  destruct (bandInv_reader_running _ _ _ _ Hinv Hrd Hlist)
    as (Hrun & arr & Hread).
  pose proof Hrd as Hrd'. apply list_elem_of_lookup in Hrd' as [k Hk].
  pose proof (reader_put_never_blocks drv bandNum outImgInfo rd (sys_blockQ s)
                r rest arr Hrun Hlist Hread) as Hstep.
  set (s1 := mkSystem (<[k := mkReader rest Running]> (sys_readers s))
               (sys_blockQ s ++ [(r, arr)]) (sys_writer s) (sys_phase s)).
  assert (bstep s s1) as Hs1 by (by eapply step_reader).
  destruct (IH s1) as (s' & Hrun' & Hnil & Hw & Hp).
  - by eapply bandInv_step.
  - destruct (concat_fmap_insert r_blocksToRead _ _ _ (mkReader rest Running)
                Hk) as [H1 H2].
    unfold todoOf in *. simpl. rewrite H2. rewrite H1, Hlist in Htodo.
    apply (f_equal length) in Htodo.
    rewrite !length_app in *. simpl in *. lia.
  - exists s'. split_and!; try done. by eapply rtc_l.
Qed.

(** Twice the iterations the writer needs at most once nothing is left
    to read, plus the pending reader check. *)
Definition iterationsLeft (s : System) : nat :=
  (2 * (length (sys_blockQ s) + (length blockList - w_i (sys_writer s))) +
   match sys_phase s with CheckReaders => 1 | _ => 0 end)%nat.

Lemma writer_finishes (m : nat) s :
  bandInv s → notRaised s → todoOf s = [] → (iterationsLeft s ≤ m)%nat →
  ∃ s', rtc bstep s s' ∧ sys_phase s' = Returned.
Proof.
  revert s. induction m as [|m IH]; intros s Hinv Hphase Htodo Hm;
    unfold iterationsLeft in Hm.
  - destruct (sys_phase s) eqn:Hp.
    + exists (mkSystem (sys_readers s) (sys_blockQ s) (sys_writer s) Returned).
      split; [|done]. apply rtc_once, step_writer. unfold writer_step.
      rewrite Hp, bool_decide_eq_false_2; [done|lia].
    + lia.
    + by exists s.
    + by destruct (Hphase e).
  - destruct (sys_phase s) eqn:Hp.
    + destruct (decide (w_i (sys_writer s) < length blockList)%nat) as [Hlt|Hge].
      * destruct (writeFunc_body_ok _ _ _ (band_flow _ Hinv) Hlt)
          as (blockQ' & st' & Hbody).
        set (s1 := mkSystem (sys_readers s) blockQ' st' CheckReaders).
        assert (bwstep s = Some s1) as Hstep.
        { unfold writer_step. by rewrite Hp, bool_decide_eq_true_2, Hbody. }
        assert (bandInv s1) as Hinv1 by (by eapply bandInv_writer_step).
        destruct (IH s1) as (s' & Hrun & Hret); try done.
        -- unfold iterationsLeft. simpl.
           pose proof (flow_i _ _ _ _ (band_flow _ Hinv1)) as Hi'. simpl in Hi'.
           destruct (sys_blockQ s) as [|item blockQ] eqn:Hq.
           ++ pose proof (band_flow _ Hinv) as Hflow.
              rewrite Htodo, Hq in Hflow.
              destruct (writeFunc_body_advance _ Hflow Hlt)
                as (st'' & Hbody' & Hi).
              rewrite Hbody' in Hbody. injection Hbody as <- <-.
              simpl in *. lia.
           ++ destruct (writeFunc_body_cases _ _ _ _ Hbody)
                as (-> & b & Hb & Hcases). simpl. rewrite drop_0.
              assert (w_i (sys_writer s) ≤ w_i st')%nat.
              { destruct Hcases as [[_ ->]|[[_ ->]|(? & ? & ? & _ & _ & _ & ->)]];
                  simpl; lia. }
              simpl in *. lia.
        -- exists s'. split; [|done]. eapply rtc_l; [|done]. by apply step_writer.
      * exists (mkSystem (sys_readers s) (sys_blockQ s) (sys_writer s) Returned).
        split; [|done]. apply rtc_once, step_writer. unfold writer_step.
        by rewrite Hp, bool_decide_eq_false_2.
    + set (s1 := mkSystem (sys_readers s) (sys_blockQ s) (sys_writer s) LoopTest).
      assert (bwstep s = Some s1) as Hstep.
      { unfold writer_step. by rewrite Hp, (bandInv_check_ok _ Hinv). }
      destruct (IH s1) as (s' & Hrun & Hret); try done.
      * by eapply bandInv_writer_step.
      * unfold iterationsLeft. simpl. lia.
      * exists s'. split; [|done]. eapply rtc_l; [|done]. by apply step_writer.
    + by exists s.
    + by destruct (Hphase e).
Qed.

(** From every state of a run the writer can still return. *)
Lemma band_completes s :
  bandInv s → notRaised s → ∃ s', rtc bstep s s' ∧ sys_phase s' = Returned.
Proof.
  intros Hinv Hphase.
  destruct (readers_drain _ s Hinv (Nat.le_refl _)) as (s1 & Hrun1 & Htodo & _ & Hp).
  destruct (notRaised_rtc _ _ Hrun1 Hinv Hphase) as [Hinv1 Hphase1].
  destruct (writer_finishes _ s1 Hinv1 Hphase1 Htodo (Nat.le_refl _))
    as (s' & Hrun & Hret).
  exists s'. split; [|done]. by etrans.
Qed.

End BandRun.

(** *** The plan of the analysis *)

Section PlanFacts.
Context {GeoTransform : Type}.
Variable transformToFilePixelCoords :
  BlockSpec → GeoTransform → ImageInfo → Z * Z * Z * Z.
Variable outGeoTransform : GeoTransform.
Variable filelist : list string.
Variable imgInfoDict : gmap string ImageInfo.
Hypothesis filelist_known : ∀ fn, fn ∈ filelist → is_Some (imgInfoDict !! fn).

Local Abbreviation inputs :=
  (inputsOf transformToFilePixelCoords outGeoTransform imgInfoDict filelist).
Local Abbreviation finblock :=
  (fileInblock transformToFilePixelCoords outGeoTransform imgInfoDict).

(** The reads of a tile list: tile by tile, and for each tile its
    intersecting files in the order of the file list. *)
Definition readsOf (blockList : list BlockSpec) : list BlockReadingSpec :=
  b ← blockList;
  (λ fn, mkBlockReadingSpec b fn (finblock b fn)) <$> inputs b.

Lemma fmap_zip_fmap {X Y W : Type} (g : X → Y) (h : X → Y → W) (l : list X) :
  (λ p, h p.1 p.2) <$> zip l (g <$> l) = (λ x, h x (g x)) <$> l.
Proof. induction l as [|x l IH]; csimpl; [done|by f_equal]. Qed.

Lemma makeBlockReadingList_closed (blockList : list BlockSpec) :
  makeBlockReadingList
    (blocksWithInputs transformToFilePixelCoords outGeoTransform filelist
       imgInfoDict blockList) =
  readsOf blockList.
Proof.
  induction blockList as [|b blockList IH]; [done|].
  rewrite blocksWithInputs_cons. unfold readsOf. csimpl.
  destruct (decide (inputs b = [])) as [Hnil|Hne].
  - rewrite Hnil. simpl. exact IH.
  - unfold makeBlockReadingList. csimpl. f_equal; [|exact IH].
    apply (fmap_zip_fmap (finblock b) (mkBlockReadingSpec b)).
Qed.

Lemma elem_of_readsOf (blockList : list BlockSpec) (r : BlockReadingSpec) :
  r ∈ readsOf blockList ↔
  outblock r ∈ blockList ∧ filename r ∈ inputs (outblock r) ∧
  inblock r = finblock (outblock r) (filename r).
Proof.
  unfold readsOf. rewrite list_elem_of_bind. split.
  - intros (b & (fn & -> & Hfn)%list_elem_of_fmap & Hb). by simpl.
  - intros (Hb & Hfn & Hin). exists (outblock r). split; [|done].
    apply list_elem_of_fmap. exists (filename r). split; [|done].
    destruct r as [b fn ib]. simpl in *. by rewrite Hin.
Qed.

Lemma NoDup_readsOf_keys (blockList : list BlockSpec) :
  NoDup blockList → NoDup filelist → NoDup (keyOf <$> readsOf blockList).
Proof.
  intros Hblocks Hfiles. apply NoDup_fmap_2_strong.
  - intros r1 r2 (_ & _ & H1)%elem_of_readsOf (_ & _ & H2)%elem_of_readsOf.
    unfold keyOf, makeKey. intros [= Hfn Hb].
    destruct r1 as [b1 fn1 ib1], r2 as [b2 fn2 ib2]. simpl in *. congruence.
  - unfold readsOf. apply NoDup_bind; [| |done].
    + intros b1 b2 r _ _ (fn1 & -> & _)%list_elem_of_fmap
        (fn2 & Heq & _)%list_elem_of_fmap. by injection Heq.
    + intros b _. apply NoDup_fmap_2_strong; [|by apply NoDup_filter].
      intros fn1 fn2 _ _ Heq. by injection Heq.
Qed.

(** For a list of distinct tiles, [filesForBlock] has the intersecting
    files of each tile that has some, in the order of the file list. *)
Lemma findInputsPerBlock_NoDup (blockList : list BlockSpec) :
  NoDup blockList →
  ∃ filesForBlock : gmap BlockSpec (list string),
    findInputsPerBlock transformToFilePixelCoords blockList outGeoTransform
      filelist imgInfoDict =
    Some (blocksWithInputs transformToFilePixelCoords outGeoTransform
            filelist imgInfoDict blockList, filesForBlock) ∧
    ∀ b, filesForBlock !! b =
         if decide (b ∈ blockList ∧ inputs b ≠ []) then Some (inputs b)
         else None.
Proof.
  intros Hnodup.
  destruct (findInputsPerBlock_spec transformToFilePixelCoords outGeoTransform
              filelist imgInfoDict filelist_known blockList)
    as (ffb & Hrun & Hffb).
  exists ffb. split; [done|]. intros b. rewrite Hffb.
  destruct (decide (b ∈ blockList)) as [Hb|Hb].
  - rewrite (occurrences_NoDup _ _ Hnodup Hb). simpl. rewrite app_nil_r.
    destruct (decide (inputs b = [])) as [Hnil|Hne].
    + rewrite decide_True by (by right). rewrite decide_False; [done|tauto].
    + rewrite decide_False by (intros [?|?]; done).
      by rewrite decide_True.
  - assert (occurrences b blockList = 0%nat) as ->.
    { destruct (occurrences b blockList) eqn:Hocc; [done|].
      destruct Hb. apply occurrences_pos. lia. }
    rewrite decide_True by (by left). rewrite decide_False; [done|tauto].
Qed.

End PlanFacts.

Section AnalysisFacts.
Context {GeoTransform : Type}.
Variable transformToFilePixelCoords :
  BlockSpec → GeoTransform → ImageInfo → Z * Z * Z * Z.
Variable outImgInfo : ImageInfo.
Variable outGeoTransform : GeoTransform.
Variable filelist : list string.
Variable imgInfoDict : gmap string ImageInfo.
Variable blocksize : Z.
Variable numthreads : nat.
Variable fuel : nat.
Hypothesis blocksize_pos : 0 < blocksize.
Hypothesis enough_fuel :
  Z.max (nrows outImgInfo) (ncols outImgInfo) ≤ Z.of_nat fuel.
Hypothesis filelist_known : ∀ fn, fn ∈ filelist → is_Some (imgInfoDict !! fn).

Local Abbreviation ainputs :=
  (inputsOf transformToFilePixelCoords outGeoTransform imgInfoDict filelist).
Local Abbreviation areads :=
  (readsOf transformToFilePixelCoords outGeoTransform filelist imgInfoDict).

(** What the analysis returns. *)
Lemma doMosaic_analysis_closed :
  let blockList :=
    rowMajorTiles (nrows outImgInfo) (ncols outImgInfo) blocksize in
  ∃ filesForBlock : gmap BlockSpec (list string),
    doMosaic_analysis transformToFilePixelCoords fuel outImgInfo
      outGeoTransform filelist imgInfoDict blocksize numthreads =
    Some (blockList, filesForBlock,
          divideBlocksByThread (areads blockList) numthreads) ∧
    ∀ b, filesForBlock !! b =
         if decide (b ∈ blockList ∧ ainputs b ≠ []) then Some (ainputs b)
         else None.
Proof.
  intros blockList. unfold doMosaic_analysis.
  destruct (findInputsPerBlock_NoDup transformToFilePixelCoords
              outGeoTransform filelist imgInfoDict filelist_known blockList)
    as (ffb & Hrun & Hffb).
  { by apply NoDup_rowMajorTiles. }
  exists ffb. split; [|done].
  destruct outImgInfo as [nc nr nb dt nv]. simpl in *.
  rewrite (makeOutputBlockList_closed nr nc blocksize blocksize_pos fuel nb dt nv
             enough_fuel). simpl.
  fold blockList. rewrite Hrun. simpl.
  by rewrite makeBlockReadingList_closed.
Qed.

Hypothesis filelist_nodup : NoDup filelist.
Hypothesis numthreads_pos : (1 ≤ numthreads)%nat.

(** The plan of the analysis is one a band's run can follow. *)
Lemma doMosaic_analysis_plan :
  ∃ blockList filesForBlock blocksPerThread,
    doMosaic_analysis transformToFilePixelCoords fuel outImgInfo
      outGeoTransform filelist imgInfoDict blocksize numthreads =
    Some (blockList, filesForBlock, blocksPerThread) ∧
    NoDup blockList ∧
    NoDup (keyOf <$> concat blocksPerThread) ∧
    (∀ r, r ∈ concat blocksPerThread →
          outblock r ∈ blockList ∧
          ∃ files, filesForBlock !! outblock r = Some files ∧
                   filename r ∈ files) ∧
    (∀ b files, filesForBlock !! b = Some files →
                files ≠ [] ∧
                ∀ fn, fn ∈ files →
                      makeKey fn b ∈ keyOf <$> concat blocksPerThread) ∧
    (∀ b, b ∈ blockList → 0 ≤ xsize b ∧ 0 ≤ ysize b).
Proof.
  destruct doMosaic_analysis_closed as (ffb & Hrun & Hffb).
  set (blockList :=
         rowMajorTiles (nrows outImgInfo) (ncols outImgInfo) blocksize) in *.
  pose proof (divideBlocksByThread_concat (areads blockList) numthreads
                numthreads_pos) as Hperm.
  assert (NoDup blockList) as Hnodup by (by apply NoDup_rowMajorTiles).
  eexists _, _, _. split; [exact Hrun|]. split_and!.
  - done.
  - rewrite Hperm. by apply NoDup_readsOf_keys.
  - intros r. rewrite Hperm. intros (Hb & Hfn & _)%elem_of_readsOf.
    split; [done|]. exists (ainputs (outblock r)). split; [|done].
    rewrite Hffb, decide_True; [done|]. split; [done|].
    intros Hnil. rewrite Hnil in Hfn. by apply elem_of_nil in Hfn.
  - intros b files. rewrite Hffb.
    destruct (decide _) as [[Hb Hne]|]; [|done]. intros [= <-].
    split; [done|]. intros fn Hfn. rewrite Hperm.
    apply list_elem_of_fmap.
    exists (mkBlockReadingSpec b fn
              (fileInblock transformToFilePixelCoords outGeoTransform
                 imgInfoDict b fn)).
    split; [done|]. by apply elem_of_readsOf.
  - intros b Hb.
    pose proof (rowMajorTiles_sizes _ _ _ b blocksize_pos Hb). lia.
Qed.

End AnalysisFacts.

Section BandTheorems.
Context {GeoTransform : Type}.
Variable transformToFilePixelCoords :
  BlockSpec → GeoTransform → ImageInfo → Z * Z * Z * Z.
Variable GDALTypeCodeToNumericTypeCode : Z → Z.
Variable drv : RasterDriver.
Variable bandNum : Z.
Variable outImgInfo : ImageInfo.
Variable outGeoTransform : GeoTransform.
Variable filelist : list string.
Variable imgInfoDict : gmap string ImageInfo.
Variable blocksize : Z.
Variable numthreads : nat.
Variable fuel : nat.
Variable blockList : list BlockSpec.
Variable filesForBlock : gmap BlockSpec (list string).
Variable blocksPerThread : list (list BlockReadingSpec).
Hypothesis blocksize_pos : 0 < blocksize.
Hypothesis enough_fuel :
  Z.max (nrows outImgInfo) (ncols outImgInfo) ≤ Z.of_nat fuel.
Hypothesis filelist_known : ∀ fn, fn ∈ filelist → is_Some (imgInfoDict !! fn).
Hypothesis filelist_nodup : NoDup filelist.
Hypothesis numthreads_pos : (1 ≤ numthreads)%nat.
Hypothesis analysis :
  doMosaic_analysis transformToFilePixelCoords fuel outImgInfo
    outGeoTransform filelist imgInfoDict blocksize numthreads =
  Some (blockList, filesForBlock, blocksPerThread).

Local Abbreviation tstep :=
  (step GDALTypeCodeToNumericTypeCode drv bandNum outImgInfo blockList
     filesForBlock blockQ_maxsize).
Local Abbreviation tInv :=
  (bandInv GDALTypeCodeToNumericTypeCode drv bandNum outImgInfo blockList
     filesForBlock (concat blocksPerThread)).

Lemma analysis_bandInv s : rtc tstep (initSystem blocksPerThread) s → tInv s.
Proof.
  intros Hrun.
  destruct (doMosaic_analysis_plan transformToFilePixelCoords outImgInfo
              outGeoTransform filelist imgInfoDict blocksize numthreads fuel
              blocksize_pos enough_fuel filelist_known filelist_nodup
              numthreads_pos)
    as (bl & ffb & bpt & Hplan & H1 & H2 & H3 & H4 & H5).
  rewrite analysis in Hplan. injection Hplan as <- <- <-.
  eapply bandInv_rtc; [done|done|exact Hrun|].
  by apply bandInv_init.
Qed.

Hypothesis reads_ok :
  ∀ r, r ∈ concat blocksPerThread →
       ∃ arr, readFunc_body drv bandNum (nullVal outImgInfo) r = Ok arr ∧
              shape arr = (ysize (outblock r), xsize (outblock r)).

Lemma analysis_notRaised s :
  rtc tstep (initSystem blocksPerThread) s →
  notRaised s ∧ ¬ readerFaulted s ∧
  ∃ s', rtc tstep s s' ∧ sys_phase s' = Returned.
Proof.
  intros Hrun.
  destruct (doMosaic_analysis_plan transformToFilePixelCoords outImgInfo
              outGeoTransform filelist imgInfoDict blocksize numthreads fuel
              blocksize_pos enough_fuel filelist_known filelist_nodup
              numthreads_pos)
    as (bl & ffb & bpt & Hplan & H1 & H2 & H3 & H4 & H5).
  rewrite analysis in Hplan. injection Hplan as <- <- <-.
  destruct (notRaised_rtc GDALTypeCodeToNumericTypeCode drv bandNum outImgInfo
              blockList filesForBlock (concat blocksPerThread) H1 H3 H4 H5
              reads_ok _ _ Hrun) as [Hinv Hphase].
  { by apply bandInv_init. }
  { by intros e. }
  split_and!.
  - done.
  - unfold readerFaulted. rewrite Exists_exists.
    intros (worker & (rd & -> & Hrd)%list_elem_of_fmap & e & He).
    pose proof (band_readers _ _ _ _ _ _ _ _ Hinv) as Hreaders.
    rewrite Forall_forall in Hreaders. specialize (Hreaders rd Hrd).
    unfold readerInv in Hreaders. rewrite He in Hreaders.
    destruct Hreaders as (r & rest & Hlist & Hraise).
    destruct (bandInv_reader_running _ _ _ _ _ _ _ reads_ok _ _ _ _ Hinv Hrd
                Hlist) as [Hrunning _].
    congruence.
  - by eapply band_completes.
Qed.

End BandTheorems.

(** *** What is read, what is written, and how a band's run ends *)

(** An example with two overlapping inputs and two read workers: a 4 x 4
    output grid in 2 x 2 tiles, [s.tif] of one pixel and [t.tif] of 3 x 3
    pixels, both at the origin. *)
Definition ovFilelist : list string := ["s.tif"; "t.tif"]%string.
Definition ovFiles : gmap string ndarray :=
  {[ "s.tif"%string := mkArray (1, 1) 1 [[9]];
     "t.tif"%string := mkArray (3, 3) 1 [[1; 2; 3]; [4; 0; 6]; [7; 8; 0]] ]}.
Definition ovImgInfoDict : gmap string ImageInfo :=
  {[ "s.tif"%string := mkImageInfo 1 1 1 1 0;
     "t.tif"%string := mkImageInfo 3 3 1 1 0 ]}.
Definition ovReads : list (list BlockReadingSpec) :=
  [[mkBlockReadingSpec (mkBlockSpec 0 0 2 2) "s.tif" (mkBlockSpec 0 0 2 2);
    mkBlockReadingSpec (mkBlockSpec 0 2 2 2) "t.tif" (mkBlockSpec 0 2 2 2);
    mkBlockReadingSpec (mkBlockSpec 2 2 2 2) "t.tif" (mkBlockSpec 2 2 2 2)];
   [mkBlockReadingSpec (mkBlockSpec 0 0 2 2) "t.tif" (mkBlockSpec 0 0 2 2);
    mkBlockReadingSpec (mkBlockSpec 2 0 2 2) "t.tif" (mkBlockSpec 2 0 2 2)]].
Definition ovFilesForBlock : gmap BlockSpec (list string) :=
  {[ mkBlockSpec 0 0 2 2 := ["s.tif"; "t.tif"]%string;
     mkBlockSpec 0 2 2 2 := ["t.tif"%string];
     mkBlockSpec 2 0 2 2 := ["t.tif"%string];
     mkBlockSpec 2 2 2 2 := ["t.tif"%string] ]}.
Definition ovSchedule : list (option nat) :=
  [Some 1; None; None; Some 0; None; None; Some 0; Some 1; Some 0; Some 0;
   Some 1; None; None; None; None; None; None; None]%nat.
Definition ovFinal : System :=
  mkSystem [mkReader [] (Finished None); mkReader [] (Finished None)] []
    (mkWriterState 4 ∅
       [mkWriteCall (mkArray (2, 2) 1 [[1; 2]; [4; 0]]) 0 0;
        mkWriteCall (mkArray (2, 2) 1 [[3; 0]; [6; 0]]) 2 0;
        mkWriteCall (mkArray (2, 2) 1 [[7; 8]; [0; 0]]) 0 2;
        mkWriteCall (mkArray (2, 2) 1 [[0; 0]; [0; 0]]) 2 2])
    Returned.

Lemma ovFilelist_known fn : fn ∈ ovFilelist → is_Some (ovImgInfoDict !! fn).
Proof.
  unfold ovFilelist. rewrite !elem_of_cons, elem_of_nil.
  intros [->|[->|[]]]; by eexists.
Qed.

Lemma ovFilelist_nodup : NoDup ovFilelist.
Proof. apply (bool_decide_unpack _). by vm_compute. Qed.

Lemma ovAnalysis :
  doMosaic_analysis exTransform 4 exInfo tt ovFilelist ovImgInfoDict 2 2 =
  Some (exBlockList, ovFilesForBlock, ovReads).
Proof. by vm_compute. Qed.

Lemma ovRun :
  rtc (step id (memoryDriver ovFiles) 1 exInfo exBlockList ovFilesForBlock
         blockQ_maxsize) (initSystem ovReads) ovFinal.
Proof. apply (exec_rtc _ _ _ _ _ _ _ ovSchedule). by vm_compute. Qed.

Lemma ovReads_ok r :
  r ∈ concat ovReads →
  ∃ arr, readFunc_body (memoryDriver ovFiles) 1 (nullVal exInfo) r = Ok arr ∧
         shape arr = (ysize (outblock r), xsize (outblock r)).
Proof.
  simpl. rewrite !elem_of_cons, elem_of_nil.
  intros [->|[->|[->|[->|[->|[]]]]]]; eexists; split; by vm_compute.
Qed.

(** X12.  The analysis plans one read for every pair of a tile and a
    listed file that passes the intersection test for it, and no other
    read: the reading list goes tile by tile, within a tile in the order
    of the file list, each read carries the tile's rectangle in the file's
    pixel grid, and after the partition every planned read is with exactly
    one worker, once. *)
Theorem doMosaic_analysis_reads_each_pair_once {GeoTransform : Type}
    (transformToFilePixelCoords :
       BlockSpec → GeoTransform → ImageInfo → Z * Z * Z * Z)
    (outImgInfo : ImageInfo) (outGeoTransform : GeoTransform)
    (filelist : list string) (imgInfoDict : gmap string ImageInfo)
    (blocksize : Z) (numthreads fuel : nat) :
  0 < blocksize →
  Z.max (nrows outImgInfo) (ncols outImgInfo) ≤ Z.of_nat fuel →
  (∀ fn, fn ∈ filelist → is_Some (imgInfoDict !! fn)) →
  NoDup filelist →
  (1 ≤ numthreads)%nat →
  ∃ blockList filesForBlock blocksPerThread,
    doMosaic_analysis transformToFilePixelCoords fuel outImgInfo
      outGeoTransform filelist imgInfoDict blocksize numthreads =
      Some (blockList, filesForBlock, blocksPerThread) ∧
    blocksPerThread =
      divideBlocksByThread
        (b ← blockList;
         (λ fn, mkBlockReadingSpec b fn
                  (fileInblock transformToFilePixelCoords outGeoTransform
                     imgInfoDict b fn))
           <$> filter (λ fn, fileIntersects transformToFilePixelCoords
                               outGeoTransform imgInfoDict b fn) filelist)
        numthreads ∧
    length blocksPerThread = numthreads ∧
    NoDup (concat blocksPerThread) ∧
    ∀ r, r ∈ concat blocksPerThread ↔
         outblock r ∈ blockList ∧ filename r ∈ filelist ∧
         fileIntersects transformToFilePixelCoords outGeoTransform
           imgInfoDict (outblock r) (filename r) = true ∧
         inblock r =
           fileInblock transformToFilePixelCoords outGeoTransform
             imgInfoDict (outblock r) (filename r).
Proof.
  intros Hpos Hfuel Hknown Hnodup Hthreads.
  destruct (doMosaic_analysis_closed transformToFilePixelCoords outImgInfo
              outGeoTransform filelist imgInfoDict blocksize numthreads fuel
              Hpos Hfuel Hknown) as (ffb & Hrun & Hffb).
  set (blockList :=
         rowMajorTiles (nrows outImgInfo) (ncols outImgInfo) blocksize) in *.
  pose proof (divideBlocksByThread_concat
                (readsOf transformToFilePixelCoords outGeoTransform filelist
                   imgInfoDict blockList) numthreads Hthreads) as Hperm.
  eexists _, _, _. split; [exact Hrun|]. split_and!.
  - done.
  - unfold divideBlocksByThread. by rewrite length_fmap, length_seq.
  - rewrite Hperm. eapply (NoDup_fmap_1 keyOf).
    apply NoDup_readsOf_keys; [|done]. by apply NoDup_rowMajorTiles.
  - intros r. rewrite Hperm, elem_of_readsOf. unfold inputsOf.
    rewrite list_elem_of_filter.
    split; [intros (? & [?%Is_true_true ?] & ?)|
            intros (? & ? & ?%Is_true_true & ?)]; done.
Qed.

Lemma doMosaic_analysis_reads_each_pair_once_witness :
  ∃ blockList filesForBlock blocksPerThread,
    doMosaic_analysis exTransform 4 exInfo tt ovFilelist ovImgInfoDict 2 2 =
      Some (blockList, filesForBlock, blocksPerThread) ∧
    length blocksPerThread = 2%nat ∧ NoDup (concat blocksPerThread).
Proof.
  destruct (doMosaic_analysis_reads_each_pair_once exTransform exInfo tt
              ovFilelist ovImgInfoDict 2 2 4)
    as (blockList & ffb & bpt & Hrun & _ & Hlen & Hnodup & _).
  - done.
  - simpl. lia.
  - apply ovFilelist_known.
  - apply ovFilelist_nodup.
  - lia.
  - by exists blockList, ffb, bpt.
Defined.

(** X13.  When the projection of a tile into a file's pixel grid keeps
    the tile's size, as it does for inputs on the grid of the output,
    every array a read worker enqueues for a planned read has the shape
    of its output tile. *)
Theorem doMosaic_reads_have_tile_shape {GeoTransform : Type}
    (transformToFilePixelCoords :
       BlockSpec → GeoTransform → ImageInfo → Z * Z * Z * Z)
    (drv : RasterDriver) (bandNum : Z)
    (outImgInfo : ImageInfo) (outGeoTransform : GeoTransform)
    (filelist : list string) (imgInfoDict : gmap string ImageInfo)
    (blocksize : Z) (numthreads fuel : nat) (blockList : list BlockSpec)
    (filesForBlock : gmap BlockSpec (list string))
    (blocksPerThread : list (list BlockReadingSpec)) :
  0 < blocksize →
  Z.max (nrows outImgInfo) (ncols outImgInfo) ≤ Z.of_nat fuel →
  (∀ fn, fn ∈ filelist → is_Some (imgInfoDict !! fn)) →
  (1 ≤ numthreads)%nat →
  (∀ block imginfo fileLeft fileTop fileRight fileBottom,
     transformToFilePixelCoords block outGeoTransform imginfo =
       (fileLeft, fileTop, fileRight, fileBottom) →
     fileRight - fileLeft = xsize block ∧ fileBottom - fileTop = ysize block) →
  doMosaic_analysis transformToFilePixelCoords fuel outImgInfo
    outGeoTransform filelist imgInfoDict blocksize numthreads =
    Some (blockList, filesForBlock, blocksPerThread) →
  ∀ r outArr,
    r ∈ concat blocksPerThread →
    readFunc_body drv bandNum (nullVal outImgInfo) r = Ok outArr →
    shape outArr = (ysize (outblock r), xsize (outblock r)).
Proof.
  intros Hpos Hfuel Hknown Hthreads Hsize Hrun r outArr Hr Hread.
  destruct (doMosaic_analysis_closed transformToFilePixelCoords outImgInfo
              outGeoTransform filelist imgInfoDict blocksize numthreads fuel
              Hpos Hfuel Hknown) as (ffb & Hrun' & _).
  rewrite Hrun in Hrun'. injection Hrun' as -> -> ->.
  rewrite (divideBlocksByThread_concat _ _ Hthreads) in Hr.
  apply elem_of_readsOf in Hr as (_ & Hfn & Hin).
  rewrite (readFunc_body_shape _ _ _ _ _ Hread), Hin.
  apply list_elem_of_filter in Hfn as [_ Hfn].
  destruct (Hknown _ Hfn) as [imginfo Hinfo].
  unfold fileInblock. rewrite Hinfo.
  destruct (transformToFilePixelCoords (outblock r) outGeoTransform imginfo)
    as [[[fileLeft fileTop] fileRight] fileBottom] eqn:Htr.
  destruct (Hsize _ _ _ _ _ _ Htr) as [-> ->]. done.
Qed.

Lemma doMosaic_reads_have_tile_shape_witness :
  ∃ outArr,
    readFunc_body (memoryDriver ovFiles) 1 0
      (mkBlockReadingSpec (mkBlockSpec 0 2 2 2) "t.tif" (mkBlockSpec 0 2 2 2)) =
      Ok outArr ∧
    shape outArr = (2, 2).
Proof.
  exists (mkArray (2, 2) 1 [[3; 0]; [6; 0]]). split; [reflexivity|].
  apply (doMosaic_reads_have_tile_shape exTransform (memoryDriver ovFiles) 1
           exInfo tt ovFilelist ovImgInfoDict 2 2 4 exBlockList
           ovFilesForBlock ovReads)
    with (r := mkBlockReadingSpec (mkBlockSpec 0 2 2 2) "t.tif"
                 (mkBlockSpec 0 2 2 2)).
  - done.
  - simpl. lia.
  - apply ovFilelist_known.
  - lia.
  - intros block imginfo l t r b [= <- <- <- <-]. lia.
  - apply ovAnalysis.
  - simpl. rewrite !elem_of_cons. tauto.
  - reflexivity.
Defined.





(** X16.  When every read of the plan succeeds with an array of its tile's
    shape, no run of the band raises: in every state of every run the
    writer has not raised and no read worker has ended with an
    exception. *)
Theorem doMosaic_band_never_raises {GeoTransform : Type}
    (transformToFilePixelCoords :
       BlockSpec → GeoTransform → ImageInfo → Z * Z * Z * Z)
    (conv : Z → Z) (drv : RasterDriver) (bandNum : Z)
    (outImgInfo : ImageInfo) (outGeoTransform : GeoTransform)
    (filelist : list string) (imgInfoDict : gmap string ImageInfo)
    (blocksize : Z) (numthreads fuel : nat) (blockList : list BlockSpec)
    (filesForBlock : gmap BlockSpec (list string))
    (blocksPerThread : list (list BlockReadingSpec)) (s : System) :
  0 < blocksize →
  Z.max (nrows outImgInfo) (ncols outImgInfo) ≤ Z.of_nat fuel →
  (∀ fn, fn ∈ filelist → is_Some (imgInfoDict !! fn)) →
  NoDup filelist →
  (1 ≤ numthreads)%nat →
  doMosaic_analysis transformToFilePixelCoords fuel outImgInfo
    outGeoTransform filelist imgInfoDict blocksize numthreads =
    Some (blockList, filesForBlock, blocksPerThread) →
  (∀ r, r ∈ concat blocksPerThread →
        ∃ arr, readFunc_body drv bandNum (nullVal outImgInfo) r = Ok arr ∧
               shape arr = (ysize (outblock r), xsize (outblock r))) →
  rtc (step conv drv bandNum outImgInfo blockList filesForBlock
         blockQ_maxsize) (initSystem blocksPerThread) s →
  (∀ e, sys_phase s ≠ Raised e) ∧ ¬ readerFaulted s.
Proof.
  intros Hpos Hfuel Hknown Hnodup Hthreads Hplan Hreads Hrun.
  destruct (analysis_notRaised transformToFilePixelCoords conv drv bandNum
              outImgInfo outGeoTransform filelist imgInfoDict blocksize
              numthreads fuel blockList filesForBlock blocksPerThread Hpos
              Hfuel Hknown Hnodup Hthreads Hplan Hreads s Hrun)
    as (H1 & H2 & _).
  done.
Qed.

Lemma doMosaic_band_never_raises_witness :
  (∀ e, sys_phase ovFinal ≠ Raised e) ∧ ¬ readerFaulted ovFinal.
Proof.
  apply (doMosaic_band_never_raises exTransform id (memoryDriver ovFiles) 1
           exInfo tt ovFilelist ovImgInfoDict 2 2 4 exBlockList
           ovFilesForBlock ovReads ovFinal).
  - done.
  - simpl. lia.
  - apply ovFilelist_known.
  - apply ovFilelist_nodup.
  - lia.
  - apply ovAnalysis.
  - apply ovReads_ok.
  - apply ovRun.
Defined.

(** X17.  When every read of the plan succeeds with an array of its tile's
    shape, a band cannot get stuck: from every state of every run the
    read workers and the writer can go on to a state in which the writer
    has returned. *)
Theorem doMosaic_band_can_complete {GeoTransform : Type}
    (transformToFilePixelCoords :
       BlockSpec → GeoTransform → ImageInfo → Z * Z * Z * Z)
    (conv : Z → Z) (drv : RasterDriver) (bandNum : Z)
    (outImgInfo : ImageInfo) (outGeoTransform : GeoTransform)
    (filelist : list string) (imgInfoDict : gmap string ImageInfo)
    (blocksize : Z) (numthreads fuel : nat) (blockList : list BlockSpec)
    (filesForBlock : gmap BlockSpec (list string))
    (blocksPerThread : list (list BlockReadingSpec)) (s : System) :
  0 < blocksize →
  Z.max (nrows outImgInfo) (ncols outImgInfo) ≤ Z.of_nat fuel →
  (∀ fn, fn ∈ filelist → is_Some (imgInfoDict !! fn)) →
  NoDup filelist →
  (1 ≤ numthreads)%nat →
  doMosaic_analysis transformToFilePixelCoords fuel outImgInfo
    outGeoTransform filelist imgInfoDict blocksize numthreads =
    Some (blockList, filesForBlock, blocksPerThread) →
  (∀ r, r ∈ concat blocksPerThread →
        ∃ arr, readFunc_body drv bandNum (nullVal outImgInfo) r = Ok arr ∧
               shape arr = (ysize (outblock r), xsize (outblock r))) →
  rtc (step conv drv bandNum outImgInfo blockList filesForBlock
         blockQ_maxsize) (initSystem blocksPerThread) s →
  ∃ s',
    rtc (step conv drv bandNum outImgInfo blockList filesForBlock
           blockQ_maxsize) s s' ∧
    sys_phase s' = Returned.
Proof.
  intros Hpos Hfuel Hknown Hnodup Hthreads Hplan Hreads Hrun.
  destruct (analysis_notRaised transformToFilePixelCoords conv drv bandNum
              outImgInfo outGeoTransform filelist imgInfoDict blocksize
              numthreads fuel blockList filesForBlock blocksPerThread Hpos
              Hfuel Hknown Hnodup Hthreads Hplan Hreads s Hrun)
    as (_ & _ & H3).
  done.
Qed.

Lemma doMosaic_band_can_complete_witness :
  ∃ s',
    rtc (step id (memoryDriver ovFiles) 1 exInfo exBlockList ovFilesForBlock
           blockQ_maxsize) (initSystem ovReads) s' ∧
    sys_phase s' = Returned.
Proof.
  apply (doMosaic_band_can_complete exTransform id (memoryDriver ovFiles) 1
           exInfo tt ovFilelist ovImgInfoDict 2 2 4 exBlockList
           ovFilesForBlock ovReads (initSystem ovReads)).
  - done.
  - simpl. lia.
  - apply ovFilelist_known.
  - apply ovFilelist_nodup.
  - lia.
  - apply ovAnalysis.
  - apply ovReads_ok.
  - apply rtc_refl.
Defined.

(** ** Properties of the catalogue *)

Lemma makeImgInfoDict_loop (ImageInfo_of : string → Result ImageInfo)
    (filelist : list string) (d0 : gmap string ImageInfo) :
  match foldlR (λ (imgInfoDict : gmap string ImageInfo) filename,
                  imginfo ←R ImageInfo_of filename;
                  Ok (<[filename := imginfo]> imgInfoDict)) d0 filelist with
  | Ok d =>
      (∀ fn, fn ∈ filelist → ∃ i, ImageInfo_of fn = Ok i ∧ d !! fn = Some i) ∧
      (∀ fn, fn ∉ filelist → d !! fn = d0 !! fn)
  | Raise e =>
      ∃ pre fn post,
        filelist = pre ++ fn :: post ∧
        (∀ f, f ∈ pre → ∃ i, ImageInfo_of f = Ok i) ∧
        ImageInfo_of fn = Raise e
  end.
Proof.
  revert d0. induction filelist as [|fn filelist IH]; intros d0; simpl.
  - split; [by intros fn ?%elem_of_nil|done].
  - destruct (ImageInfo_of fn) as [i|e] eqn:Hfn; simpl.
    + specialize (IH (<[fn := i]> d0)).
      destruct (foldlR _ _ filelist) as [d|e].
      * destruct IH as [Hin Hout]. split.
        -- intros fn' Hfn'.
           destruct (decide (fn' ∈ filelist)) as [Hlater|Hlater];
             [by apply Hin|].
           apply elem_of_cons in Hfn' as [->|?]; [|done].
           exists i. split; [done|]. by rewrite Hout, lookup_insert_eq.
        -- intros fn' [Hne Hnot]%not_elem_of_cons.
           by rewrite Hout, lookup_insert_ne.
      * destruct IH as (pre & fn' & post & -> & Hpre & Hfn').
        exists (fn :: pre), fn', post. split_and!; try done.
        intros f [->|Hf]%elem_of_cons; [by eexists|by apply Hpre].
    + exists [], fn, filelist. split_and!; try done.
      by intros f ?%elem_of_nil.
Qed.

(** X18.  [makeImgInfoDict] returns a catalogue whose keys are exactly the
    listed files, each with the [ImageInfo] made for it, so that
    [findInputsPerBlock] on the same file list never ends with a
    [KeyError]; when making an [ImageInfo] raises, [makeImgInfoDict] ends
    with the exception of the first listed file for which it does. *)
Theorem makeImgInfoDict_keys_are_filelist {GeoTransform : Type}
    (transformToFilePixelCoords :
       BlockSpec → GeoTransform → ImageInfo → Z * Z * Z * Z)
    (ImageInfo_of : string → Result ImageInfo) (filelist : list string)
    (numthreads : Z) :
  (∀ imgInfoDict,
     makeImgInfoDict ImageInfo_of filelist numthreads = Ok imgInfoDict →
     (∀ fn, is_Some (imgInfoDict !! fn) ↔ fn ∈ filelist) ∧
     (∀ fn imginfo,
        imgInfoDict !! fn = Some imginfo → ImageInfo_of fn = Ok imginfo) ∧
     (∀ blockList outGeoTransform,
        findInputsPerBlock transformToFilePixelCoords blockList
          outGeoTransform filelist imgInfoDict ≠ None)) ∧
  (∀ e,
     makeImgInfoDict ImageInfo_of filelist numthreads = Raise e →
     ∃ pre fn post,
       filelist = pre ++ fn :: post ∧
       (∀ f, f ∈ pre → ∃ i, ImageInfo_of f = Ok i) ∧
       ImageInfo_of fn = Raise e).
Proof.
  pose proof (makeImgInfoDict_loop ImageInfo_of filelist ∅) as Hloop.
  unfold makeImgInfoDict. split.
  - intros d Hd. rewrite Hd in Hloop. destruct Hloop as [Hin Hout].
    assert (∀ fn, is_Some (d !! fn) ↔ fn ∈ filelist) as Hkeys.
    { intros fn. split.
      - intros [i Hi]. destruct (decide (fn ∈ filelist)) as [|Hnot]; [done|].
        by rewrite (Hout fn Hnot) in Hi.
      - intros Hfn. destruct (Hin fn Hfn) as (i & _ & Hi). by eexists. }
    split_and!; [done| |].
    + intros fn imginfo Hfn.
      destruct (Hin fn) as (i & Hi & Hi'); [apply Hkeys; by eexists|].
      congruence.
    + intros blockList outGeoTransform.
      destruct (findInputsPerBlock_spec transformToFilePixelCoords
                  outGeoTransform filelist d (λ fn, proj2 (Hkeys fn))
                  blockList) as (ffb & -> & _).
      done.
  - intros e He. by rewrite He in Hloop.
Qed.

(** ** Properties of the output grid *)

Section OutputGridFacts.
Variable F : Type.
Variables fmin fmax fsub fdiv : F → F → F.
Variable fneg : F → F.
Variable fzero : F.
Variable round_int : F → option Z.

Lemma infoList_of_inr (imgInfoDict : gmap string (GeoImageInfo F))
    (filelist : list string) (infoList : list (GeoImageInfo F)) :
  infoList_of F imgInfoDict filelist = inr infoList ↔
  Forall2 (λ fn i, imgInfoDict !! fn = Some i) filelist infoList.
Proof.
  revert infoList. induction filelist as [|fn filelist IH]; intros infoList;
    simpl.
  - split; [intros [= <-]; constructor|by intros ->%Forall2_nil_inv_l].
  - destruct (imgInfoDict !! fn) as [i|] eqn:Hfn.
    + destruct (infoList_of F imgInfoDict filelist) as [e|l] eqn:Hrest.
      * split; [done|]. intros (i' & l' & _ & Hl' & _)%Forall2_cons_inv_l.
        by apply IH in Hl'.
      * split.
        -- intros [= <-]. constructor; [done|]. by apply IH.
        -- intros (i' & l' & Hi' & Hl' & ->)%Forall2_cons_inv_l.
           apply IH in Hl'. congruence.
    + split; [done|]. intros (i' & l' & Hi' & _)%Forall2_cons_inv_l.
      congruence.
Qed.

Lemma infoList_of_inl (imgInfoDict : gmap string (GeoImageInfo F))
    (filelist : list string) (e : GridExc) :
  infoList_of F imgInfoDict filelist = inl e ↔
  ∃ pre fn post,
    filelist = pre ++ fn :: post ∧
    (∀ f, f ∈ pre → is_Some (imgInfoDict !! f)) ∧
    imgInfoDict !! fn = None ∧ e = GridKeyError fn.
Proof.
  revert e. induction filelist as [|fn filelist IH]; intros e; simpl.
  - split; [done|]. intros (pre & fn & post & Hl & _). by destruct pre.
  - destruct (imgInfoDict !! fn) as [i|] eqn:Hfn.
    + assert ((∃ pre fn0 post,
                 fn :: filelist = pre ++ fn0 :: post ∧
                 (∀ f, f ∈ pre → is_Some (imgInfoDict !! f)) ∧
                 imgInfoDict !! fn0 = None ∧ e = GridKeyError fn0) ↔
              infoList_of F imgInfoDict filelist = inl e) as ->.
      { rewrite IH. split.
        - intros (pre & fn' & post & Hl & Hpre & Hfn' & ->).
          destruct pre as [|f pre]; simpl in Hl; injection Hl as -> ->;
            [congruence|].
          exists pre, fn', post. split_and!; try done.
          intros f' Hf'. apply Hpre. by right.
        - intros (pre & fn' & post & -> & Hpre & Hfn' & ->).
          exists (fn :: pre), fn', post. split_and!; try done.
          intros f [->|Hf]%elem_of_cons; [by eexists|by apply Hpre]. }
      destruct (infoList_of F imgInfoDict filelist) as [e'|l]; [|done].
      split; by intros [= <-].
    + split.
      * intros [= <-]. exists [], fn, filelist. split_and!; try done.
        by intros f ?%elem_of_nil.
      * intros (pre & fn' & post & Hl & Hpre & Hfn' & ->).
        destruct pre as [|f pre]; simpl in Hl; injection Hl as -> ->; [done|].
        destruct (Hpre _ ltac:(by left)) as [? ?]. congruence.
Qed.

(** X19.  [makeOutputGrid] raises [IndexError] exactly for an empty file
    list, and the [KeyError] of the first listed file that has no entry
    in the catalogue, if there is one. *)
Theorem makeOutputGrid_errors (filelist : list string)
    (imgInfoDict : gmap string (GeoImageInfo F)) (nullval : option Z) :
  let result :=
    makeOutputGrid F fmin fmax fsub fdiv fneg fzero round_int filelist
      imgInfoDict nullval in
  (result = inl GridIndexError ↔ filelist = []) ∧
  (∀ fn,
     result = inl (GridKeyError fn) ↔
     ∃ pre post,
       filelist = pre ++ fn :: post ∧
       (∀ f, f ∈ pre → is_Some (imgInfoDict !! f)) ∧
       imgInfoDict !! fn = None).
Proof.
  cbv zeta. unfold makeOutputGrid.
  destruct (infoList_of F imgInfoDict filelist) as [e|infoList] eqn:Hinfo.
  - apply infoList_of_inl in Hinfo
      as (pre & fn0 & post & Hl & Hpre & Hfn0 & ->).
    split.
    + split; [done|]. intros ->. by destruct pre.
    + intros fn. split.
      * intros [= <-]. by exists pre, post.
      * intros (pre' & post' & Hl' & Hpre' & Hfn').
        assert (infoList_of F imgInfoDict filelist = inl (GridKeyError fn))
          as H1 by (apply infoList_of_inl; by exists pre', fn, post').
        assert (infoList_of F imgInfoDict filelist = inl (GridKeyError fn0))
          as H2 by (apply infoList_of_inl; by exists pre, fn0, post).
        congruence.
  - pose proof (proj1 (infoList_of_inr _ _ _) Hinfo) as Hall.
    assert (∀ fn, ¬ ∃ pre post,
              filelist = pre ++ fn :: post ∧
              (∀ f, f ∈ pre → is_Some (imgInfoDict !! f)) ∧
              imgInfoDict !! fn = None) as Hno.
    { intros fn (pre & post & Hl & Hpre & Hfn).
      assert (infoList_of F imgInfoDict filelist = inl (GridKeyError fn))
        as H1 by (apply infoList_of_inl; by exists pre, fn, post).
      congruence. }
    destruct infoList as [|firstImgInfo infoList].
    + apply Forall2_nil_inv_r in Hall as ->. split; [done|].
      intros fn. split; [done|]. intros H. by destruct (Hno fn).
    + assert (filelist ≠ []) as Hne.
      { intros ->. by apply Forall2_nil_inv_l in Hall. }
      destruct (round_int _); [destruct (round_int _)|];
        (split; [done|]; intros fn; split; [done|];
         intros H; by destruct (Hno fn)).
Qed.

(** The order of the numbers, with [fmin] and [fmax] giving a lower and
    an upper bound of their arguments, as numpy's [min] and [max] do on
    floating-point numbers that are not NaN. *)
Variable fle : F → F → Prop.
Hypothesis fle_refl : ∀ a, fle a a.
Hypothesis fle_trans : ∀ a b c, fle a b → fle b c → fle a c.
Hypothesis fmin_l : ∀ a b, fle (fmin a b) a.
Hypothesis fmin_r : ∀ a b, fle (fmin a b) b.
Hypothesis fmax_l : ∀ a b, fle a (fmax a b).
Hypothesis fmax_r : ∀ a b, fle b (fmax a b).

Lemma foldl_fmin_le (a : F) (l : list F) :
  fle (foldl fmin a l) a ∧ ∀ x, x ∈ l → fle (foldl fmin a l) x.
Proof.
  revert a. induction l as [|y l IH]; intros a; simpl.
  - split; [done|]. by intros x ?%elem_of_nil.
  - destruct (IH (fmin a y)) as [H1 H2]. split; [by eauto|].
    intros x [->|Hx]%elem_of_cons; [by eauto|by apply H2].
Qed.

Lemma foldl_fmax_le (a : F) (l : list F) :
  fle a (foldl fmax a l) ∧ ∀ x, x ∈ l → fle x (foldl fmax a l).
Proof.
  revert a. induction l as [|y l IH]; intros a; simpl.
  - split; [done|]. by intros x ?%elem_of_nil.
  - destruct (IH (fmax a y)) as [H1 H2]. split; [by eauto|].
    intros x [->|Hx]%elem_of_cons; [by eauto|by apply H2].
Qed.

End OutputGridFacts.

(** X20.  When [makeOutputGrid] returns a grid, the file list is not
    empty; projection, pixel size, band count and data type are those of
    the first listed file and the null value is the given one, or the
    first file's when none is given; the geotransform is
    [(xMin, xRes, 0, yMax, 0, -yRes)] and the grid has
    [round((xMax - xMin) / xRes)] columns and [round((yMax - yMin) / yRes)]
    rows, for bounds [xMin <= xMax'] that enclose the bounds of
    every listed file (for numbers on which [min] and [max] give lower
    and upper bounds). *)
Theorem makeOutputGrid_encloses_inputs (F : Type)
    (fmin fmax fsub fdiv : F → F → F) (fneg : F → F) (fzero : F)
    (round_int : F → option Z) (fle : F → F → Prop)
    (filelist : list string) (imgInfoDict : gmap string (GeoImageInfo F))
    (nullval : option Z) (grid : OutputGrid F) :
  (∀ a, fle a a) →
  (∀ a b c, fle a b → fle b c → fle a c) →
  (∀ a b, fle (fmin a b) a ∧ fle (fmin a b) b) →
  (∀ a b, fle a (fmax a b) ∧ fle b (fmax a b)) →
  makeOutputGrid F fmin fmax fsub fdiv fneg fzero round_int filelist
    imgInfoDict nullval = inr grid →
  ∃ fn0 firstImgInfo x0 x1 y0 y1,
    head filelist = Some fn0 ∧ imgInfoDict !! fn0 = Some firstImgInfo ∧
    og_projection F grid = projection F firstImgInfo ∧
    og_transform F grid =
      (x0, xRes F firstImgInfo, fzero, y1, fzero,
       fneg (yRes F firstImgInfo)) ∧
    round_int (fdiv (fsub x1 x0) (xRes F firstImgInfo)) =
      Some (ncols (og_info F grid)) ∧
    round_int (fdiv (fsub y1 y0) (yRes F firstImgInfo)) =
      Some (nrows (og_info F grid)) ∧
    numBands (og_info F grid) = numBands (gi_info F firstImgInfo) ∧
    dataType (og_info F grid) = dataType (gi_info F firstImgInfo) ∧
    nullVal (og_info F grid) =
      default (nullVal (gi_info F firstImgInfo)) nullval ∧
    ∀ fn, fn ∈ filelist →
          ∃ i, imgInfoDict !! fn = Some i ∧
               fle x0 (xMin F i) ∧ fle (xMax F i) x1 ∧
               fle y0 (yMin F i) ∧ fle (yMax F i) y1.
Proof.
  intros Hrefl Htrans Hmin Hmax. unfold makeOutputGrid.
  destruct (infoList_of F imgInfoDict filelist) as [e|infoList] eqn:Hinfo;
    [done|].
  apply infoList_of_inr in Hinfo.
  destruct infoList as [|firstImgInfo infoList]; [done|].
  apply Forall2_cons_inv_r in Hinfo as (fn0 & filelist' & Hfn0 & Hrest & ->).
  destruct (round_int _) as [ncols_|] eqn:Hc; [|done].
  destruct (round_int (fdiv (fsub (foldl fmax (yMax F firstImgInfo) _) _) _))
    as [nrows_|] eqn:Hr; [|done].
  intros [= <-]. simpl.
  pose proof (λ a l, foldl_fmin_le F fmin fle Hrefl Htrans
                       (λ a b, proj1 (Hmin a b)) (λ a b, proj2 (Hmin a b)) a l)
    as Hlo.
  pose proof (λ a l, foldl_fmax_le F fmax fle Hrefl Htrans
                       (λ a b, proj1 (Hmax a b)) (λ a b, proj2 (Hmax a b)) a l)
    as Hhi.
  eexists fn0, firstImgInfo, _, _, _, _. split_and!; try done.
  intros fn [->|Hfn]%elem_of_cons.
  - exists firstImgInfo. split; [done|].
    split_and!; [apply (proj1 (Hlo _ _))|apply (proj1 (Hhi _ _))
                |apply (proj1 (Hlo _ _))|apply (proj1 (Hhi _ _))].
  - apply list_elem_of_lookup in Hfn as [n Hn].
    destruct (Forall2_lookup_l _ _ _ _ _ Hrest Hn) as (i & Hi & Hfni).
    apply list_elem_of_lookup_2 in Hi.
    exists i. split; [done|].
    split_and!; [apply (proj2 (Hlo _ _))|apply (proj2 (Hhi _ _))
                |apply (proj2 (Hlo _ _))|apply (proj2 (Hhi _ _))];
      apply list_elem_of_fmap; by exists i.
Qed.

Definition gridDict : gmap string (GeoImageInfo Z) :=
  {[ "a.tif"%string :=
       mkGeoImageInfo Z (mkImageInfo 10 10 1 1 0) 0 100 0 100 10 10
         "EPSG:32755";
     "b.tif"%string :=
       mkGeoImageInfo Z (mkImageInfo 10 10 3 2 255) 50 150 (-20) 80 10 10
         "EPSG:4326" ]}.

Lemma makeOutputGrid_encloses_inputs_witness :
  ∃ x0 x1 y0 y1,
    x0 = 0 ∧ y1 = 100 ∧ (x1 - x0) / 10 = 15 ∧ (y1 - y0) / 10 = 12 ∧
    x0 ≤ 50 ∧ 150 ≤ x1 ∧ y0 ≤ -20 ∧ 80 ≤ y1.
Proof.
  destruct (makeOutputGrid_encloses_inputs Z Z.min Z.max Z.sub Z.div Z.opp 0
              Some Z.le ["a.tif"; "b.tif"]%string gridDict (Some 7)
              (mkOutputGrid Z (mkImageInfo 15 12 1 1 7)
                 (0, 10, 0, 100, 0, -10) "EPSG:32755"))
    as (fn0 & first & x0 & x1 & y0 & y1 & Hhead & Hfirst & _ & Htr & Hc & Hr &
        _ & _ & _ & Hall).
  - lia.
  - lia.
  - lia.
  - lia.
  - reflexivity.
  - injection Hhead as <-. vm_compute in Hfirst. injection Hfirst as <-.
    simpl in *.
    destruct (Hall "b.tif"%string) as (i & Hi & H1 & H2 & H3 & H4);
      [by right; left|].
    vm_compute in Hi. injection Hi as <-. simpl in *.
    injection Htr as <- <-. injection Hc as Hc. injection Hr as Hr.
    exists 0, x1, y0, 100. split_and!; done.
Defined.

(** ** Properties of the output file *)

(** X21.  [openOutfile] looks up the default creation options before it
    asks GDAL for the driver: without creation options it ends with a
    [KeyError] for every driver other than GTiff, KEA and HFA, whether or
    not GDAL has the driver.  Otherwise a driver GDAL does not have gives
    the [ValueError] that names it, and a driver GDAL has is asked to
    create the file with the size, band count and data type of the output
    grid and with the given options, or the driver's defaults when none
    are given (an empty list of options is given options); an existing
    output file is deleted first. *)
Theorem openOutfile_outcomes (GetDriverByName path_exists : string → bool)
    (outfile driver : string) (outImgInfo : ImageInfo)
    (creationoptions : option (list string)) :
  let result :=
    openOutfile GetDriverByName path_exists outfile driver outImgInfo
      creationoptions in
  let hasDefaults :=
    driver = "GTiff"%string ∨ driver = "KEA"%string ∨ driver = "HFA"%string in
  (result = inl (DriverKeyError driver) ↔
   creationoptions = None ∧ ¬ hasDefaults) ∧
  (result =
     inl (DriverValueError
            ("Driver " ++ driver ++
             " not supported in this version of GDAL")%string) ↔
   (is_Some creationoptions ∨ hasDefaults) ∧
   GetDriverByName driver = false) ∧
  (∀ calls,
     result = inr calls ↔
     GetDriverByName driver = true ∧
     ∃ options,
       (creationoptions = Some options ∨
        creationoptions = None ∧
        defaultCreationOptions !! driver = Some options) ∧
       calls =
         (if path_exists outfile then [Driver_Delete outfile] else []) ++
         [Driver_Create outfile (ncols outImgInfo) (nrows outImgInfo)
            (numBands outImgInfo) (dataType outImgInfo) options]).
Proof.
  cbv zeta. unfold openOutfile.
  assert (defaultCreationOptions !! driver = None ↔
          ¬ (driver = "GTiff"%string ∨ driver = "KEA"%string ∨
             driver = "HFA"%string)) as Hdefault.
  { unfold defaultCreationOptions.
    destruct (decide (driver = "GTiff"%string)) as [->|H1];
      [split; [done|tauto]|].
    destruct (decide (driver = "KEA"%string)) as [->|H2];
      [split; [done|tauto]|].
    destruct (decide (driver = "HFA"%string)) as [->|H3];
      [split; [done|tauto]|].
    rewrite !lookup_insert_ne by done. rewrite lookup_singleton_ne by done.
    split; [tauto|done]. }
  destruct creationoptions as [co|]; simpl.
  - destruct (GetDriverByName driver); split_and!.
    + split; [done|by intros [? _]].
    + split; [done|by intros [_ ?]].
    + intros calls. split.
      * intros [= <-]. split; [done|]. exists co. split; [by left|done].
      * intros (_ & options & [[= <-]|[? _]] & ->); done.
    + split; [done|by intros [? _]].
    + split; [intros _; split; [left; by eexists|done]|done].
    + intros calls. split; [done|by intros [? _]].
  - destruct (defaultCreationOptions !! driver) as [co|] eqn:Hco.
    + assert (driver = "GTiff"%string ∨ driver = "KEA"%string ∨
              driver = "HFA"%string) as Hdrv.
      { destruct (decide (driver = "GTiff"%string ∨ driver = "KEA"%string ∨
                          driver = "HFA"%string)) as [|Hn]; [done|].
        by pose proof (proj2 Hdefault Hn). }
      destruct (GetDriverByName driver); split_and!.
      * split; [done|]. by intros [_ ?].
      * split; [done|by intros [_ ?]].
      * intros calls. split.
        -- intros [= <-]. split; [done|]. exists co. split; [by right|done].
        -- intros (_ & options & [?|[_ [= <-]]] & ->); done.
      * split; [done|]. by intros [_ ?].
      * split; [intros _; split; [by right|done]|done].
      * intros calls. split; [done|by intros [? _]].
    + pose proof (proj1 Hdefault eq_refl) as Hne. split_and!.
      * done.
      * split; [done|]. intros [[[? ?]|?] _]; done.
      * intros calls. split; [done|].
        intros (_ & options & [?|[_ ?]] & _); done.
Qed.

(** ** Properties of the timing script *)

Lemma startswith_spec (s p : list ascii) :
  startswith s p = true ↔ ∃ post, s = p ++ post.
Proof.
  revert s. induction p as [|c p IH]; intros s; simpl.
  - split; [by exists s|done].
  - destruct s as [|c' s].
    + split; [done|]. by intros [post ?].
    + rewrite andb_true_iff, bool_decide_eq_true, IH. split.
      * intros [-> [post ->]]. by exists post.
      * intros [post [= -> ->]]. split; [done|]. by exists post.
Qed.

Lemma replace_from_skip (old new l1 rest : list ascii) :
  replace_from old new (length l1) (l1 ++ rest) = replace_from old new 0 rest.
Proof. induction l1 as [|c l1 IH]; simpl; [by destruct rest|done]. Qed.

Lemma replace_from_prefix (old new rest : list ascii) :
  old ≠ [] →
  replace_from old new 0 (old ++ rest) = new ++ replace_from old new 0 rest.
Proof.
  destruct old as [|c old]; [done|]. intros _.
  change ((c :: old) ++ rest) with (c :: (old ++ rest)).
  cbn [replace_from].
  assert (startswith (c :: old ++ rest) (c :: old) = true) as ->.
  { apply startswith_spec. by exists rest. }
  replace (length (c :: old) - 1)%nat with (length old) by (simpl; lia).
  by rewrite replace_from_skip.
Qed.

Lemma replace_from_absent (old new s : list ascii) :
  (∀ pre post, s ≠ pre ++ old ++ post) → replace_from old new 0 s = s.
Proof.
  induction s as [|c s IH]; intros Habsent; [done|].
  cbn [replace_from].
  destruct (startswith (c :: s) old) eqn:Hstart.
  - apply startswith_spec in Hstart as [post Hpost].
    by destruct (Habsent [] post).
  - f_equal. apply IH. intros pre post ->.
    by destruct (Habsent (c :: pre) post).
Qed.

Lemma list_ascii_of_string_app (s1 s2 : string) :
  list_ascii_of_string (s1 ++ s2) =
  list_ascii_of_string s1 ++ list_ascii_of_string s2.
Proof. induction s1 as [|c s1 IH]; simpl; [done|by rewrite IH]. Qed.

Lemma string_of_list_ascii_app (l1 l2 : list ascii) :
  string_of_list_ascii (l1 ++ l2) =
  (string_of_list_ascii l1 ++ string_of_list_ascii l2)%string.
Proof. induction l1 as [|c l1 IH]; simpl; [done|by rewrite IH]. Qed.

(** [old] occurs in [s]. *)
Definition occurs_in (old s : string) : Prop :=
  ∃ pre post : string, s = (pre ++ old ++ post)%string.

Lemma str_replace_absent (s old new : string) :
  ¬ occurs_in old s → str_replace s old new = s.
Proof.
  intros Habsent. unfold str_replace. rewrite replace_from_absent.
  - apply string_of_list_ascii_of_string.
  - intros pre post Heq. apply Habsent.
    exists (string_of_list_ascii pre), (string_of_list_ascii post).
    rewrite <- (string_of_list_ascii_of_string s), Heq.
    rewrite !string_of_list_ascii_app.
    by rewrite string_of_list_ascii_of_string.
Qed.

Lemma str_replace_prefix (rest old new : string) :
  old ≠ ""%string → ¬ occurs_in old rest →
  str_replace (old ++ rest) old new = (new ++ rest)%string.
Proof.
  intros Hne Habsent. unfold str_replace.
  rewrite list_ascii_of_string_app, replace_from_prefix.
  - rewrite string_of_list_ascii_app, string_of_list_ascii_of_string.
    f_equal. by apply (str_replace_absent rest old new).
  - by destruct old.
Qed.

(** X22.  [genFilelist] returns one name per tile, in the order of the
    tile list.  A tile whose path is an S3 URL [s3:/] followed by a rest
    without [s3:/] gets the name [/vsis3], the rest, [/], the band and
    [.tif]; a tile whose path does not contain [s3:/] gets its path
    followed by [/], the band and [.tif]. *)
Theorem genFilelist_names (tileList : list Tile) (band : string) :
  length (genFilelist tileList band) = length tileList ∧
  (∀ i t rest,
     tileList !! i = Some t →
     path t = ("s3:/" ++ rest)%string → ¬ occurs_in "s3:/" rest →
     genFilelist tileList band !! i =
     Some ("/vsis3" ++ rest ++ "/" ++ band ++ ".tif")%string) ∧
  (∀ i t,
     tileList !! i = Some t → ¬ occurs_in "s3:/" (path t) →
     genFilelist tileList band !! i =
     Some (path t ++ "/" ++ band ++ ".tif")%string) ∧
  genFilelist [mkTile "55HBU" "s3://bucket/55/H/BU/2023" 3;
               mkTile "local" "/data/55HBV" 0] "B02" =
  ["/vsis3/bucket/55/H/BU/2023/B02.tif"; "/data/55HBV/B02.tif"]%string.
Proof.
  unfold genFilelist. split_and!.
  - by rewrite length_fmap.
  - intros i t rest Hi Hpath Habsent. rewrite list_lookup_fmap, Hi. simpl.
    by rewrite Hpath, str_replace_prefix by done.
  - intros i t Hi Habsent. rewrite list_lookup_fmap, Hi. simpl.
    by rewrite str_replace_absent.
  - reflexivity.
Qed.

Lemma ascii_compare_N (a b : ascii) :
  Ascii.compare a b = N.compare (N_of_ascii a) (N_of_ascii b).
Proof. done. Qed.

Lemma string_leb_trans (a b c : string) :
  String.leb a b → String.leb b c → String.leb a c.
Proof.
  unfold String.leb. revert b c.
  induction a as [|c1 a IH]; intros [|c2 b] [|c3 c]; simpl; try done.
  rewrite !ascii_compare_N.
  destruct (N.compare_spec (N_of_ascii c1) (N_of_ascii c2)) as [H12|H12|H12];
    destruct (N.compare_spec (N_of_ascii c2) (N_of_ascii c3)) as [H23|H23|H23];
    try done.
  - rewrite H12, H23, N.compare_refl. apply IH.
  - intros _ _. rewrite H12. by rewrite (proj2 (N.compare_lt_iff _ _) H23).
  - intros _ _. rewrite <- H23. by rewrite (proj2 (N.compare_lt_iff _ _) H12).
  - intros _ _.
    by rewrite (proj2 (N.compare_lt_iff _ _) (N.lt_trans _ _ _ H12 H23)).
Qed.

#[local] Instance string_leb_transitive :
  Transitive (λ a b : string, Is_true (String.leb a b)).
Proof. intros a b c. apply string_leb_trans. Qed.

#[local] Instance string_leb_total :
  Total (λ a b : string, Is_true (String.leb a b)).
Proof.
  intros a b. destruct (String.leb_total a b) as [H|H]; rewrite H; [by left|by right].
Qed.

Lemma StronglySorted_filter {X : Type} (R : relation X) (P : X → Prop)
    `{∀ x, Decision (P x)} (l : list X) :
  StronglySorted R l → StronglySorted R (filter P l).
Proof.
  induction 1 as [|x l Hsorted IH Hall]; [constructor|].
  rewrite filter_cons. destruct (decide (P x)); [|done].
  constructor; [done|]. rewrite Forall_forall in Hall |- *.
  intros y [_ Hy]%list_elem_of_filter. by apply Hall.
Qed.

Lemma bind_filter {X Y : Type} (P : X → Prop) `{∀ x, Decision (P x)}
    (f : X → list Y) (l : list X) :
  (x ← l; if decide (P x) then f x else []) = filter P l ≫= f.
Proof.
  induction l as [|x l IH]; [done|]. csimpl. rewrite filter_cons, IH.
  by destruct (decide (P x)).
Qed.

Lemma elem_of_sorted_keys (tilesByDate : gmap string (list Tile)) date :
  date ∈ sorted_keys tilesByDate ↔ is_Some (tilesByDate !! date).
Proof.
  unfold sorted_keys. rewrite merge_sort_Permutation, list_elem_of_fmap. split.
  - intros ([d tiles] & -> & Hin%elem_of_map_to_list). by eexists.
  - intros [tiles Hd]. exists (date, tiles). split; [done|].
    by apply elem_of_map_to_list.
Qed.

(** X23.  [genJoblist] makes four jobs, one per band of [bandList] and in
    that order, for every date that has exactly nine tiles, the dates
    taken in increasing order; dates with another number of tiles are
    skipped.  Every job lists nine files. *)
Theorem genJoblist_jobs (tilesByDate : gmap string (list Tile)) :
  ∃ dates : list string,
    (∀ date, date ∈ dates ↔
             ∃ tileList, tilesByDate !! date = Some tileList ∧
                         length tileList = 9%nat) ∧
    StronglySorted (λ a b, String.leb a b) dates ∧ NoDup dates ∧
    genJoblist tilesByDate =
      (date ← dates;
       (λ band, genFilelist (default [] (tilesByDate !! date)) band)
         <$> bandList) ∧
    length (genJoblist tilesByDate) = (4 * length dates)%nat ∧
    ∀ job, job ∈ genJoblist tilesByDate → length job = 9%nat.
Proof.
  set (P := λ date, length (default [] (tilesByDate !! date)) = 9%nat).
  exists (filter P (sorted_keys tilesByDate)).
  assert (genJoblist tilesByDate =
          filter P (sorted_keys tilesByDate) ≫=
            λ date, (λ band, genFilelist (default [] (tilesByDate !! date)) band)
                      <$> bandList) as Hclosed.
  { unfold genJoblist. apply (bind_filter P). }
  split_and!.
  - intros date. rewrite list_elem_of_filter, elem_of_sorted_keys. unfold P.
    split.
    + intros [Hlen [tiles Hd]]. rewrite Hd in Hlen. by exists tiles.
    + intros (tiles & Hd & Hlen). rewrite Hd. split; [done|by eexists].
  - apply StronglySorted_filter, StronglySorted_merge_sort; apply _.
  - apply NoDup_filter. unfold sorted_keys. rewrite merge_sort_Permutation.
    apply NoDup_fst_map_to_list.
  - done.
  - rewrite Hclosed, (length_bind_const _ _ 4); [lia|]. by intros.
  - intros job. rewrite Hclosed, list_elem_of_bind.
    intros (date & (band & -> & _)%list_elem_of_fmap
            & [Hlen _]%list_elem_of_filter).
    unfold genFilelist. by rewrite length_fmap.
Qed.

Section TimingMainFacts.
Variables Monitor Exc : Type.
Variable doMosaic : list string → Z → Z → Exc + Monitor.

(** What the body of the loop adds to the monitoring list for job [i]. *)
Definition job_result (runsPerThreadcount blocksize i : Z)
    (infileList : list string) : option Monitor :=
  q ← floordiv i runsPerThreadcount;
  match doMosaic infileList (q + 1) blocksize with
  | inr monitorDict => Some monitorDict
  | inl _ => None
  end.

Lemma main_loop_closed runs blocksize (jobs : list (list string)) i acc :
  main_loop Monitor Exc doMosaic runs blocksize jobs i acc =
  acc ++ omap (λ p, job_result runs blocksize p.1 p.2)
           (zip (seqZ i (Z.of_nat (length jobs))) jobs).
Proof.
  revert i acc. induction jobs as [|job jobs IH]; intros i acc.
  - simpl. by rewrite app_nil_r.
  - assert (∀ (f : Z * list string → option Monitor) x l,
              omap f (x :: l) =
              match f x with Some y => y :: omap f l | None => omap f l end)
      as Hcons by done.
    cbn [main_loop length]. rewrite IH, Nat2Z.inj_succ.
    rewrite (seqZ_cons i) by lia. rewrite Z.pred_succ.
    replace (Z.succ i) with (i + 1) by lia. cbn [zip zip_with].
    rewrite Hcons. cbn [fst snd].
    set (tail := omap _ (zip _ jobs)). unfold job_result.
    destruct (floordiv i runs) as [q|]; cbn [mbind option_bind]; [|done].
    destruct (doMosaic job (q + 1) blocksize); [done|].
    by rewrite <- app_assoc.
Qed.

End TimingMainFacts.

(** X24.  The thread counts of the timing runs.  With fewer jobs than
    [maxnumthreads] every job fails on a division by zero that the loop
    catches, so nothing is run and the monitoring list is empty.
    Otherwise job [i] is run with [i // (n // maxnumthreads) + 1]
    threads, which is at least one and stays within [maxnumthreads] only
    for the first [(n // maxnumthreads) * maxnumthreads] jobs: when [n]
    is not a multiple of [maxnumthreads] the last job is run with more
    than [maxnumthreads] threads.  With [maxnumthreads = 0] the division
    by zero is outside the loop and ends [main]. *)
Theorem main_jobs_thread_counts (Monitor Exc : Type)
    (doMosaic : list string → Z → Z → Exc + Monitor)
    (mosaicJobList : list (list string)) (maxnumthreads blocksize : Z) :
  0 < maxnumthreads →
  let n := Z.of_nat (length mosaicJobList) in
  let runsPerThreadcount := n / maxnumthreads in
  (n < maxnumthreads →
   main Monitor Exc doMosaic mosaicJobList maxnumthreads blocksize =
   Some []) ∧
  (maxnumthreads ≤ n →
   main Monitor Exc doMosaic mosaicJobList maxnumthreads blocksize =
   Some (omap (λ p : Z * list string,
                 match doMosaic p.2 (p.1 / runsPerThreadcount + 1) blocksize
                 with
                 | inr monitorDict => Some monitorDict
                 | inl _ => None
                 end)
           (zip (seqZ 0 n) mosaicJobList)) ∧
   (∀ i, 0 ≤ i < n →
         1 ≤ i / runsPerThreadcount + 1 ∧
         (i / runsPerThreadcount + 1 ≤ maxnumthreads ↔
          i < runsPerThreadcount * maxnumthreads)) ∧
   (n `mod` maxnumthreads ≠ 0 →
    maxnumthreads < (n - 1) / runsPerThreadcount + 1)) ∧
  main Monitor Exc doMosaic mosaicJobList 0 blocksize = None.
Proof.
  intros Hmax n runs. split_and!.
  - intros Hlt. unfold main, floordiv.
    rewrite decide_False by lia. simpl. fold n.
    rewrite (Z.div_small n maxnumthreads) by lia.
    rewrite main_loop_closed. simpl. fold n.
    generalize (zip (seqZ 0 n) mosaicJobList). intros l.
    induction l as [|p l IH]; [done|]. simpl. exact IH.
  - intros Hle.
    assert (1 ≤ runs) as Hruns.
    { unfold runs. apply Z.div_le_lower_bound; lia. }
    split_and!.
    + unfold main, floordiv. rewrite decide_False by lia. simpl.
      fold n runs. rewrite main_loop_closed. simpl. fold n. f_equal.
      apply list_eq. intros k.
      generalize (zip (seqZ 0 n) mosaicJobList). intros l. revert k.
      induction l as [|p l IH]; intros k; [done|]. simpl.
      unfold job_result at 1, floordiv at 1. rewrite decide_False by lia.
      simpl. destruct (doMosaic _ _ _); simpl; [apply IH|].
      destruct k; simpl; [done|apply IH].
    + intros i Hi. split.
      * pose proof (Z.div_pos i runs). lia.
      * split.
        -- intros Hq. pose proof (Z.mul_succ_div_gt i runs). nia.
        -- intros Hlt. assert (i / runs < maxnumthreads); [|lia].
           apply Z.div_lt_upper_bound; lia.
    + intros Hmod.
      assert (maxnumthreads ≤ (n - 1) / runs); [|lia].
      apply Z.div_le_lower_bound; [lia|].
      pose proof (Z.div_mod n maxnumthreads).
      pose proof (Z.mod_pos_bound n maxnumthreads Hmax). unfold runs. nia.
  - unfold main, floordiv. by rewrite decide_True.
Qed.

Lemma main_jobs_thread_counts_witness :
  main Z unit (λ _ numthreads _, inr numthreads)
    (replicate 9 ["a.tif"%string]) 5 1024 =
  Some [1; 2; 3; 4; 5; 6; 7; 8; 9] ∧
  5 < (9 - 1) / (9 / 5) + 1.
Proof.
  destruct (main_jobs_thread_counts Z unit (λ _ numthreads _, inr numthreads)
              (replicate 9 ["a.tif"%string]) 5 1024) as (_ & Hrun & _);
    [lia|].
  destruct Hrun as (Heq & _ & Hlast); [simpl; lia|].
  split; [by rewrite Heq|]. apply Hlast. by vm_compute.
Defined.
